(** * BlackTek-Server: the creature simulation core (creature.cpp)

    A shallow embedding of the parts of [Creature] that the specification's
    testable properties talk about: damage mitigation and health, the damage
    ledger, the walk queue, the step duration, the local walk cache, and the
    master/summon graph; and of what surrounds them in creature.cpp and
    npc.cpp: the rounds of combat, the cost of a step, sight and targets,
    the notifications that keep the walk cache, conditions, custom skills,
    script events and the condition a path search is given.  Every
    definition follows the C++ member function of the same name; machine
    integers are [Z] with the wrap-around of their width written out. *)

From Stdlib Require Import ZArith List Bool Lia QArith Qround Reals Lra.
From Equations Require Import Equations.
From stdpp Require Import base option list gmap strings.

Local Open Scope Z_scope.

(** ** Machine integers *)

(** An unsigned [w]-bit value. *)
Definition wrap_unsigned (w n : Z) : Z := n mod 2 ^ w.

(** A two's complement [w]-bit value. *)
Definition wrap_signed (w n : Z) : Z :=
  (n + 2 ^ (w - 1)) mod 2 ^ w - 2 ^ (w - 1).

Definition wrap_uint16 : Z -> Z := wrap_unsigned 16.
Definition wrap_uint32 : Z -> Z := wrap_unsigned 32.
Definition wrap_uint64 : Z -> Z := wrap_unsigned 64.
Definition wrap_int32 : Z -> Z := wrap_signed 32.

Definition INT32_MIN : Z := - 2 ^ 31.
Definition INT32_MAX : Z := 2 ^ 31 - 1.
Definition is_int32 (n : Z) : Prop := INT32_MIN <= n <= INT32_MAX.

(** Modelled from the spec: [hasBitSet(flag, flags)] of tools.h, which is
    not among the sources.  Immunities and suppressions are bitmasks of
    types; the test says that the bit of [flag] is set in [flags]. *)
Definition hasBitSet (flag flags : Z) : bool :=
  negb (Z.land flags flag =? 0).

(** ** Combat resolution: health, mitigation and the damage ledger *)

Module Combat.

(** The combat types: creature.cpp names the eight damage types of the
    ticking conditions and COMBAT_HEALING. *)
Inductive CombatType_t : Type :=
| COMBAT_NONE
| COMBAT_PHYSICALDAMAGE
| COMBAT_ENERGYDAMAGE
| COMBAT_EARTHDAMAGE
| COMBAT_FIREDAMAGE
| COMBAT_UNDEFINEDDAMAGE
| COMBAT_LIFEDRAIN
| COMBAT_MANADRAIN
| COMBAT_HEALING
| COMBAT_DROWNDAMAGE
| COMBAT_ICEDAMAGE
| COMBAT_HOLYDAMAGE
| COMBAT_DEATHDAMAGE.

(** Modelled from the spec: the values of [CombatType_t] in enums.h,
    which is not among the sources.  Immunity is a bitmask of types: each
    type is one bit of the 32-bit mask that [isImmune] tests. *)
Definition CombatType_bits (t : CombatType_t) : Z :=
  match t with
  | COMBAT_NONE => 0
  | COMBAT_PHYSICALDAMAGE => Z.shiftl 1 0
  | COMBAT_ENERGYDAMAGE => Z.shiftl 1 1
  | COMBAT_EARTHDAMAGE => Z.shiftl 1 2
  | COMBAT_FIREDAMAGE => Z.shiftl 1 3
  | COMBAT_UNDEFINEDDAMAGE => Z.shiftl 1 4
  | COMBAT_LIFEDRAIN => Z.shiftl 1 5
  | COMBAT_MANADRAIN => Z.shiftl 1 6
  | COMBAT_HEALING => Z.shiftl 1 7
  | COMBAT_DROWNDAMAGE => Z.shiftl 1 8
  | COMBAT_ICEDAMAGE => Z.shiftl 1 9
  | COMBAT_HOLYDAMAGE => Z.shiftl 1 10
  | COMBAT_DEATHDAMAGE => Z.shiftl 1 11
  end.

Definition CombatType_eqb (a b : CombatType_t) : bool :=
  CombatType_bits a =? CombatType_bits b.

(** The block classification; creature.cpp names its four values. *)
Inductive BlockType_t : Type :=
| BLOCK_NONE
| BLOCK_DEFENSE
| BLOCK_ARMOR
| BLOCK_IMMUNITY.

Definition BlockType_eqb (a b : BlockType_t) : bool :=
  match a, b with
  | BLOCK_NONE, BLOCK_NONE | BLOCK_DEFENSE, BLOCK_DEFENSE
  | BLOCK_ARMOR, BLOCK_ARMOR | BLOCK_IMMUNITY, BLOCK_IMMUNITY => true
  | _, _ => false
  end.

(** [CountBlock_t], one entry of the damage ledger, with the two fields
    creature.cpp reads and writes: the cumulative damage [total] (copied
    into an int32_t) and the time stamp of the last hit [ticks]
    (subtracted from the int64_t [OTSYS_TIME()]). *)
Record CountBlock_t : Type := mkCountBlock {
  total : Z;
  ticks : Z
}.

(** The fields of [Creature] that combat reads and writes.  [defense],
    [armor], [damageImmunities] and [lostExperience] stand for what the
    virtual getters [getDefense], [getArmor], [getDamageImmunities] and
    [getLostExperience] return; the ledger is the [std::map] keyed by
    attacker id, kept as an association list in increasing key order,
    which is the order the code iterates in. *)
Record Creature : Type := mkCreature {
  id : Z;
  health : Z;
  healthMax : Z;
  blockCount : Z;
  canUseDefense : bool;
  defense : Z;
  armor : Z;
  damageImmunities : Z;
  damageMap : list (Z * CountBlock_t);
  lastHitCreatureId : Z;
  lostExperience : Z
}.

Definition set_health (c : Creature) (h : Z) : Creature :=
  mkCreature (id c) h (healthMax c) (blockCount c) (canUseDefense c)
    (defense c) (armor c) (damageImmunities c) (damageMap c)
    (lastHitCreatureId c) (lostExperience c).

Definition set_blockCount (c : Creature) (n : Z) : Creature :=
  mkCreature (id c) (health c) (healthMax c) n (canUseDefense c)
    (defense c) (armor c) (damageImmunities c) (damageMap c)
    (lastHitCreatureId c) (lostExperience c).

Definition set_ledger (c : Creature) (m : list (Z * CountBlock_t)) (hit : Z)
  : Creature :=
  mkCreature (id c) (health c) (healthMax c) (blockCount c) (canUseDefense c)
    (defense c) (armor c) (damageImmunities c) m hit
    (lostExperience c).

(** What a call leaves behind outside the creature: notifications to
    other objects and tasks handed to the dispatcher. *)
Inductive Event : Type :=
| EvAddCreatureHealth (creature : Z)
| EvTaskExecuteDeath (creature : Z)
| EvOnBlockHit
| EvAttackerOnAttackedCreature (attacker target : Z)
| EvAttackerOnAttackedCreatureBlockHit (attacker : Z) (b : BlockType_t)
| EvMasterPlayerOnAttackedCreature (attacker target : Z)
| EvOnAttacked.

Definition getMaxHealth (c : Creature) : Z := healthMax c.
Definition getDefense (c : Creature) : Z := defense c.
Definition getArmor (c : Creature) : Z := armor c.

Definition isImmune (c : Creature) (t : CombatType_t) : bool :=
  hasBitSet (CombatType_bits t) (damageImmunities c).

(** *** Creature::changeHealth *)

Definition changeHealth (c : Creature) (healthChange : Z)
    (sendHealthChange : bool) : Creature * list Event :=
  let oldHealth := health c in
  let newHealth :=
    if 0 <? healthChange
    then wrap_int32 (oldHealth
                     + Z.min healthChange
                         (wrap_int32 (getMaxHealth c - oldHealth)))
    else Z.max 0 (wrap_int32 (oldHealth + healthChange)) in
  (set_health c newHealth,
   (if sendHealthChange && negb (oldHealth =? newHealth)
    then [EvAddCreatureHealth (id c)] else [])
   ++ (if newHealth <=? 0 then [EvTaskExecuteDeath (id c)] else [])).

(** *** Creature::blockHit *)

(** The attacker as [blockHit] sees it: its id and whether its master is
    a player. *)
Record Attacker : Type := mkAttacker {
  attackerId : Z;
  masterIsPlayer : bool
}.

Record BlockResult : Type := mkBlockResult {
  blockType : BlockType_t;
  damageOut : Z;
  creatureOut : Creature;
  events : list Event
}.

Section BlockHit.

(** [uniform_random(min, max)] of tools.cpp, the pseudo-random source.
    Nothing below depends on the values it draws. *)
Variable uniform_random : Z -> Z -> Z.

(** The mitigation steps of [blockHit], up to and including the
    [onBlockHit] notification: the block type, the damage, the remaining
    block count and the notifications so far. *)
Definition blockHit_mitigate (c : Creature) (combatType : CombatType_t)
    (damage : Z) (checkDefense checkArmor : bool)
  : BlockType_t * Z * Z * list Event :=
  if isImmune c combatType then (BLOCK_IMMUNITY, 0, blockCount c, [])
  else if checkDefense || checkArmor then
    let hasDefense := 0 <? blockCount c in
    let blockCount1 :=
      if hasDefense then wrap_uint32 (blockCount c - 1) else blockCount c in
    let '(blockType1, damage1, checkArmor1) :=
      if checkDefense && hasDefense && canUseDefense c then
        let defense := getDefense c in
        let d := wrap_int32 (damage - uniform_random (defense ÷ 2) defense) in
        if d <=? 0 then (BLOCK_DEFENSE, 0, false)
        else (BLOCK_NONE, d, checkArmor)
      else (BLOCK_NONE, damage, checkArmor) in
    let '(blockType2, damage2) :=
      if checkArmor1 then
        let armor := getArmor c in
        let d :=
          if 3 <? armor then
            wrap_int32
              (damage1
               - uniform_random (armor ÷ 2) (armor - (Z.rem armor 2 + 1)))
          else if 0 <? armor then wrap_int32 (damage1 - 1)
          else damage1 in
        if d <=? 0 then (BLOCK_ARMOR, 0) else (blockType1, d)
      else (blockType1, damage1) in
    (blockType2, damage2, blockCount1,
     if hasDefense && negb (BlockType_eqb blockType2 BLOCK_NONE)
     then [EvOnBlockHit] else [])
  else (BLOCK_NONE, damage, blockCount c, []).

Definition blockHit (c : Creature) (attacker : option Attacker)
    (combatType : CombatType_t) (damage : Z)
    (checkDefense checkArmor : bool) : BlockResult :=
  let '(blockType1, damage1, blockCount1, events1) :=
    blockHit_mitigate c combatType damage checkDefense checkArmor in
  let '(blockType2, damage2) :=
    if damage1 <=? 0 then (BLOCK_ARMOR, 0) else (blockType1, damage1) in
  let events2 :=
    match attacker with
    | Some a =>
        if negb (CombatType_eqb combatType COMBAT_HEALING) then
          [EvAttackerOnAttackedCreature (attackerId a) (id c);
           EvAttackerOnAttackedCreatureBlockHit (attackerId a) blockType2]
          ++ (if masterIsPlayer a
              then [EvMasterPlayerOnAttackedCreature (attackerId a) (id c)]
              else [])
        else []
    | None => []
    end in
  mkBlockResult blockType2 damage2 (set_blockCount c blockCount1)
    (events1 ++ events2 ++ [EvOnAttacked]).

End BlockHit.

(** *** The damage ledger *)

Fixpoint ledger_find (m : list (Z * CountBlock_t)) (k : Z)
  : option CountBlock_t :=
  match m with
  | [] => None
  | (k', cb) :: rest => if k' =? k then Some cb else ledger_find rest k
  end.

(** [damageMap[k] = cb]: the entry is replaced, or inserted at its place
    in key order. *)
Fixpoint ledger_store (m : list (Z * CountBlock_t)) (k : Z)
    (cb : CountBlock_t) : list (Z * CountBlock_t) :=
  match m with
  | [] => [(k, cb)]
  | (k', cb') :: rest =>
      if k' =? k then (k, cb) :: rest
      else if k <? k' then (k, cb) :: (k', cb') :: rest
      else (k', cb') :: ledger_store rest k cb
  end.

(** Creature::addDamagePoints; [now] is [OTSYS_TIME()]. *)
Definition addDamagePoints (c : Creature) (now attackerId damagePoints : Z)
  : Creature :=
  if damagePoints <=? 0 then c
  else
    let cb :=
      default (mkCountBlock 0 0) (ledger_find (damageMap c) attackerId) in
    set_ledger c
      (ledger_store (damageMap c) attackerId
         (mkCountBlock (wrap_int32 (total cb + damagePoints)) now))
      attackerId.

(** Creature::onIdleStatus *)
Definition onIdleStatus (c : Creature) : Creature :=
  if 0 <? health c then set_ledger c [] 0 else c.

Section Ledger.

(** The world outside the creature: [creatureExists k] says that
    [g_game.getCreatureByID(k)] finds a creature; [partyLeader k] is the
    leader experience is redirected to when [k] is a player in a party
    with a leader and with shared experience active and enabled;
    [inFightTicks] is the configured combat-lock duration (PZ_LOCKED). *)
Variable creatureExists : Z -> bool.
Variable partyLeader : Z -> option Z.
Variable inFightTicks : Z.

(** The test every windowed consumer applies to an entry. *)
Definition inFight (now : Z) (cb : CountBlock_t) : bool :=
  now - ticks cb <=? inFightTicks.

(** Creature::hasBeenAttacked *)
Definition hasBeenAttacked (c : Creature) (now attackerId : Z) : bool :=
  match ledger_find (damageMap c) attackerId with
  | None => false
  | Some cb => inFight now cb
  end.

(** Creature::getKillers *)
Fixpoint getKillers_loop (self now : Z) (m : list (Z * CountBlock_t))
  : list Z :=
  match m with
  | [] => []
  | (k, cb) :: rest =>
      if creatureExists k && negb (k =? self) && inFight now cb
      then k :: getKillers_loop self now rest
      else getKillers_loop self now rest
  end.

Definition getKillers (c : Creature) (now : Z) : list Z :=
  getKillers_loop (id c) now (damageMap c).

(** Creature::getDamageRatio: the two uint32_t sums, then their quotient.
    The quotient is a double in the code; it is kept exact here. *)
Definition getDamageRatio_sums (m : list (Z * CountBlock_t)) (attacker : Z)
  : Z * Z :=
  fold_left
    (fun '(totalDamage, attackerDamage) '(k, cb) =>
       (wrap_uint32 (totalDamage + total cb),
        if k =? attacker then wrap_uint32 (attackerDamage + total cb)
        else attackerDamage))
    m (0, 0).

Definition getDamageRatio (c : Creature) (attacker : Z) : Q :=
  let '(totalDamage, attackerDamage) :=
    getDamageRatio_sums (damageMap c) attacker in
  if totalDamage =? 0 then 0%Q
  else (inject_Z attackerDamage / inject_Z totalDamage)%Q.

(** Creature::getGainedExperience *)
Definition getGainedExperience (c : Creature) (attacker : Z) : Z :=
  wrap_uint64
    (Qfloor (getDamageRatio c attacker * inject_Z (lostExperience c))).

(** [experienceMap[k] += e], inserting the key when it is new. *)
Fixpoint experienceMap_add (m : list (Z * Z)) (k e : Z) : list (Z * Z) :=
  match m with
  | [] => [(k, e)]
  | (k', e') :: rest =>
      if k' =? k then (k, wrap_uint64 (e' + e)) :: rest
      else (k', e') :: experienceMap_add rest k e
  end.

(** The scan of the ledger in Creature::onDeath: the state of its loop is
    [mostDamage], [mostDamageCreature] and [experienceMap].  The code
    keeps the experience in a [std::map] keyed by creature; here the keys
    are in the order in which they were first awarded. *)
Record DeathScan : Type := mkDeathScan {
  mostDamage : Z;
  mostDamageCreature : option Z;
  experienceMap : list (Z * Z)
}.

Definition onDeath_step (c : Creature) (now : Z) (st : DeathScan)
    (entry : Z * CountBlock_t) : DeathScan :=
  let '(k, cb) := entry in
  if creatureExists k then
    let '(most, who) :=
      if (mostDamage st <? total cb) && inFight now cb
      then (total cb, Some k)
      else (mostDamage st, mostDamageCreature st) in
    let exps :=
      if negb (k =? id c) then
        let gainExp := getGainedExperience c k in
        let awardee := default k (partyLeader k) in
        experienceMap_add (experienceMap st) awardee gainExp
      else experienceMap st in
    mkDeathScan most who exps
  else st.

Definition onDeath_scan (c : Creature) (now : Z) : DeathScan :=
  fold_left (onDeath_step c now) (damageMap c) (mkDeathScan 0 None []).

End Ledger.

End Combat.

(** ** Movement: step duration and the walk queue *)

Module Movement.

Local Open Scope R_scope.

(** The tunable constants of the speed curve. *)
Definition speedA : R := 857.36.
Definition speedB : R := 261.29.
Definition speedC : R := -4795.01.

Local Close Scope R_scope.

(** Modelled from the spec: the enumeration [Direction] of enums.h,
    which is not among the sources.  creature.cpp draws a drunken step as
    [rand % 4], one of the four cardinal directions, and tests a diagonal
    with [dir & DIRECTION_DIAGONAL_MASK]. *)
Definition Direction : Type := Z.
Definition DIRECTION_NORTH : Direction := 0.
Definition DIRECTION_EAST : Direction := 1.
Definition DIRECTION_SOUTH : Direction := 2.
Definition DIRECTION_WEST : Direction := 3.
Definition DIRECTION_DIAGONAL_MASK : Z := 4.
Definition DIRECTION_SOUTHWEST : Direction := 4.
Definition DIRECTION_SOUTHEAST : Direction := 5.
Definition DIRECTION_NORTHWEST : Direction := 6.
Definition DIRECTION_NORTHEAST : Direction := 7.

(** [ReturnValue]: creature.cpp only tells RETURNVALUE_NOERROR from a
    failure. *)
Inductive ReturnValue : Type :=
| RETURNVALUE_NOERROR
| RETURNVALUE_NOTPOSSIBLE
| RETURNVALUE_NOTENOUGHROOM
| RETURNVALUE_OTHER (code : Z).

Definition ReturnValue_is_error (r : ReturnValue) : bool :=
  match r with RETURNVALUE_NOERROR => false | _ => true end.

(** What [getMonster()] exposes to the step duration. *)
Record MonsterState : Type := mkMonsterState {
  isTargetNearby : bool;
  isFleeing : bool;
  hasMaster : bool
}.

(** The fields of [Creature] that walking reads and writes.  [stepSpeed]
    is what the virtual [getStepSpeed] returns, [ground] the speed of the
    item type of the ground of the creature's tile ([None]: the tile has
    no ground), [drunk] whether CONDITION_DRUNK is active.  The queue
    [listWalkDir] is a vector whose back is the end of the list. *)
Record Creature : Type := mkCreature {
  id : Z;
  isRemoved : bool;
  isPlayer : bool;
  monster : option MonsterState;
  stepSpeed : Z;
  ground : option Z;
  drunk : bool;
  drunkenness : Z;
  lastStep : Z;
  lastStepCost : Z;
  listWalkDir : list Direction;
  cancelNextWalk : bool;
  eventWalk : Z;
  forceUpdateFollowPath : bool
}.

Definition set_walk (c : Creature) (dirs : list Direction) (cancel : bool)
    (ev : Z) (force : bool) : Creature :=
  mkCreature (id c) (isRemoved c) (isPlayer c) (monster c) (stepSpeed c)
    (ground c) (drunk c) (drunkenness c) (lastStep c) (lastStepCost c)
    dirs cancel ev force.

Definition set_listWalkDir (c : Creature) (dirs : list Direction) :=
  set_walk c dirs (cancelNextWalk c) (eventWalk c) (forceUpdateFollowPath c).
Definition set_cancelNextWalk (c : Creature) (b : bool) :=
  set_walk c (listWalkDir c) b (eventWalk c) (forceUpdateFollowPath c).
Definition set_eventWalk (c : Creature) (ev : Z) :=
  set_walk c (listWalkDir c) (cancelNextWalk c) ev (forceUpdateFollowPath c).
Definition set_forceUpdateFollowPath (c : Creature) (b : bool) :=
  set_walk c (listWalkDir c) (cancelNextWalk c) (eventWalk c) b.

Inductive Event : Type :=
| EvSendCancelMessage (ret : ReturnValue)
| EvSendCancelWalk
| EvSay
| EvStopEvent (ev : Z)
| EvOnWalkComplete
| EvOnWalkAborted
| EvCheckCreatureWalk (creature : Z)
| EvSchedulerAddEvent (ticks : Z).

(** *** Creature::getStepDuration *)

(** The value of the speed curve before it is stored:
    [floor((speedA * log((stepSpeed / 2) + speedB) + speedC) + 0.5)],
    the division being the integer one.  The double arithmetic is read as
    exact real arithmetic. *)
Definition speedCurve (stepSpeed : Z) : Z :=
  Zfloor (speedA * ln (IZR (stepSpeed ÷ 2) + speedB) + speedC + 0.5)%R.

(** [calculatedStepSpeed], a uint32_t.  (C++ leaves the conversion of a
    negative double undefined; it is written as the wrap-around here and
    every statement below says when it relies on it.) *)
Definition calculatedStepSpeed (stepSpeed : Z) : Z :=
  if Rlt_dec (- speedB) (IZR stepSpeed) then
    let v := wrap_uint32 (speedCurve stepSpeed) in
    if v =? 0 then 1 else v
  else 1.

(** [groundSpeed], a uint32_t. *)
Definition groundSpeed (c : Creature) : Z :=
  match ground c with
  | Some speed => if speed =? 0 then 150 else speed
  | None => 150
  end.

(** [std::ceil(duration / 50) * 50] on a double holding a whole number. *)
Definition ceil50 (duration : Z) : Z := - ((- duration) / 50) * 50.

Definition getStepDuration (c : Creature) : Z :=
  if isRemoved c then 0
  else
    let duration :=
      wrap_uint32 (1000 * groundSpeed c) / calculatedStepSpeed (stepSpeed c) in
    let stepDuration := ceil50 duration in
    match monster c with
    | Some m =>
        if isTargetNearby m && negb (isFleeing m) && negb (hasMaster m)
        then stepDuration * 2 else stepDuration
    | None => stepDuration
    end.

(** Creature::getStepDuration(Direction) *)
Definition getStepDuration_dir (c : Creature) (dir : Direction) : Z :=
  if negb (Z.land dir DIRECTION_DIAGONAL_MASK =? 0)
  then getStepDuration c * 3 else getStepDuration c.

(** Creature::getWalkDelay(), the one used for auto-walking; [now] is
    [OTSYS_TIME()]. *)
Definition getWalkDelay (c : Creature) (now : Z) : Z :=
  if lastStep c =? 0 then 0
  else wrap_int32 (getStepDuration c * lastStepCost c - (now - lastStep c)).

(** Creature::getEventStepTicks *)
Definition getEventStepTicks (c : Creature) (now : Z) (onlyDelay : bool) : Z :=
  let ret := getWalkDelay c now in
  if ret <=? 0 then
    let stepDuration := getStepDuration c in
    if onlyDelay && (0 <? stepDuration) then 1
    else stepDuration * lastStepCost c
  else ret.

(** *** The walk queue *)

Section Walk.

(** The collaborators: the pseudo-random source, the game's move request
    (its result and the creature as the world's callbacks leave it), and
    the id the scheduler gives to a new event. *)
Variable uniform_random : Z -> Z -> Z.
Variable internalMoveCreature : Creature -> Direction -> ReturnValue * Creature.
Variable schedulerEventId : Z.

(** Creature::onWalk(Direction&) *)
Definition onWalk_dir (c : Creature) (dir : Direction)
  : Direction * list Event :=
  if negb (drunk c) then (dir, [])
  else
    let rand := wrap_uint16 (uniform_random 0 399) in
    if drunkenness c <? rand / 4 then (dir, [])
    else (rand mod 4, [EvSay]).

(** Creature::getNextStep: the direction, if the queue holds one, the
    creature with it popped from the back, and the notifications. *)
Definition getNextStep (c : Creature)
  : option Direction * Creature * list Event :=
  match last (listWalkDir c) with
  | None => (None, c, [])
  | Some d =>
      let c1 := set_listWalkDir c (removelast (listWalkDir c)) in
      let '(dir, evs) := onWalk_dir c1 d in
      (Some dir, c1, evs)
  end.

(** Creature::stopEventWalk *)
Definition stopEventWalk (c : Creature) : Creature * list Event :=
  if negb (eventWalk c =? 0)
  then (set_eventWalk c 0, [EvStopEvent (eventWalk c)])
  else (c, []).

(** Creature::addEventWalk.  The call back into the game for a first
    step taken right away is recorded as a notification and not followed:
    what the walk check then does to the creature is not part of the
    result. *)
Definition addEventWalk (c : Creature) (now : Z) (firstStep : bool)
  : Creature * list Event :=
  let c1 := set_cancelNextWalk c false in
  if stepSpeed c1 <=? 0 then (c1, [])
  else if negb (eventWalk c1 =? 0) then (c1, [])
  else
    let ticks := getEventStepTicks c1 now firstStep in
    if ticks <=? 0 then (c1, [])
    else
      (set_eventWalk c1 schedulerEventId,
       (if ticks =? 1 then [EvCheckCreatureWalk (id c1)] else [])
       ++ [EvSchedulerAddEvent ticks]).

(** Creature::onWalk() *)
Definition onWalk (c : Creature) (now : Z) : Creature * list Event :=
  let '(c1, evs1) :=
    if getWalkDelay c now <=? 0 then
      match getNextStep c with
      | (Some dir, c0, evs0) =>
          let '(ret, cm) := internalMoveCreature c0 dir in
          if ReturnValue_is_error ret then
            (set_forceUpdateFollowPath cm true,
             evs0 ++ (if isPlayer cm
                      then [EvSendCancelMessage ret; EvSendCancelWalk]
                      else []))
          else (cm, evs0)
      | (None, c0, evs0) =>
          let '(cs, evs) := stopEventWalk c0 in
          (cs, evs0 ++ evs
               ++ (match listWalkDir cs with
                   | [] => [EvOnWalkComplete]
                   | _ :: _ => []
                   end))
      end
    else (c, []) in
  let '(c2, evs2) :=
    if cancelNextWalk c1
    then (set_cancelNextWalk (set_listWalkDir c1 []) false, [EvOnWalkAborted])
    else (c1, []) in
  let '(c3, evs3) :=
    if negb (eventWalk c2 =? 0)
    then addEventWalk (set_eventWalk c2 0) now false
    else (c2, []) in
  (c3, evs1 ++ evs2 ++ evs3).

End Walk.

End Movement.

(** ** The local walk cache *)

Module WalkCache.

(** Modelled from the spec: [Position] of position.h, which is not among
    the sources: two uint16_t coordinates and the floor. *)
Record Position : Type := mkPosition {
  x : Z;
  y : Z;
  z : Z
}.

Definition Position_eqb (p q : Position) : bool :=
  (x p =? x q) && (y p =? y q) && (z p =? z q).

(** Modelled from the spec: the helpers [getOffsetX/Y] and
    [getDistanceX/Y] of position.h, which is not among the sources.  The
    offset is the signed difference of two coordinates (getWalkCache
    takes its absolute value); the distance is the number of tiles
    between them, never negative: the despawn sweep removes a summon
    that has drifted beyond 30 tiles, and a step is diagonal when both
    distances are at least 1. *)
Definition getOffsetX (p1 p2 : Position) : Z := x p1 - x p2.
Definition getOffsetY (p1 p2 : Position) : Z := y p1 - y p2.
Definition getDistanceX (p1 p2 : Position) : Z := Z.abs (getOffsetX p1 p2).
Definition getDistanceY (p1 p2 : Position) : Z := Z.abs (getOffsetY p1 p2).

(** [for (i = lo; i <= hi; ++i) body] and
    [for (i = hi; i >= lo; --i) body] on a state [S]. *)
Fixpoint for_steps {S : Type} (n : nat) (i step : Z) (body : Z -> S -> S)
    (s : S) : S :=
  match n with
  | O => s
  | Datatypes.S n' => for_steps n' (i + step) step body (body i s)
  end.

Definition for_up {S : Type} (lo hi : Z) (body : Z -> S -> S) (s : S) : S :=
  for_steps (Z.to_nat (hi - lo + 1)) lo 1 body s.

Definition for_down {S : Type} (hi lo : Z) (body : Z -> S -> S) (s : S) : S :=
  for_steps (Z.to_nat (hi - lo + 1)) hi (-1) body s.

(** The grid [bool localMapCache[mapWalkHeight][mapWalkWidth]], a list of
    rows.  Every access of the code is in range; a read out of range is
    [false] and a write out of range does nothing here. *)
Abbreviation Grid := (list (list bool)).

Definition grid_row (g : Grid) (r : Z) : list bool :=
  if r <? 0 then [] else default [] (g !! Z.to_nat r).

Definition grid_get (g : Grid) (r col : Z) : bool :=
  if col <? 0 then false else default false (grid_row g r !! Z.to_nat col).

Definition grid_set_row (g : Grid) (r : Z) (row : list bool) : Grid :=
  if r <? 0 then g else <[Z.to_nat r := row]> g.

Definition grid_set (g : Grid) (r col : Z) (b : bool) : Grid :=
  if col <? 0 then g
  else grid_set_row g r (<[Z.to_nat col := b]> (grid_row g r)).

Record Creature : Type := mkCreature {
  position : Position;
  useCacheMap : bool;
  isMapLoaded : bool;
  localMapCache : Grid
}.

Definition set_localMapCache (c : Creature) (g : Grid) : Creature :=
  mkCreature (position c) (useCacheMap c) (isMapLoaded c) g.

Definition set_position (c : Creature) (p : Position) : Creature :=
  mkCreature p (useCacheMap c) (isMapLoaded c) (localMapCache c).

Section Cache.

(** The radius of the cache, constants of creature.h, which is not
    among the sources. *)
Variable maxWalkCacheWidth : Z.
Variable maxWalkCacheHeight : Z.

(** Modelled from the spec: the size of the grid, constants of
    creature.h.  The cache is a fixed-radius grid around the creature:
    the code writes row [maxWalkCacheHeight + dy] for every
    [|dy| <= maxWalkCacheHeight] and calls the row at offset
    [maxWalkCacheHeight] the row [mapWalkHeight - 1]. *)
Definition mapWalkWidth : Z := 2 * maxWalkCacheWidth + 1.
Definition mapWalkHeight : Z := 2 * maxWalkCacheHeight + 1.

(** The world as the cache sees it: [tileWalkable x y z] says that
    [g_game.map.getTile(x, y, z)] is a tile and its [queryAdd] for this
    creature, with FLAG_PATHFINDING | FLAG_IGNOREFIELDDAMAGE, returns
    RETURNVALUE_NOERROR.  The coordinates are uint16_t. *)
Variable tileWalkable : Z -> Z -> Z -> bool.

Definition getTile_walkable (px py pz : Z) : bool :=
  tileWalkable (wrap_uint16 px) (wrap_uint16 py) pz.

(** Creature::updateTileCache(tile, dx, dy); [ok] is the value stored. *)
Definition updateTileCache_offset (g : Grid) (ok : bool) (dx dy : Z) : Grid :=
  if (Z.abs dx <=? maxWalkCacheWidth) && (Z.abs dy <=? maxWalkCacheHeight)
  then grid_set g (maxWalkCacheHeight + dy) (maxWalkCacheWidth + dx) ok
  else g.

(** Creature::updateTileCache(tile, pos) *)
Definition updateTileCache (myPos : Position) (g : Grid) (ok : bool)
    (pos : Position) : Grid :=
  if z pos =? z myPos
  then updateTileCache_offset g ok (getOffsetX pos myPos) (getOffsetY pos myPos)
  else g.

(** Creature::updateMapCache *)
Definition updateMapCache_grid (myPos : Position) (g : Grid) : Grid :=
  for_up (- maxWalkCacheHeight) maxWalkCacheHeight
    (fun dy g =>
       for_up (- maxWalkCacheWidth) maxWalkCacheWidth
         (fun dx g =>
            let pos := mkPosition (wrap_uint16 (x myPos + dx))
                                  (wrap_uint16 (y myPos + dy)) (z myPos) in
            updateTileCache myPos g (tileWalkable (x pos) (y pos) (z pos)) pos)
         g)
    g.

Definition updateMapCache (c : Creature) : Creature :=
  set_localMapCache c (updateMapCache_grid (position c) (localMapCache c)).

(** Creature::getWalkCache *)
Definition getWalkCache (c : Creature) (pos : Position) : Z :=
  if negb (useCacheMap c) then 2
  else
    let myPos := position c in
    if negb (z myPos =? z pos) then 0
    else if Position_eqb pos myPos then 1
    else
      let dx := getOffsetX pos myPos in
      let dy := getOffsetY pos myPos in
      if (Z.abs dx <=? maxWalkCacheWidth) && (Z.abs dy <=? maxWalkCacheHeight)
      then
        if grid_get (localMapCache c) (maxWalkCacheHeight + dy)
             (maxWalkCacheWidth + dx)
        then 1 else 0
      else 2.

(** The cache maintenance of Creature::onCreatureMove for the creature's
    own move, when the move is neither a teleport nor a floor change:
    [myPos] is the position after the move. *)
Definition shift_rows (myPos oldPos newPos : Position) (g : Grid) : Grid :=
  if y newPos <? y oldPos then
    (* north: shift y south, update row 0 *)
    let g1 :=
      for_down (mapWalkHeight - 2) 0
        (fun r g => grid_set_row g (r + 1) (grid_row g r)) g in
    for_up (- maxWalkCacheWidth) maxWalkCacheWidth
      (fun dx g =>
         updateTileCache_offset g
           (getTile_walkable (x myPos + dx) (y myPos - maxWalkCacheHeight)
              (z myPos))
           dx (- maxWalkCacheHeight))
      g1
  else if y oldPos <? y newPos then
    (* south: shift y north, update row mapWalkHeight - 1 *)
    let g1 :=
      for_up 0 (mapWalkHeight - 2)
        (fun r g => grid_set_row g r (grid_row g (r + 1))) g in
    for_up (- maxWalkCacheWidth) maxWalkCacheWidth
      (fun dx g =>
         updateTileCache_offset g
           (getTile_walkable (x myPos + dx) (y myPos + maxWalkCacheHeight)
              (z myPos))
           dx maxWalkCacheHeight)
      g1
  else g.

Definition shift_columns (myPos oldPos newPos : Position) (g : Grid) : Grid :=
  let dy := getDistanceY oldPos newPos in
  let endy := if dy <? 0 then mapWalkHeight - 1 + dy else mapWalkHeight - 1 in
  let starty := if dy <? 0 then 0 else if 0 <? dy then dy else 0 in
  if x oldPos <? x newPos then
    (* east: shift the columns west, update column mapWalkWidth - 1 *)
    let g1 :=
      for_up starty endy
        (fun r g =>
           for_up 0 (mapWalkWidth - 2)
             (fun col g => grid_set g r col (grid_get g r (col + 1))) g)
        g in
    for_up (- maxWalkCacheHeight) maxWalkCacheHeight
      (fun dy g =>
         updateTileCache_offset g
           (getTile_walkable (x myPos + maxWalkCacheWidth) (y myPos + dy)
              (z myPos))
           maxWalkCacheWidth dy)
      g1
  else if x newPos <? x oldPos then
    (* west: shift the columns east, update column 0 *)
    let g1 :=
      for_up starty endy
        (fun r g =>
           for_down (mapWalkWidth - 2) 0
             (fun col g => grid_set g r (col + 1) (grid_get g r col)) g)
        g in
    for_up (- maxWalkCacheHeight) maxWalkCacheHeight
      (fun dy g =>
         updateTileCache_offset g
           (getTile_walkable (x myPos - maxWalkCacheWidth) (y myPos + dy)
              (z myPos))
           (- maxWalkCacheWidth) dy)
      g1
  else g.

(** The "update map cache" block of Creature::onCreatureMove, in the
    branch where the moved creature is this one. *)
Definition onCreatureMove (c : Creature) (newPos oldPos : Position)
    (teleport : bool) : Creature :=
  if isMapLoaded c then
    if teleport || negb (z oldPos =? z newPos) then updateMapCache c
    else
      let myPos := position c in
      let g1 := shift_rows myPos oldPos newPos (localMapCache c) in
      let g2 := shift_columns myPos oldPos newPos g1 in
      set_localMapCache c
        (updateTileCache myPos g2
           (tileWalkable (x oldPos) (y oldPos) (z oldPos)) oldPos)
  else c.

(** The creature is put on its new tile and then told about the move,
    as the map does for a step ([teleport] is false). *)
Definition step (c : Creature) (newPos : Position) : Creature :=
  onCreatureMove (set_position c newPos) newPos (position c) false.

(** A walk is a sequence of steps. *)
Definition walk (c : Creature) (path : list Position) : Creature :=
  fold_left step path c.

(** The creature as it appears in the world at [pos]: the cache is built
    from scratch (Creature::onCreatureAppear). *)
Definition blank_grid : Grid :=
  replicate (Z.to_nat mapWalkHeight)
    (replicate (Z.to_nat mapWalkWidth) false).

Definition appear (pos : Position) : Creature :=
  updateMapCache (mkCreature pos true true blank_grid).

End Cache.

End WalkCache.

(** ** The master/summon graph *)

Module Ownership.

(** A creature as the graph sees it: its master, if any, and the list of
    its summons.  Creatures are shared objects; the world keeps them by
    identity, and two references are equal when they name the same
    creature. *)
Record Node : Type := mkNode {
  master : option Z;
  summons : list Z
}.

Global Instance Node_inhabited : Inhabited Node := populate (mkNode None []).

Abbreviation World := (gmap Z Node).

Definition getMaster (w : World) (self : Z) : option Z := master (w !!! self).
Definition getSummons (w : World) (self : Z) : list Z := summons (w !!! self).

(** [std::find] then [erase]: the first reference to [self] is taken
    out, if there is one. *)
Fixpoint erase_first (self : Z) (l : list Z) : list Z :=
  match l with
  | [] => []
  | s :: rest => if s =? self then rest else s :: erase_first self rest
  end.

(** Creature::setMaster *)
Definition setMaster (w : World) (self : Z) (newMaster : option Z)
  : bool * World :=
  match newMaster, getMaster w self with
  | None, None => (false, w)
  | _, _ =>
      let w1 :=
        match newMaster with
        | Some m =>
            <[m := mkNode (getMaster w m) (getSummons w m ++ [self])]> w
        | None => w
        end in
      let oldMaster := getMaster w1 self in
      let w2 := <[self := mkNode newMaster (getSummons w1 self)]> w1 in
      let w3 :=
        match oldMaster with
        | Some o =>
            <[o := mkNode (getMaster w2 o)
                     (erase_first self (getSummons w2 o))]> w2
        | None => w2
        end in
      (true, w3)
  end.

(** Creature::onGainExperience, as the list of the calls it makes: who
    is told and how much (a uint64_t).  The recursion follows the master
    references and is on the amount, which is halved at each call. *)
Equations? onGainExperience (w : World) (self : Z) (gainExp : N)
  : list (Z * N) by wf (N.to_nat gainExp) lt :=
onGainExperience w self gainExp with N.eq_dec gainExp 0%N := {
  | left _ => [(self, gainExp)]
  | right Hne with getMaster w self := {
      | None => [(self, gainExp)]
      | Some m => (self, gainExp) :: onGainExperience w m (gainExp / 2)%N
    }
  }.
Proof.
  assert (gainExp / 2 < gainExp)%N by (apply N.div_lt; lia). lia.
Qed.

End Ownership.

(** ** Rounds of combat: draining health and regaining blocks *)

Module CombatRounds.

Import Combat.

(** Creature::onAttackedCreatureDrainHealth, which the attacker runs: the
    points are credited to it in the ledger of [target]. *)
Definition onAttackedCreatureDrainHealth (target : Creature)
    (now attacker points : Z) : Creature :=
  addDamagePoints target now attacker points.

(** Creature::drainHealth; [attacker] is the id of the attacker, when
    there is one. *)
Definition drainHealth (c : Creature) (now : Z) (attacker : option Z)
    (damage : Z) : Creature * list Event :=
  let '(c1, evs) := changeHealth c (wrap_int32 (- damage)) false in
  match attacker with
  | Some a => (onAttackedCreatureDrainHealth c1 now a damage, evs)
  | None => (set_ledger c1 (damageMap c1) 0, evs)
  end.

(** The block regeneration of Creature::onThink: [blockTicks] and
    [blockCount] are uint32_t; the new creature and the new
    [blockTicks]. *)
Definition onThink_block (c : Creature) (blockTicks interval : Z)
  : Creature * Z :=
  let blockTicks1 := wrap_uint32 (blockTicks + interval) in
  if 1000 <=? blockTicks1
  then (set_blockCount c (Z.min (wrap_uint32 (blockCount c + 1)) 2), 0)
  else (c, blockTicks1).

End CombatRounds.

(** ** Taking a step: its cost, the start of a walk, the summons left
    behind *)

Module Steps.

Import WalkCache.

(** Modelled from the spec: [Position::getDistanceZ] of position.h, which
    is not among the sources: the number of floors between two
    positions, never negative (a summon is removed when it is more than 2
    floors away). *)
Definition getDistanceZ (p1 p2 : Position) : Z := Z.abs (z p1 - z p2).

Definition set_lastStep (c : Movement.Creature) (now cost : Z)
  : Movement.Creature :=
  Movement.mkCreature (Movement.id c) (Movement.isRemoved c)
    (Movement.isPlayer c) (Movement.monster c) (Movement.stepSpeed c)
    (Movement.ground c) (Movement.drunk c) (Movement.drunkenness c)
    now cost (Movement.listWalkDir c) (Movement.cancelNextWalk c)
    (Movement.eventWalk c) (Movement.forceUpdateFollowPath c).

(** The head of Creature::onCreatureMove in the branch where the moved
    creature is this one: the time stamp and the cost of the step, and
    the walk event, which a teleport stops.  [now] is [OTSYS_TIME()]. *)
Definition onCreatureMove_cost (c : Movement.Creature) (now : Z)
    (newPos oldPos : Position) (teleport : bool)
  : Movement.Creature * list Movement.Event :=
  let c1 := set_lastStep c now 1 in
  if negb teleport then
    if negb (z oldPos =? z newPos) then (set_lastStep c1 now 2, [])
    else if (1 <=? getDistanceX newPos oldPos)
            && (1 <=? getDistanceY newPos oldPos)
    then (set_lastStep c1 now 3, [])
    else (c1, [])
  else Movement.stopEventWalk c1.

(** The despawn sweep of Creature::onCreatureMove: the summons, each with
    its position, that are pushed to the front of [despawnList]; the
    game is then asked to remove them in the order of that list. *)
Definition despawnList (newPos : Position) (summons : list (Z * Position))
  : list Z :=
  fold_left
    (fun despawn summon =>
       let pos := snd summon in
       if (2 <? getDistanceZ newPos pos)
          || (30 <? Z.max (getDistanceX newPos pos) (getDistanceY newPos pos))
       then fst summon :: despawn
       else despawn)
    summons [].

Section AutoWalk.

Variable schedulerEventId : Z.

(** Creature::startAutoWalk(); [movementBlocked] is what
    [isMovementBlocked] answers for a player. *)
Definition startAutoWalk (c : Movement.Creature) (now : Z)
    (movementBlocked : bool) : Movement.Creature * list Movement.Event :=
  if Movement.isPlayer c && movementBlocked
  then (c, [Movement.EvSendCancelWalk])
  else
    Movement.addEventWalk schedulerEventId c now
      (Nat.eqb (length (Movement.listWalkDir c)) 1).

(** Creature::startAutoWalk(Direction) *)
Definition startAutoWalk_dir (c : Movement.Creature) (now : Z)
    (movementBlocked : bool) (direction : Movement.Direction)
  : Movement.Creature * list Movement.Event :=
  if Movement.isPlayer c && movementBlocked
  then (c, [Movement.EvSendCancelWalk])
  else
    Movement.addEventWalk schedulerEventId
      (Movement.set_listWalkDir c [direction]) now true.

(** Creature::startAutoWalk(const std::vector<Direction>&) *)
Definition startAutoWalk_list (c : Movement.Creature) (now : Z)
    (movementBlocked : bool) (listDir : list Movement.Direction)
  : Movement.Creature * list Movement.Event :=
  if Movement.isPlayer c && movementBlocked
  then (c, [Movement.EvSendCancelWalk])
  else
    Movement.addEventWalk schedulerEventId
      (Movement.set_listWalkDir c listDir) now
      (Nat.eqb (length listDir) 1).

End AutoWalk.

End Steps.

(** ** Sight and targets *)

Module Sight.

Import WalkCache.

(** Creature::canSee(myPos, pos, viewRangeX, viewRangeY), the static
    one.  The coordinates are uint16_t and the floor is uint8_t; the sums
    with the int32_t view range are int32_t sums, to which [offsetz], an
    int_fast32_t, is added. *)
Definition canSee (myPos pos : Position) (viewRangeX viewRangeY : Z) : bool :=
  if (if z myPos <=? 7 then 7 <? z pos
      else if 8 <=? z myPos
           then (z pos <? 8) || (2 <? Steps.getDistanceZ myPos pos)
           else false)
  then false
  else
    let offsetz := z myPos - z pos in
    (wrap_int32 (x myPos - viewRangeX) + offsetz <=? x pos)
    && (x pos <=? wrap_int32 (x myPos + viewRangeX) + offsetz)
    && (wrap_int32 (y myPos - viewRangeY) + offsetz <=? y pos)
    && (y pos <=? wrap_int32 (y myPos + viewRangeY) + offsetz).

(** Npc::canSee of npc.cpp *)
Definition Npc_canSee (myPos pos : Position) : bool :=
  if negb (z pos =? z myPos) then false else canSee myPos pos 3 3.

(** The fields of [Creature] that targeting reads and writes.  The
    attack target and the follow target are references to creatures,
    kept by id; [summons] are the ids of the summons. *)
Record Creature : Type := mkCreature {
  position : Position;
  attackedCreature : option Z;
  followCreature : option Z;
  summons : list Z;
  listWalkDir : list Z;
  hasFollowPath : bool;
  forceUpdateFollowPath : bool;
  isUpdatingPath : bool;
  isMonster : bool
}.

Definition set_attackedCreature (c : Creature) (t : option Z) : Creature :=
  mkCreature (position c) t (followCreature c) (summons c) (listWalkDir c)
    (hasFollowPath c) (forceUpdateFollowPath c) (isUpdatingPath c)
    (isMonster c).

Definition set_follow (c : Creature) (t : option Z) (dirs : list Z)
    (hasPath force updating : bool) : Creature :=
  mkCreature (position c) (attackedCreature c) t (summons c) dirs
    hasPath force updating (isMonster c).

(** The calls a creature makes on itself and on others while its
    targets change: the virtual hooks and the order passed on to a
    summon. *)
Inductive Event : Type :=
| EvOnAttackedCreature (target : Z)
| EvTargetOnAttacked (target : Z)
| EvSummonSetAttackedCreature (summon : Z) (target : option Z)
| EvOnAttackedCreatureDisappear (isLogout : bool)
| EvOnFollowCreatureDisappear (isLogout : bool)
| EvOnWalkAborted
| EvOnFollowCreature (target : option Z).

(** Creature::canSee(pos), the member function of the base class.
    [maxViewportX] and [maxViewportY] are [Map::maxViewportX] and
    [Map::maxViewportY], constants of map.h, which is not among the
    sources. *)
Definition Creature_canSee (maxViewportX maxViewportY : Z) (c : Creature)
    (pos : Position) : bool :=
  canSee (position c) pos maxViewportX maxViewportY.

Section Targets.

(** [canSee(pos)] as the class of the creature answers it: the member
    function is Creature::canSee(pos) above unless the class has its own,
    as Npc has with Npc::canSee. *)
Variable canSee_pos : Creature -> Position -> bool.

(** Creature::setAttackedCreature; [creature] is the id of the target
    and its position, [None] for a null pointer.  The order each summon
    is given is recorded, not followed into the summon. *)
Definition setAttackedCreature (c : Creature)
    (creature : option (Z * Position)) : bool * Creature * list Event :=
  let tell_summons (c : Creature) :=
    map (fun s => EvSummonSetAttackedCreature s (option_map fst creature))
      (summons c) in
  match creature with
  | Some (target, creaturePos) =>
      if negb (z creaturePos =? z (position c))
         || negb (canSee_pos c creaturePos)
      then (false, set_attackedCreature c None, [])
      else
        let c1 := set_attackedCreature c (Some target) in
        (true, c1,
         [EvOnAttackedCreature target; EvTargetOnAttacked target]
         ++ tell_summons c1)
  | None =>
      let c1 := set_attackedCreature c None in
      (true, c1, tell_summons c1)
  end.

(** Creature::goToFollowCreature, which plans the path to the follow
    target with the path search of the map and starts the walk: what it
    makes of the creature and the calls it makes. *)
Variable goToFollowCreature : Creature -> Creature * list Event.

(** Creature::setFollowCreature *)
Definition setFollowCreature (c : Creature)
    (creature : option (Z * Position)) : bool * Creature * list Event :=
  match creature with
  | Some (target, creaturePos) =>
      if match followCreature c with
         | Some f => f =? target
         | None => false
         end
      then (true, c, [])
      else if negb (z creaturePos =? z (position c))
              || negb (canSee_pos c creaturePos)
      then
        (false,
         set_follow c None (listWalkDir c) (hasFollowPath c)
           (forceUpdateFollowPath c) (isUpdatingPath c),
         [])
      else
        let '(dirs, evs1) :=
          match listWalkDir c with
          | [] => ([], [])
          | _ :: _ => ([], [EvOnWalkAborted])
          end in
        if isMonster c
        then
          let '(c1, evs2) :=
            goToFollowCreature
              (set_follow c (Some target) dirs false false false) in
          (true, c1, evs1 ++ evs2 ++ [EvOnFollowCreature (Some target)])
        else
          (true, set_follow c (Some target) dirs false false true,
           evs1 ++ [EvOnFollowCreature (Some target)])
  | None =>
      (true,
       set_follow c None (listWalkDir c) (hasFollowPath c)
         (forceUpdateFollowPath c) false,
       [EvOnFollowCreature None])
  end.

(** Creature::onCreatureDisappear *)
Definition onCreatureDisappear (c : Creature) (creature : Z)
    (isLogout : bool) : Creature * list Event :=
  let '(c1, evs1) :=
    if match attackedCreature c with
       | Some a => a =? creature
       | None => false
       end
    then
      let '(_, c1, evs) := setAttackedCreature c None in
      (c1, evs ++ [EvOnAttackedCreatureDisappear isLogout])
    else (c, []) in
  let '(c2, evs2) :=
    if match followCreature c1 with
       | Some f => f =? creature
       | None => false
       end
    then
      let '(_, c2, evs) := setFollowCreature c1 None in
      (c2, evs ++ [EvOnFollowCreatureDisappear isLogout])
    else (c1, []) in
  (c2, evs1 ++ evs2).

End Targets.

End Sight.

(** ** The walk cache and the changes of the world around it *)

Module TileEvents.

Import WalkCache.

(** The three flags of [ItemType] the handlers read. *)
Record ItemType : Type := mkItemType {
  blockSolid : bool;
  blockPathFind : bool;
  isGroundTile : bool
}.

Section Handlers.

Variable maxWalkCacheWidth : Z.
Variable maxWalkCacheHeight : Z.

(** In each handler [ok] says that [queryAdd] of the tile that is passed
    returns RETURNVALUE_NOERROR for this creature, which is what
    updateTileCache stores. *)
Definition refresh (c : Creature) (ok : bool) (pos : Position) : Creature :=
  set_localMapCache c
    (updateTileCache maxWalkCacheWidth maxWalkCacheHeight (position c)
       (localMapCache c) ok pos).

(** Creature::onAddTileItem *)
Definition onAddTileItem (c : Creature) (ok : bool) (pos : Position)
  : Creature :=
  if isMapLoaded c && (z pos =? z (position c)) then refresh c ok pos else c.

(** Creature::onUpdateTileItem *)
Definition onUpdateTileItem (c : Creature) (ok : bool) (pos : Position)
    (oldType newType : ItemType) : Creature :=
  if negb (isMapLoaded c) then c
  else if blockSolid oldType || blockPathFind oldType
          || blockPathFind newType || blockSolid newType
  then if z pos =? z (position c) then refresh c ok pos else c
  else c.

(** Creature::onRemoveTileItem *)
Definition onRemoveTileItem (c : Creature) (ok : bool) (pos : Position)
    (iType : ItemType) : Creature :=
  if negb (isMapLoaded c) then c
  else if blockSolid iType || blockPathFind iType || isGroundTile iType
  then if z pos =? z (position c) then refresh c ok pos else c
  else c.

(** The cache maintenance of Creature::onCreatureAppear and of
    Creature::onRemoveCreature when the creature that appears or is
    removed, at [pos], is another one. *)
Definition onCreatureAppear_other (c : Creature) (ok : bool) (pos : Position)
  : Creature :=
  if isMapLoaded c
  then if z pos =? z (position c) then refresh c ok pos else c
  else c.

(** The cache maintenance of Creature::onCreatureMove in the branch where
    the moved creature is another one. *)
Definition onCreatureMove_other (c : Creature) (okNew : bool)
    (newPos : Position) (okOld : bool) (oldPos : Position) : Creature :=
  if isMapLoaded c then
    let c1 :=
      if z newPos =? z (position c) then refresh c okNew newPos else c in
    if z oldPos =? z (position c1) then refresh c1 okOld oldPos else c1
  else c.

End Handlers.

End TileEvents.

(** ** Conditions *)

Module Conditions.

(** A condition as creature.cpp sees it: the object itself ([handle]
    stands for the pointer), and what [getType], [getId], [getSubId],
    [getEndTime] and [getTicks] answer. *)
Record Condition : Type := mkCondition {
  handle : Z;
  condType : Z;
  condId : Z;
  subId : Z;
  endTime : Z;
  ticks : Z
}.

(** What a removal leaves behind outside the list: the two hooks run for
    a condition that is taken out (it is deleted after them), and the
    task handed to the scheduler when a removal is put off. *)
Inductive Event : Type :=
| EvEndCondition (handle : Z)
| EvOnEndCondition (type : Z)
| EvSchedulerForceRemoveCondition (delay : Z) (type : Z).

Section Engine.

(** The values of [ConditionType_t] in enums.h, which is not among the
    sources. *)
Variable CONDITION_HASTE : Z.
Variable CONDITION_PARALYZE : Z.
Variable CONDITION_INVISIBLE : Z.

(** What the virtual [getConditionSuppressions] returns. *)
Variable conditionSuppressions : Z.

(** [getWalkDelay()] of the creature when these are its conditions (the
    end of a condition may change the speed). *)
Variable getWalkDelay : list Condition -> Z.

(** Creature::isSuppress *)
Definition isSuppress (type : Z) : bool :=
  hasBitSet (wrap_uint32 type) conditionSuppressions.

(** Creature::hasCondition; [timeNow] is [OTSYS_TIME()]. *)
Definition hasCondition (conditions : list Condition) (timeNow : Z)
    (type : Z) (sub : Z) : bool :=
  if isSuppress type then false
  else
    existsb
      (fun condition =>
         if negb (condType condition =? type) || negb (subId condition =? sub)
         then false
         else (timeNow <=? endTime condition) || (ticks condition =? -1))
      conditions.

(** Creature::getCondition(type) *)
Definition getCondition (conditions : list Condition) (type : Z)
  : option Condition :=
  List.find (fun condition => condType condition =? type) conditions.

(** Creature::getCondition(type, conditionId, subId) *)
Definition getCondition_id (conditions : list Condition)
    (type conditionId sub : Z) : option Condition :=
  List.find
    (fun condition =>
       (condType condition =? type) && (condId condition =? conditionId)
       && (subId condition =? sub))
    conditions.

(** Creature::isInvisible *)
Definition isInvisible (conditions : list Condition) : bool :=
  match List.find (fun condition => condType condition =? CONDITION_INVISIBLE)
          conditions with
  | Some _ => true
  | None => false
  end.

(** The loop of Creature::removeCondition(type, force): [kept] are the
    conditions the iterator has passed, [todo] the ones from the iterator
    on; the list of the creature is [kept ++ todo]. *)
Fixpoint removeCondition_loop (type : Z) (force : bool)
    (kept todo : list Condition) : list Condition * list Event :=
  match todo with
  | [] => (kept, [])
  | condition :: rest =>
      if negb (condType condition =? type)
      then removeCondition_loop type force (kept ++ [condition]) rest
      else if negb force && (type =? CONDITION_PARALYZE)
              && (0 <? getWalkDelay (kept ++ todo))
      then
        (kept ++ todo,
         [EvSchedulerForceRemoveCondition (getWalkDelay (kept ++ todo)) type])
      else
        let '(conditions, evs) := removeCondition_loop type force kept rest in
        (conditions,
         EvEndCondition (handle condition) :: EvOnEndCondition type :: evs)
  end.

(** Creature::removeCondition(type, force) *)
Definition removeCondition (conditions : list Condition) (type : Z)
    (force : bool) : list Condition * list Event :=
  removeCondition_loop type force [] conditions.

(** Creature::onAddCondition *)
Definition onAddCondition (conditions : list Condition) (timeNow : Z)
    (type : Z) : list Condition * list Event :=
  if (type =? CONDITION_PARALYZE)
     && hasCondition conditions timeNow CONDITION_HASTE 0
  then removeCondition conditions CONDITION_HASTE false
  else if (type =? CONDITION_HASTE)
          && hasCondition conditions timeNow CONDITION_PARALYZE 0
  then removeCondition conditions CONDITION_PARALYZE false
  else (conditions, []).

End Engine.

End Conditions.

(** ** Custom skills *)

Module Skills.

Section Registry.

(** A [std::shared_ptr<CustomSkill>]; the class is not among the
    sources, and the registries only store the reference. *)
Variable CustomSkill : Type.

(** [SkillRegistry], a hash map from the name of a skill to the
    skill. *)
Definition SkillRegistry : Type := gmap string CustomSkill.

(** Creature::giveCustomSkill(name, new_skill): [try_emplace] inserts
    only when the key is new, and says whether it did. *)
Definition giveCustomSkill (c_skills : gmap string CustomSkill)
    (name : string) (new_skill : CustomSkill)
  : bool * gmap string CustomSkill :=
  match c_skills !! name with
  | Some _ => (false, c_skills)
  | None => (true, <[name := new_skill]> c_skills)
  end.

(** Creature::removeCustomSkill: [erase(name) > 0]. *)
Definition removeCustomSkill (c_skills : gmap string CustomSkill)
    (name : string) : bool * gmap string CustomSkill :=
  (match c_skills !! name with Some _ => true | None => false end,
   delete name c_skills).

(** Creature::getCustomSkill; [None] is the null pointer. *)
Definition getCustomSkill (c_skills : gmap string CustomSkill)
    (name : string) : option CustomSkill :=
  c_skills !! name.

(** Npcs::addNpcSkill of npc.cpp: [npc_skills[npc_name]] makes an empty
    registry for a name that has none. *)
Definition addNpcSkill (npc_skills : gmap string (gmap string CustomSkill))
    (npc_name skill_name : string) (skill : CustomSkill)
  : bool * gmap string (gmap string CustomSkill) :=
  let skillMap := default ∅ (npc_skills !! npc_name) in
  match skillMap !! skill_name with
  | Some _ => (false, <[npc_name := skillMap]> npc_skills)
  | None =>
      (true, <[npc_name := <[skill_name := skill]> skillMap]> npc_skills)
  end.

(** Npcs::getNpcSkill of npc.cpp; [None] is [std::nullopt]. *)
Definition getNpcSkill (npc_skills : gmap string (gmap string CustomSkill))
    (skill_name npc_name : string) : option CustomSkill :=
  match npc_skills !! npc_name with
  | Some skills => skills !! skill_name
  | None => None
  end.

(** Npcs::getRegisteredSkills of npc.cpp *)
Definition getRegisteredSkills
    (npc_skills : gmap string (gmap string CustomSkill)) (npc_name : string)
  : gmap string CustomSkill :=
  match npc_skills !! npc_name with
  | Some skills => skills
  | None => ∅
  end.

End Registry.

End Skills.

(** ** Script events *)

Module ScriptEvents.

(** The fields of [Creature] the registration reads and writes: the
    bit field of the registered event types, a uint32_t, and the list of
    the registered events.  An event is a shared object; it is kept by
    identity. *)
Record Creature : Type := mkCreature {
  scriptEventsBitField : Z;
  eventsList : list Z
}.

Section Registration.

(** [g_creatureEvents->getEventByName], and what [getEventType] and
    [isLoaded] answer for an event. *)
Variable getEventByName : string -> option Z.
Variable getEventType : Z -> Z.
Variable isLoaded : Z -> bool.

(** [hasEventRegistered] of creature.h, which is not among the
    sources, on the bit field. *)
Variable hasEventRegistered : Z -> Z -> bool.

(** Creature::registerCreatureEvent *)
Definition registerCreatureEvent (c : Creature) (name : string)
  : bool * Creature :=
  match getEventByName name with
  | None => (false, c)
  | Some event =>
      let type := getEventType event in
      if hasEventRegistered (scriptEventsBitField c) type then
        if existsb (fun creatureEvent => creatureEvent =? event)
             (eventsList c)
        then (false, c)
        else (true, mkCreature (scriptEventsBitField c)
                      (eventsList c ++ [event]))
      else
        (true,
         mkCreature
           (wrap_uint32
              (Z.lor (scriptEventsBitField c) (wrap_uint32 (Z.shiftl 1 type))))
           (eventsList c ++ [event]))
  end.

(** Creature::unregisterCreatureEvent *)
Definition unregisterCreatureEvent (c : Creature) (name : string)
  : bool * Creature :=
  match getEventByName name with
  | None => (false, c)
  | Some event =>
      let type := getEventType event in
      if negb (hasEventRegistered (scriptEventsBitField c) type)
      then (false, c)
      else
        let '(events, resetTypeBit) :=
          fold_left
            (fun '(events, resetTypeBit) curEvent =>
               if curEvent =? event then (events, resetTypeBit)
               else if getEventType curEvent =? type
               then (events ++ [curEvent], false)
               else (events ++ [curEvent], resetTypeBit))
            (eventsList c) ([], true) in
        (true,
         mkCreature
           (if resetTypeBit
            then wrap_uint32
                   (Z.land (scriptEventsBitField c)
                      (wrap_uint32 (Z.lnot (wrap_uint32 (Z.shiftl 1 type)))))
            else scriptEventsBitField c)
           events)
  end.

(** Creature::getCreatureEvents *)
Definition getCreatureEvents (c : Creature) (type : Z) : list Z :=
  if negb (hasEventRegistered (scriptEventsBitField c) type) then []
  else
    List.filter
      (fun creatureEvent =>
         isLoaded creatureEvent && (getEventType creatureEvent =? type))
      (eventsList c).

End Registration.

End ScriptEvents.

(** ** The condition a path search is given *)

Module Pathing.

Import WalkCache.

(** [FindPathParams], with the fields creature.cpp sets and reads; the
    distances are int32_t. *)
Record FindPathParams : Type := mkFindPathParams {
  fullPathSearch : bool;
  clearSight : bool;
  maxSearchDist : Z;
  minTargetDist : Z;
  maxTargetDist : Z
}.

(** Creature::getPathSearchParams *)
Definition getPathSearchParams (hasFollowPath : bool) : FindPathParams :=
  mkFindPathParams (negb hasFollowPath) true 12 1 1.

(** FrozenPathingConditionCall::isInRange.  The coordinates are
    uint16_t; their sums with an int32_t distance are int32_t sums. *)
Definition isInRange (targetPos startPos testPos : Position)
    (fpp : FindPathParams) : bool :=
  if fullPathSearch fpp then
    if wrap_int32 (x targetPos + maxTargetDist fpp) <? x testPos then false
    else if x testPos <? wrap_int32 (x targetPos - maxTargetDist fpp)
    then false
    else if wrap_int32 (y targetPos + maxTargetDist fpp) <? y testPos
    then false
    else if y testPos <? wrap_int32 (y targetPos - maxTargetDist fpp)
    then false
    else true
  else
    let dx := getOffsetX startPos targetPos in
    let dxMax := if 0 <=? dx then maxTargetDist fpp else 0 in
    if wrap_int32 (x targetPos + dxMax) <? x testPos then false
    else
      let dxMin := if dx <=? 0 then maxTargetDist fpp else 0 in
      if x testPos <? wrap_int32 (x targetPos - dxMin) then false
      else
        let dy := getOffsetY startPos targetPos in
        let dyMax := if 0 <=? dy then maxTargetDist fpp else 0 in
        if wrap_int32 (y targetPos + dyMax) <? y testPos then false
        else
          let dyMin := if dy <=? 0 then maxTargetDist fpp else 0 in
          if y testPos <? wrap_int32 (y targetPos - dyMin) then false
          else true.

Section Call.

(** [g_game.isSightClear(fromPos, toPos, true)] *)
Variable isSightClear : Position -> Position -> bool.

(** FrozenPathingConditionCall::operator(): the answer and
    [bestMatchDist] as the call leaves it. *)
Definition call (targetPos startPos testPos : Position)
    (fpp : FindPathParams) (bestMatchDist : Z) : bool * Z :=
  if negb (isInRange targetPos startPos testPos fpp)
  then (false, bestMatchDist)
  else if clearSight fpp && negb (isSightClear testPos targetPos)
  then (false, bestMatchDist)
  else
    let testDist :=
      Z.max (getDistanceX targetPos testPos) (getDistanceY targetPos testPos) in
    if maxTargetDist fpp =? 1 then
      if (testDist <? minTargetDist fpp) || (maxTargetDist fpp <? testDist)
      then (false, bestMatchDist)
      else (true, bestMatchDist)
    else if testDist <=? maxTargetDist fpp then
      if testDist <? minTargetDist fpp then (false, bestMatchDist)
      else if testDist =? maxTargetDist fpp then (true, 0)
      else if bestMatchDist <? testDist then (true, testDist)
      else (false, bestMatchDist)
    else (false, bestMatchDist).

End Call.

End Pathing.

(** * Reference formulations

    What the specification says in its own words, where that is compared
    with the code, and the vocabulary of the statements below. *)

(** The ledger with every time stamp rewritten by [f]. *)
Definition restamp_ledger (f : Z -> Z) (m : list (Z * Combat.CountBlock_t))
  : list (Z * Combat.CountBlock_t) :=
  map (fun e => (fst e, Combat.mkCountBlock (Combat.total (snd e))
                          (f (Combat.ticks (snd e))))) m.

Definition restamp (f : Z -> Z) (c : Combat.Creature) : Combat.Creature :=
  Combat.set_ledger c (restamp_ledger f (Combat.damageMap c))
    (Combat.lastHitCreatureId c).

(** The damage ratio as the specification words it: only the entries
    whose last hit lies within the combat-lock window count. *)
Definition getDamageRatio_windowed (inFightTicks : Z) (c : Combat.Creature)
    (now attacker : Z) : Q :=
  Combat.getDamageRatio
    (Combat.set_ledger c
       (filter (fun e => Combat.inFight inFightTicks now (snd e))
          (Combat.damageMap c))
       (Combat.lastHitCreatureId c))
    attacker.

(** The loop of onDeath only ever names, as the creature with the most
    damage, the owner of an entry within the window. *)
Definition mostDamage_inFight (inFightTicks : Z)
    (m : list (Z * Combat.CountBlock_t)) (now : Z) (st : Combat.DeathScan)
  : Prop :=
  forall k, Combat.mostDamageCreature st = Some k ->
    exists cb, In (k, cb) m /\ now - Combat.ticks cb <= inFightTicks
               /\ Combat.total cb = Combat.mostDamage st.

(** The step duration as the specification words it:
    ceil(floor(1000 * groundFriction / effectiveSpeed) / 50) * 50 with
    effectiveSpeed = max(1, floor(A ln(speed / 2 + B) + C + 0.5)). *)
Definition effectiveSpeed_claimed (stepSpeed : Z) : Z :=
  Z.max 1 (Movement.speedCurve stepSpeed).

Definition getStepDuration_claimed (c : Movement.Creature) : Z :=
  Movement.ceil50
    (1000 * Movement.groundSpeed c
     / effectiveSpeed_claimed (Movement.stepSpeed c)).

(** The sum of the amounts handed out along a chain of calls. *)
Definition total_awarded (calls : list (Z * N)) : N :=
  fold_right (fun call acc => (snd call + acc)%N) 0%N calls.

(** Every call but the first goes to the master of the creature of the
    call before it, with half its amount, rounded down; and a call is only
    followed by another when its amount is not 0. *)
Fixpoint halving_chain (w : gmap Z Ownership.Node) (calls : list (Z * N))
  : Prop :=
  match calls with
  | (c, e) :: (((m, e') :: _) as rest) =>
      Ownership.getMaster w c = Some m /\ e' = (e / 2)%N /\ e <> 0%N
      /\ halving_chain w rest
  | _ => True
  end.

(** The grid of a cache of radius [W] by [H] has the declared number of
    rows and columns. *)
Definition grid_wf (W H : Z) (g : list (list bool)) : Prop :=
  length g = Z.to_nat (WalkCache.mapWalkHeight H)
  /\ Forall (fun row => length row = Z.to_nat (WalkCache.mapWalkWidth W)) g.

Definition in_grid (W H r c : Z) : Prop :=
  0 <= r < WalkCache.mapWalkHeight H /\ 0 <= c < WalkCache.mapWalkWidth W.

(** A grid and the function that describes its cells. *)
Definition cells_eq (W H : Z) (g : list (list bool)) (f : Z -> Z -> bool)
  : Prop :=
  grid_wf W H g
  /\ forall r c, in_grid W H r c -> WalkCache.grid_get g r c = f r c.

(** The creature is far enough from the edge of the map for the
    coordinates around it to be uint16_t values. *)
Definition inside_map (W H : Z) (p : WalkCache.Position) : Prop :=
  W <= WalkCache.x p /\ WalkCache.x p + W < 65536
  /\ H <= WalkCache.y p /\ WalkCache.y p + H < 65536.

(** What a cache around [p] should hold: the cell in row [r] and column
    [c] stands for the tile at offset [(c - W, r - H)]. *)
Definition view (W H : Z) (tw : Z -> Z -> Z -> bool) (p : WalkCache.Position)
    (r c : Z) : bool :=
  tw (WalkCache.x p + c - W) (WalkCache.y p + r - H) (WalkCache.z p).

(** A step to a neighbouring tile of the same floor that is not a
    diagonal step to the south. *)
Definition sound_step (old new : WalkCache.Position) : Prop :=
  WalkCache.z new = WalkCache.z old
  /\ Z.abs (WalkCache.x new - WalkCache.x old) <= 1
  /\ Z.abs (WalkCache.y new - WalkCache.y old) <= 1
  /\ (WalkCache.y new <= WalkCache.y old \/ WalkCache.x new = WalkCache.x old).

(** A path all of whose steps are sound and stay inside the map. *)
Fixpoint sound_path (W H : Z) (from : WalkCache.Position)
    (path : list WalkCache.Position) : Prop :=
  match path with
  | [] => True
  | next :: rest =>
      sound_step from next /\ inside_map W H next /\ sound_path W H next rest
  end.

(** A walk through a world that changes: every step comes with the
    world as it answers once the step is taken. *)
Definition walk_through (W H : Z) (c : WalkCache.Creature)
    (path : list (WalkCache.Position * (Z -> Z -> Z -> bool)))
  : WalkCache.Creature :=
  fold_left (fun c s => WalkCache.step W H (snd s) c (fst s)) path c.

(** What happens to a creature in combat, one call after the other: it
    thinks, or it is hit. *)
Inductive CombatAction : Type :=
| Think (interval : Z)
| Hit (attacker : option Combat.Attacker) (combatType : Combat.CombatType_t)
      (damage : Z) (checkDefense checkArmor : bool).

Definition combat_act (uniform_random : Z -> Z -> Z)
    (s : Combat.Creature * Z) (a : CombatAction)
  : (Combat.Creature * Z) * list Combat.Event :=
  match a with
  | Think interval =>
      (CombatRounds.onThink_block (fst s) (snd s) interval, [])
  | Hit attacker combatType damage checkDefense checkArmor =>
      let r := Combat.blockHit uniform_random (fst s) attacker combatType
                 damage checkDefense checkArmor in
      ((Combat.creatureOut r, snd s), Combat.events r)
  end.

Fixpoint combat_run (uniform_random : Z -> Z -> Z)
    (s : Combat.Creature * Z) (l : list CombatAction)
  : (Combat.Creature * Z) * list Combat.Event :=
  match l with
  | [] => (s, [])
  | a :: rest =>
      let '(s1, evs1) := combat_act uniform_random s a in
      let '(s2, evs2) := combat_run uniform_random s1 rest in
      (s2, evs1 ++ evs2)
  end.

Definition is_onBlockHit (e : Combat.Event) : bool :=
  match e with Combat.EvOnBlockHit => true | _ => false end.

Definition is_think (a : CombatAction) : bool :=
  match a with Think _ => true | _ => false end.

Definition count_onBlockHit (evs : list Combat.Event) : Z :=
  Z.of_nat (length (List.filter is_onBlockHit evs)).

Definition count_thinks (l : list CombatAction) : Z :=
  Z.of_nat (length (List.filter is_think l)).

(** The hits a creature takes: when, from whom, how many points. *)
Record DamageHit : Type := mkDamageHit {
  hitTime : Z;
  hitAttacker : Z;
  hitPoints : Z
}.

Definition take_hits (c : Combat.Creature) (hits : list DamageHit)
  : Combat.Creature :=
  fold_left
    (fun c h => Combat.addDamagePoints c (hitTime h) (hitAttacker h)
                  (hitPoints h))
    hits c.

(** The hits that count for attacker [k]: its own, with a positive
    amount. *)
Definition counted (k : Z) (h : DamageHit) : bool :=
  (hitAttacker h =? k) && (0 <? hitPoints h).

Definition credited (hits : list DamageHit) (k : Z) : Z :=
  fold_right (fun h acc => hitPoints h + acc) 0
    (List.filter (counted k) hits).

(** The creature the experience for the attacker [k] goes to: the
    leader of its party when there is one that shares, [k] itself
    otherwise. *)
Definition awardee (partyLeader : Z -> option Z) (k : Z) : Z :=
  default k (partyLeader k).

(** The experience gained by the attackers of the ledger entries [l]
    that goes to [k], in the order of the ledger: an attacker counts when
    it still exists and is not the victim itself. *)
Definition awards (creatureExists : Z -> bool) (partyLeader : Z -> option Z)
    (c : Combat.Creature) (l : list (Z * Combat.CountBlock_t)) (k : Z)
  : list Z :=
  map (fun e => Combat.getGainedExperience c (fst e))
    (List.filter
       (fun e => creatureExists (fst e) && negb (fst e =? Combat.id c)
                 && (awardee partyLeader (fst e) =? k))
       l).

(** [experienceMap.find(k)] *)
Definition experienceMap_find (m : list (Z * Z)) (k : Z) : option Z :=
  option_map snd (List.find (fun e => fst e =? k) m).

(** What an entry of the experience map becomes when the gains [gs] are
    added to it one after the other. *)
Definition add_gains (v : option Z) (gs : list Z) : option Z :=
  fold_left
    (fun acc e => Some (match acc with
                        | Some v => wrap_uint64 (v + e)
                        | None => e
                        end))
    gs v.

(** The random source draws within the range it is given. *)
Definition fair_random (rnd : Z -> Z -> Z) : Prop :=
  forall lo hi, lo <= hi -> lo <= rnd lo hi <= hi.

(** The block count and the block ticks as onThink and blockHit keep
    them. *)
Definition block_state_ok (s : Combat.Creature * Z) : Prop :=
  0 <= Combat.blockCount (fst s) <= 2 /\ 0 <= snd s < 1000.

(** The cumulative total of [k] in the ledger of [c], 0 when it has no
    entry. *)
Definition entry_total (c : Combat.Creature) (k : Z) : Z :=
  Combat.total
    (default (Combat.mkCountBlock 0 0)
       (Combat.ledger_find (Combat.damageMap c) k)).

(** The directions successive calls of getNextStep hand out, at most [n]
    of them, and the creature they leave. *)
Fixpoint next_steps (uniform_random : Z -> Z -> Z) (n : nat)
    (c : Movement.Creature) : list Movement.Direction * Movement.Creature :=
  match n with
  | O => ([], c)
  | S n' =>
      match Movement.getNextStep uniform_random c with
      | (Some dir, c1, _) =>
          let '(dirs, c2) := next_steps uniform_random n' c1 in
          (dir :: dirs, c2)
      | (None, c1, _) => ([], c1)
      end
  end.

(** The creature with another speed. *)
Definition with_stepSpeed (c : Movement.Creature) (speed : Z)
  : Movement.Creature :=
  Movement.mkCreature (Movement.id c) (Movement.isRemoved c)
    (Movement.isPlayer c) (Movement.monster c) speed
    (Movement.ground c) (Movement.drunk c) (Movement.drunkenness c)
    (Movement.lastStep c) (Movement.lastStepCost c) (Movement.listWalkDir c)
    (Movement.cancelNextWalk c) (Movement.eventWalk c)
    (Movement.forceUpdateFollowPath c).

(** What a step costs: 2 for a change of floor, 3 for a diagonal step,
    1 for any other. *)
Definition step_cost (newPos oldPos : WalkCache.Position) : Z :=
  if negb (WalkCache.z oldPos =? WalkCache.z newPos) then 2
  else if negb (WalkCache.x newPos =? WalkCache.x oldPos)
          && negb (WalkCache.y newPos =? WalkCache.y oldPos) then 3
  else 1.

(** A summon at [pos] is too far from its master at [newPos]: more than
    2 floors, or more than 30 tiles along an axis. *)
Definition too_far (newPos pos : WalkCache.Position) : bool :=
  (2 <? Z.abs (WalkCache.z newPos - WalkCache.z pos))
  || (30 <? Z.abs (WalkCache.x newPos - WalkCache.x pos))
  || (30 <? Z.abs (WalkCache.y newPos - WalkCache.y pos)).

(** A position of the map: uint16_t coordinates and a uint8_t floor. *)
Definition Position_valid (p : WalkCache.Position) : Prop :=
  0 <= WalkCache.x p < 65536 /\ 0 <= WalkCache.y p < 65536
  /\ 0 <= WalkCache.z p < 256.

(** A view range the sums of canSee cannot overflow with. *)
Definition view_range_ok (r : Z) : Prop := 0 <= r <= 2 ^ 31 - 65536.

(** Two worlds that differ at most at the tiles of [changed]. *)
Definition same_but_at (tw tw' : Z -> Z -> Z -> bool)
    (changed : list WalkCache.Position) : Prop :=
  forall x y z,
    (forall p, In p changed -> p <> WalkCache.mkPosition x y z) ->
    tw' x y z = tw x y z.

Definition tile_at (tw : Z -> Z -> Z -> bool) (p : WalkCache.Position)
  : bool :=
  tw (WalkCache.x p) (WalkCache.y p) (WalkCache.z p).

(** A path all of whose steps are sound and stay inside the map, through
    worlds that change, from one step to the next, at most at the tile
    the creature leaves and at the tile it enters. *)
Fixpoint sound_walk (W H : Z) (from : WalkCache.Position)
    (tw : Z -> Z -> Z -> bool)
    (path : list (WalkCache.Position * (Z -> Z -> Z -> bool))) : Prop :=
  match path with
  | [] => True
  | next :: rest =>
      sound_step from (fst next) /\ inside_map W H (fst next)
      /\ same_but_at tw (snd next) [from; fst next]
      /\ sound_walk W H (fst next) (snd next) rest
  end.

(** The cache of [c] holds what a rebuild in the world [tw] would
    give. *)
Definition cache_sound (W H : Z) (tw : Z -> Z -> Z -> bool)
    (c : WalkCache.Creature) : Prop :=
  cells_eq W H (WalkCache.localMapCache c) (view W H tw (WalkCache.position c)).

(** The master references and the summon lists say the same: a creature
    is in the summon list of its master, once, and in no other. *)
Definition graph_consistent (w : gmap Z Ownership.Node) : Prop :=
  (forall s m, Ownership.getMaster w s = Some m
               <-> In s (Ownership.getSummons w m))
  /\ (forall m, List.NoDup (Ownership.getSummons w m)).

(** The hooks run when the conditions of [type] in [l] are ended, in
    the order of the list. *)
Definition end_hooks (type : Z) (l : list Conditions.Condition)
  : list Conditions.Event :=
  flat_map
    (fun c =>
       [Conditions.EvEndCondition (Conditions.handle c);
        Conditions.EvOnEndCondition type])
    (List.filter (fun c => Conditions.condType c =? type) l).

(** The conditions of [l] that are not of [type], in the order of the
    list. *)
Definition other_types (type : Z) (l : list Conditions.Condition)
  : list Conditions.Condition :=
  List.filter (fun c => negb (Conditions.condType c =? type)) l.

(** The bit field and the list of a creature say the same: the bit of a
    type is set exactly when an event of that type is registered, no
    event is registered twice, and the field is a uint32_t. *)
Definition events_consistent (getEventType : Z -> Z)
    (hasEventRegistered : Z -> Z -> bool) (c : ScriptEvents.Creature) : Prop :=
  (forall type, 0 <= type < 32 ->
     (hasEventRegistered (ScriptEvents.scriptEventsBitField c) type = true
      <-> exists event, In event (ScriptEvents.eventsList c)
                        /\ getEventType event = type))
  /\ List.NoDup (ScriptEvents.eventsList c)
  /\ 0 <= ScriptEvents.scriptEventsBitField c < 2 ^ 32.

(** The distance between two positions of a floor in steps, a diagonal
    step counting as one. *)
Definition step_distance (p q : WalkCache.Position) : Z :=
  Z.max (Z.abs (WalkCache.x p - WalkCache.x q))
        (Z.abs (WalkCache.y p - WalkCache.y q)).

(** * Examples

    The concrete creatures and worlds the statements below are tried
    on. *)

(** A knight with defense 60 and armor 10, a
    fire elemental immune to fire, and a source of randomness that always
    draws the upper end of the range. *)
Definition roll_high (lo hi : Z) : Z := hi.

Definition knight : Combat.Creature :=
  Combat.mkCreature 1 100 150 2 true 60 10 0 [] 0 0.

Definition fire_elemental : Combat.Creature :=
  Combat.mkCreature 2 280 280 0 false 0 0
    (Combat.CombatType_bits Combat.COMBAT_FIREDAMAGE) [] 0 0.

(** An NPC whose file gives it a health of -5 out of 100:
    Npc::loadFromXml only caps the health at the maximum. *)
Definition ailing : Combat.Creature :=
  Combat.mkCreature 4 (-5) 100 0 false 0 0 0 [] 0 0.

(** Everything in the world exists, nobody is
    in a party, the combat lock lasts 60000 ticks; the victim was hit for
    30 by creature 10 a second ago and for 70 by creature 11 two minutes
    ago, and loses 1000 experience. *)
Definition everyone (k : Z) : bool := true.
Definition no_party (k : Z) : option Z := None.

Definition victim : Combat.Creature :=
  Combat.mkCreature 1 0 150 0 true 0 0 0
    [(10, Combat.mkCountBlock 30 499000); (11, Combat.mkCountBlock 70 380000)]
    10 1000.

(** A creature that is no player, has never
    stepped and has two directions queued; a world in which every move
    request is refused and leaves the creature as it is. *)
Definition walker : Movement.Creature :=
  Movement.mkCreature 5 false false None 220 None false 0 0 1
    [Movement.DIRECTION_EAST; Movement.DIRECTION_NORTH] false 0 false.

Definition refuse_move (c : Movement.Creature) (dir : Movement.Direction)
  : Movement.ReturnValue * Movement.Creature :=
  (Movement.RETURNVALUE_NOTPOSSIBLE, c).

(** A wolf, a monster of speed 220 without
    master whose target is nearby and which is not fleeing, on a tile
    without ground. *)
Definition wolf : Movement.Creature :=
  Movement.mkCreature 9 false false
    (Some (Movement.mkMonsterState true false false))
    220 None false 0 0 1 [] false 0 false.

(** The cache reaches 11 tiles each way (the
    grid is 23 by 23).  The world has one blocked tile, at (95, 90) on
    floor 7; a scout appears at (100, 100) on floor 7. *)
Definition wall_95_90 (x y z : Z) : bool :=
  negb ((x =? 95) && (y =? 90) && (z =? 7)).

Definition scout : WalkCache.Creature :=
  WalkCache.appear 11 11 wall_95_90 (WalkCache.mkPosition 100 100 7).

Definition tourist : WalkCache.Creature :=
  WalkCache.mkCreature (WalkCache.mkPosition 100 100 7) false false
    (WalkCache.blank_grid 11 11).

(** A world of stripes: the tiles of the even columns are walkable. *)
Definition stripes (x y z : Z) : bool := Z.even x.

(** The world of the scout as it answers a creature that stands at [p]:
    its own tile is taken. *)
Definition standing_at (p : WalkCache.Position) (x y z : Z) : bool :=
  if WalkCache.Position_eqb (WalkCache.mkPosition x y z) p then false
  else wall_95_90 x y z.

(** A sorcerer (1) with a summoned demon (2)
    that has itself summoned an imp (3). *)
Definition coven : gmap Z Ownership.Node :=
  <[1 := Ownership.mkNode None [2]]>
    (<[2 := Ownership.mkNode (Some 1) [3]]>
       (<[3 := Ownership.mkNode (Some 2) []]> ∅)).

(** A brawl: the knight is hit three times, thinks for a second and is
    hit again. *)
Definition brawl : list CombatAction :=
  [Hit None Combat.COMBAT_PHYSICALDAMAGE 50 true true;
   Hit None Combat.COMBAT_PHYSICALDAMAGE 80 true false;
   Hit None Combat.COMBAT_PHYSICALDAMAGE 70 true true;
   Think 1000;
   Hit None Combat.COMBAT_PHYSICALDAMAGE 90 true true].

(** A hunter at (100, 100) on floor 7 that attacks creature 8, follows
    creature 9 and has two summons, and a view of 8 by 6 tiles. *)
Definition hunter : Sight.Creature :=
  Sight.mkCreature (WalkCache.mkPosition 100 100 7) (Some 8) (Some 9) [20; 21]
    [Movement.DIRECTION_NORTH] true false false false.

(** A shopkeeper, an NPC, at (50, 50) on floor 7, with no target and one
    summon. *)
Definition shopkeeper : Sight.Creature :=
  Sight.mkCreature (WalkCache.mkPosition 50 50 7) None None [30] [] false
    false false false.

(** The world of the scout after a wall has been put on (102, 100). *)
Definition wall_added (x y z : Z) : bool :=
  if (x =? 102) && (y =? 100) && (z =? 7) then false else wall_95_90 x y z.

(** The world of the scout after a creature has stepped from (99, 100)
    to (99, 101). *)
Definition creature_stepped (x y z : Z) : bool :=
  if (x =? 99) && (y =? 101) && (z =? 7) then false
  else if (x =? 99) && (y =? 100) && (z =? 7) then true
  else wall_95_90 x y z.

(** A hasted creature; haste is type 2 and paralysis type 1 here. *)
Definition hasted : list Conditions.Condition :=
  [Conditions.mkCondition 1 2 0 0 9000 5000;
   Conditions.mkCondition 2 8 0 0 9000 5000].

(** Script events: every event is of type 3 and loaded; the bit test is
    [Z.testbit]; the name "onThink" is the event 5. *)
Definition event_type (event : Z) : Z := 3.
Definition event_loaded (event : Z) : bool := true.
Definition event_named (name : string) : option Z :=
  if String.eqb name "onThink" then Some 5 else None.

(** * Properties *)

(** ** Machine integers *)

Lemma wrap_int32_id (n : Z) : is_int32 n -> wrap_int32 n = n.
Proof.
  unfold is_int32, INT32_MIN, INT32_MAX, wrap_int32, wrap_signed.
  intros Hn. change (2 ^ (32 - 1)) with 2147483648.
  change (2 ^ 32) with 4294967296 in *. change (2 ^ 31) with 2147483648 in *.
  rewrite Z.mod_small; lia.
Qed.

Lemma wrap_int32_range (n : Z) : is_int32 (wrap_int32 n).
Proof.
  unfold is_int32, INT32_MIN, INT32_MAX, wrap_int32, wrap_signed.
  change (2 ^ (32 - 1)) with 2147483648.
  change (2 ^ 32) with 4294967296. change (2 ^ 31) with 2147483648.
  pose proof (Z.mod_pos_bound (n + 2147483648) 4294967296). lia.
Qed.

Lemma wrap_uint32_range (n : Z) : 0 <= wrap_uint32 n < 2 ^ 32.
Proof. unfold wrap_uint32, wrap_unsigned. apply Z.mod_pos_bound. lia. Qed.

Lemma wrap_uint32_id (n : Z) : 0 <= n < 2 ^ 32 -> wrap_uint32 n = n.
Proof. unfold wrap_uint32, wrap_unsigned. intros. apply Z.mod_small. lia. Qed.

(** ** Combat resolution *)

Section CombatFacts.

Import Combat.

Variable uniform_random : Z -> Z -> Z.

(** The damage that leaves the mitigation steps is never negative when a
    defense or armor block has been recorded. *)
Lemma blockHit_mitigate_blocked c combatType damage checkDefense checkArmor :
  forall bt dmg bc evs,
    blockHit_mitigate uniform_random c combatType damage checkDefense checkArmor
    = (bt, dmg, bc, evs) ->
    bt <> BLOCK_NONE -> dmg = 0.
Proof.
  intros bt dmg bc evs. unfold blockHit_mitigate.
  destruct (isImmune c combatType); [intros [= <- <- <- <-]; reflexivity|].
  destruct (checkDefense || checkArmor);
    [|intros [= <- <- <- <-]; congruence].
  destruct (checkDefense && (0 <? blockCount c) && canUseDefense c).
  - destruct (_ <=? 0).
    + intros [= <- <- <- <-]; reflexivity.
    + destruct checkArmor.
      * destruct (_ <=? 0); intros [= <- <- <- <-]; congruence.
      * intros [= <- <- <- <-]; congruence.
  - destruct checkArmor.
    + destruct (_ <=? 0); intros [= <- <- <- <-]; congruence.
    + intros [= <- <- <- <-]; congruence.
Qed.

(** C1. Whenever the damage that leaves the mitigation steps of blockHit
    is at most 0, whatever brought it there (immunity, defense, armor, or
    the damage passed in), blockHit gives back damage 0 and BLOCK_ARMOR.
    Conversely BLOCK_ARMOR is returned only with damage 0, and the damage
    given back is never negative. *)
Theorem blockHit_zero_is_armor (c : Creature) (attacker : option Attacker)
    (combatType : CombatType_t) (damage : Z) (checkDefense checkArmor : bool) :
  let mitigated :=
    blockHit_mitigate uniform_random c combatType damage checkDefense
      checkArmor in
  let r :=
    blockHit uniform_random c attacker combatType damage checkDefense
      checkArmor in
  (snd (fst (fst mitigated)) <= 0 ->
   damageOut r = 0 /\ blockType r = BLOCK_ARMOR)
  /\ 0 <= damageOut r
  /\ (damageOut r = 0 <-> blockType r = BLOCK_ARMOR).
Proof.
  intros mitigated r. subst mitigated r. unfold blockHit.
  destruct (blockHit_mitigate _ _ _ _ _ _) as [[[bt dmg] bc] evs] eqn:Hm.
  simpl. pose proof (blockHit_mitigate_blocked _ _ _ _ _ _ _ _ _ Hm) as Hb.
  destruct (dmg <=? 0) eqn:Hd; simpl.
  - repeat split; auto; lia.
  - apply Z.leb_gt in Hd. split; [lia|]. split; [lia|].
    split; [lia|]. intros ->. assert (dmg = 0) by (apply Hb; discriminate).
    lia.
Qed.

(** C3, as the code has it.  With checkDefense and checkArmor both
    false: a creature that is not immune to the combat type keeps its
    damage (a damage of 0 or less comes out as 0, which is no smaller) and
    a positive damage is classified BLOCK_NONE, one of 0 or less
    BLOCK_ARMOR; a creature that is immune has its damage set to 0.  The
    block count is left alone and onBlockHit is not called. *)
Theorem blockHit_unchecked (c : Creature) (attacker : option Attacker)
    (combatType : CombatType_t) (damage : Z) :
  let r := blockHit uniform_random c attacker combatType damage false false in
  (isImmune c combatType = false ->
   damageOut r = Z.max 0 damage /\ damage <= damageOut r
   /\ (0 < damage -> damageOut r = damage /\ blockType r = BLOCK_NONE)
   /\ (damage <= 0 -> blockType r = BLOCK_ARMOR))
  /\ (isImmune c combatType = true -> damageOut r = 0)
  /\ blockCount (creatureOut r) = blockCount c
  /\ ~ In EvOnBlockHit (events r).
Proof.
  intros r. subst r. unfold blockHit, blockHit_mitigate.
  destruct (isImmune c combatType); simpl.
  - repeat split; try discriminate; auto.
    destruct attacker as [a|]; simpl.
    + destruct (negb _); simpl.
      * destruct (masterIsPlayer a); simpl; intuition discriminate.
      * intuition discriminate.
    + intuition discriminate.
  - destruct (damage <=? 0) eqn:Hd; simpl.
    + apply Z.leb_le in Hd. repeat split; try discriminate; try lia.
      destruct attacker as [a|]; simpl.
      * destruct (negb _); simpl.
        -- destruct (masterIsPlayer a); simpl; intuition discriminate.
        -- intuition discriminate.
      * intuition discriminate.
    + apply Z.leb_gt in Hd. repeat split; try discriminate; try lia.
      destruct attacker as [a|]; simpl.
      * destruct (negb _); simpl.
        -- destruct (masterIsPlayer a); simpl; intuition discriminate.
        -- intuition discriminate.
      * intuition discriminate.
Qed.

(** C10, as the code has it.  changeHealth keeps the health within its bounds:
    from a health between 0 and healthMax, a negative change gives
    max(0, health + d), a positive one min(healthMax, health + d); the
    health stays between 0 and healthMax, and healthMax is not
    touched. *)
Theorem changeHealth_within_bounds (c : Creature) (d : Z) (send : bool) :
  is_int32 d -> is_int32 (healthMax c) ->
  0 <= health c <= healthMax c ->
  let c' := fst (changeHealth c d send) in
  (d < 0 -> health c' = Z.max 0 (health c + d))
  /\ (0 < d -> health c' = Z.min (healthMax c) (health c + d))
  /\ 0 <= health c' <= healthMax c'
  /\ healthMax c' = healthMax c.
Proof.
  intros Hd Hmax Hh c'. subst c'. unfold changeHealth, getMaxHealth. simpl.
  unfold is_int32, INT32_MIN, INT32_MAX in *.
  change (2 ^ 31) with 2147483648 in *.
  destruct (0 <? d) eqn:Hpos.
  - apply Z.ltb_lt in Hpos.
    rewrite (wrap_int32_id (healthMax c - health c))
      by (unfold is_int32, INT32_MIN, INT32_MAX;
          change (2 ^ 31) with 2147483648; lia).
    rewrite wrap_int32_id
      by (unfold is_int32, INT32_MIN, INT32_MAX;
          change (2 ^ 31) with 2147483648; lia).
    repeat split; intros; lia.
  - apply Z.ltb_ge in Hpos.
    rewrite wrap_int32_id
      by (unfold is_int32, INT32_MIN, INT32_MAX;
          change (2 ^ 31) with 2147483648; lia).
    repeat split; intros; lia.
Qed.

(** X1. Draining all the health of a living creature leaves health 0 and
    hands the death to the dispatcher exactly once, as a task: the only
    other thing the call does is announce the new health when asked
    to. *)
Theorem changeHealth_death_is_deferred (c : Creature) (send : bool) :
  0 < health c <= INT32_MAX ->
  changeHealth c (- health c) send
  = (set_health c 0,
     (if send then [EvAddCreatureHealth (id c)] else [])
     ++ [EvTaskExecuteDeath (id c)]).
Proof.
  unfold INT32_MAX. change (2 ^ 31 - 1) with 2147483647. intros Hh.
  unfold changeHealth.
  assert (Hneg : (0 <? - health c) = false) by (apply Z.ltb_ge; lia).
  rewrite Hneg. replace (health c + - health c) with 0 by lia.
  change (wrap_int32 0) with 0. change (Z.max 0 0) with 0.
  assert (Hne : (health c =? 0) = false) by (apply Z.eqb_neq; lia).
  rewrite Hne. simpl. rewrite andb_true_r. reflexivity.
Qed.

(** What is stored in the ledger under a key is found under it. *)
Lemma ledger_find_store (m : list (Z * CountBlock_t)) (k : Z)
    (cb : CountBlock_t) :
  ledger_find (ledger_store m k cb) k = Some cb.
Proof.
  induction m as [|[k' cb'] rest IH]; simpl.
  - rewrite Z.eqb_refl. reflexivity.
  - destruct (k' =? k) eqn:Ek; simpl.
    + rewrite Z.eqb_refl. reflexivity.
    + destruct (k <? k'); simpl.
      * rewrite Z.eqb_refl. reflexivity.
      * rewrite Ek. exact IH.
Qed.

(** addDamagePoints ignores an amount of 0 or less; a positive amount
    is added to the attacker's entry, whose time stamp becomes now, and
    the attacker becomes the last hitter. *)
Lemma addDamagePoints_ledger (c : Creature) (now attacker points : Z) :
  (points <= 0 -> addDamagePoints c now attacker points = c)
  /\ (0 < points ->
      let c' := addDamagePoints c now attacker points in
      let before :=
        match ledger_find (damageMap c) attacker with
        | Some cb => total cb
        | None => 0
        end in
      ledger_find (damageMap c') attacker
      = Some (mkCountBlock (wrap_int32 (before + points)) now)
      /\ lastHitCreatureId c' = attacker).
Proof.
  unfold addDamagePoints. split.
  - intros Hp. apply Z.leb_le in Hp. rewrite Hp. reflexivity.
  - intros Hp. apply Z.leb_gt in Hp. rewrite Hp. simpl.
    rewrite ledger_find_store.
    destruct (ledger_find (damageMap c) attacker); split; reflexivity.
Qed.

End CombatFacts.

(** C1 at work: the defense roll alone takes a hit of 50 to 0, the
    mitigation steps record BLOCK_DEFENSE, and blockHit answers
    BLOCK_ARMOR. *)
Lemma blockHit_zero_is_armor_by_defense :
  fst (fst (fst (Combat.blockHit_mitigate roll_high knight
                   Combat.COMBAT_PHYSICALDAMAGE 50 true false)))
  = Combat.BLOCK_DEFENSE
  /\ Combat.damageOut (Combat.blockHit roll_high knight None
                         Combat.COMBAT_PHYSICALDAMAGE 50 true false) = 0
  /\ Combat.blockType (Combat.blockHit roll_high knight None
                         Combat.COMBAT_PHYSICALDAMAGE 50 true false)
     = Combat.BLOCK_ARMOR.
Proof.
  split; [reflexivity|].
  apply (blockHit_zero_is_armor roll_high knight None
           Combat.COMBAT_PHYSICALDAMAGE 50 true false).
  vm_compute. discriminate.
Defined.

(** C3 fails as stated: with both checks off, a hit of 50 fire damage on
    a creature immune to fire comes back as damage 0, which is less than
    50, and the classification is BLOCK_ARMOR, neither none nor
    immunity. *)
Lemma blockHit_unchecked_immune_counterexample :
  let r := Combat.blockHit roll_high fire_elemental None
             Combat.COMBAT_FIREDAMAGE 50 false false in
  Combat.damageOut r = 0 /\ Combat.blockType r = Combat.BLOCK_ARMOR
  /\ ~ (50 <= Combat.damageOut r
        /\ (Combat.blockType r = Combat.BLOCK_NONE
            \/ Combat.blockType r = Combat.BLOCK_IMMUNITY)).
Proof.
  vm_compute. split; [reflexivity|]. split; [reflexivity|].
  intros [H _]. apply H. reflexivity.
Qed.

(** C3 as amended, on the knight: a hit of 50 passes both checks off
    untouched. *)
Lemma blockHit_unchecked_knight :
  Combat.isImmune knight Combat.COMBAT_PHYSICALDAMAGE = false
  /\ Combat.damageOut (Combat.blockHit roll_high knight None
                         Combat.COMBAT_PHYSICALDAMAGE 50 false false) = 50
  /\ Combat.blockType (Combat.blockHit roll_high knight None
                         Combat.COMBAT_PHYSICALDAMAGE 50 false false)
     = Combat.BLOCK_NONE.
Proof.
  split; [reflexivity|].
  apply (blockHit_unchecked roll_high knight None
           Combat.COMBAT_PHYSICALDAMAGE 50); [reflexivity|lia].
Defined.

(** C10 as amended, on the knight: a blow of 130 stops at 0, a cure of
    80 stops at the maximum of 150. *)
Lemma changeHealth_within_bounds_knight :
  Combat.health (fst (Combat.changeHealth knight (-130) true)) = 0
  /\ Combat.health (fst (Combat.changeHealth knight 80 true)) = 150.
Proof.
  assert (Hknight : 0 <= Combat.health knight <= Combat.healthMax knight)
    by (simpl; lia).
  assert (Hmax : is_int32 (Combat.healthMax knight))
    by (vm_compute; split; discriminate).
  split.
  - assert (Hd : is_int32 (-130)) by (vm_compute; split; discriminate).
    destruct (changeHealth_within_bounds knight (-130) true Hd Hmax Hknight)
      as (Hneg & _).
    rewrite Hneg by lia. reflexivity.
  - assert (Hd : is_int32 80) by (vm_compute; split; discriminate).
    destruct (changeHealth_within_bounds knight 80 true Hd Hmax Hknight)
      as (_ & Hpos & _).
    rewrite Hpos by lia. reflexivity.
Defined.

(** C10 fails as stated for a health below 0, which the claim does not
    exclude: the ailing NPC has a health of -5, at most its maximum of
    100; cured by 2 it has a health of -3, which is min(healthMax,
    health + d) and is negative. *)
Lemma changeHealth_negative_health_counterexample :
  let c' := fst (Combat.changeHealth ailing 2 true) in
  Combat.health ailing <= Combat.healthMax ailing
  /\ Combat.health c' = -3
  /\ Combat.health c'
     = Z.min (Combat.healthMax ailing) (Combat.health ailing + 2)
  /\ ~ 0 <= Combat.health c'.
Proof.
  vm_compute. split; [discriminate|]. split; [reflexivity|].
  split; [reflexivity|]. intros H. apply H. reflexivity.
Qed.

(** The knight is drained of its 100 health: one death task. *)
Lemma changeHealth_death_is_deferred_knight :
  snd (Combat.changeHealth knight (-100) false) = [Combat.EvTaskExecuteDeath 1].
Proof.
  assert (H : 0 < Combat.health knight <= INT32_MAX)
    by (vm_compute; split; [reflexivity | discriminate]).
  exact (f_equal snd (changeHealth_death_is_deferred knight false H)).
Defined.

(** ** The damage ledger and its consumers *)

Section LedgerFacts.

Import Combat.

Variable creatureExists : Z -> bool.
Variable partyLeader : Z -> option Z.
Variable inFightTicks : Z.

Lemma getKillers_loop_inFight (self now : Z) (m : list (Z * CountBlock_t))
    (k : Z) :
  In k (getKillers_loop creatureExists inFightTicks self now m) ->
  exists cb, In (k, cb) m /\ now - ticks cb <= inFightTicks.
Proof.
  induction m as [|[k' cb'] rest IH]; simpl; [tauto|].
  destruct (creatureExists k' && negb (k' =? self) && inFight inFightTicks now cb')
    eqn:Hkeep.
  - intros [<- | Hin].
    + exists cb'. split; [left; reflexivity|].
      apply andb_prop in Hkeep. destruct Hkeep as [_ Hw].
      unfold inFight in Hw. lia.
    + destruct (IH Hin) as (cb & Hcb & Hw). exists cb. split; [right|]; assumption.
  - intros Hin. destruct (IH Hin) as (cb & Hcb & Hw).
    exists cb. split; [right|]; assumption.
Qed.

Lemma onDeath_fold_mostDamage (c : Creature) (now : Z)
    (m l : list (Z * CountBlock_t)) :
  forall st,
    (forall e, In e l -> In e m) ->
    mostDamage_inFight inFightTicks m now st ->
    mostDamage_inFight inFightTicks m now
      (fold_left (onDeath_step creatureExists partyLeader inFightTicks c now)
         l st).
Proof.
  induction l as [|[k cb] rest IH]; intros st Hsub Hst; simpl; [exact Hst|].
  apply IH; [intros e He; apply Hsub; right; exact He|].
  unfold onDeath_step. destruct (creatureExists k); [|exact Hst].
  destruct ((mostDamage st <? total cb) && inFight inFightTicks now cb)
    eqn:Hnew; simpl.
  - intros k' [= <-]. exists cb. split; [apply Hsub; left; reflexivity|].
    apply andb_prop in Hnew. destruct Hnew as [_ Hw]. unfold inFight in Hw.
    split; [lia|reflexivity].
  - exact Hst.
Qed.

Lemma getDamageRatio_sums_restamp (f : Z -> Z) (attacker : Z)
    (m : list (Z * CountBlock_t)) :
  getDamageRatio_sums (restamp_ledger f m) attacker
  = getDamageRatio_sums m attacker.
Proof.
  unfold getDamageRatio_sums. generalize (0, 0).
  induction m as [|[k cb] rest IH]; intros acc; simpl; [reflexivity|].
  destruct acc as [t a]. simpl. apply IH.
Qed.

Lemma getDamageRatio_restamp (f : Z -> Z) (c : Creature) (attacker : Z) :
  getDamageRatio (restamp f c) attacker = getDamageRatio c attacker.
Proof.
  unfold getDamageRatio, restamp. simpl.
  rewrite getDamageRatio_sums_restamp. reflexivity.
Qed.

Lemma getGainedExperience_restamp (f : Z -> Z) (c : Creature) (attacker : Z) :
  getGainedExperience (restamp f c) attacker = getGainedExperience c attacker.
Proof.
  unfold getGainedExperience. rewrite getDamageRatio_restamp. reflexivity.
Qed.

Lemma onDeath_fold_experience (f : Z -> Z) (c : Creature) (now now' : Z)
    (l : list (Z * CountBlock_t)) :
  forall st st',
    experienceMap st = experienceMap st' ->
    experienceMap
      (fold_left
         (onDeath_step creatureExists partyLeader inFightTicks (restamp f c)
            now')
         (restamp_ledger f l) st')
    = experienceMap
        (fold_left
           (onDeath_step creatureExists partyLeader inFightTicks c now) l st).
Proof.
  induction l as [|[k cb] rest IH]; intros st st' Heq; simpl;
    [symmetry; exact Heq|].
  apply IH. unfold onDeath_step.
  destruct (creatureExists k); [|exact Heq].
  rewrite getGainedExperience_restamp.
  destruct (_ && _); destruct (_ && _); simpl;
    change (id (restamp f c)) with (id c);
    destruct (negb (k =? id c)); simpl; congruence.
Qed.

(** C5, as the code has it.  getKillers, hasBeenAttacked and the
    most-damage choice of onDeath only take entries whose last hit is
    within the combat-lock window.  getDamageRatio and the experience shares of onDeath read no
    time stamp: they come out the same whatever the time stamps of the
    ledger and whatever the clock are. *)
Theorem ledger_consumers (c : Creature) (now : Z) :
  (forall k, In k (getKillers creatureExists inFightTicks c now) ->
     exists cb, In (k, cb) (damageMap c) /\ now - ticks cb <= inFightTicks)
  /\ (forall k, hasBeenAttacked inFightTicks c now k = true ->
        exists cb, ledger_find (damageMap c) k = Some cb
                   /\ now - ticks cb <= inFightTicks)
  /\ (forall k,
        mostDamageCreature
          (onDeath_scan creatureExists partyLeader inFightTicks c now)
        = Some k ->
        exists cb, In (k, cb) (damageMap c) /\ now - ticks cb <= inFightTicks)
  /\ (forall f attacker,
        getDamageRatio (restamp f c) attacker = getDamageRatio c attacker)
  /\ (forall f now',
        experienceMap
          (onDeath_scan creatureExists partyLeader inFightTicks (restamp f c)
             now')
        = experienceMap
            (onDeath_scan creatureExists partyLeader inFightTicks c now)).
Proof.
  split; [|split; [|split; [|split]]].
  - intros k. apply getKillers_loop_inFight.
  - intros k. unfold hasBeenAttacked.
    destruct (ledger_find (damageMap c) k) as [cb|]; [|discriminate].
    intros Hw. exists cb. split; [reflexivity|]. unfold inFight in Hw. lia.
  - intros k Hk.
    assert (Hinit : mostDamage_inFight inFightTicks (damageMap c) now
                      (mkDeathScan 0 None []))
      by (intros k' Hk'; discriminate).
    destruct (onDeath_fold_mostDamage c now (damageMap c) (damageMap c)
                (mkDeathScan 0 None []) (fun e He => He) Hinit k Hk)
      as (cb & Hin & Hw & _).
    exists cb. split; assumption.
  - intros f attacker. apply getDamageRatio_restamp.
  - intros f now'. unfold onDeath_scan.
    change (damageMap (restamp f c)) with (restamp_ledger f (damageMap c)).
    apply onDeath_fold_experience. reflexivity.
Qed.

End LedgerFacts.

(** C5 fails as stated: two minutes after its last hit, creature 11 is
    outside the window of 60000 ticks (getKillers leaves it out), yet its
    70 points still count in getDamageRatio, which gives creature 10 the
    ratio 30/100 where the windowed ledger gives 30/30, and onDeath still
    hands creature 11 its 700 experience. *)
Lemma ledger_stale_entry_counterexample :
  Combat.getKillers everyone 60000 victim 500000 = [10]
  /\ ~ (Combat.getDamageRatio victim 10
        == getDamageRatio_windowed 60000 victim 500000 10)%Q
  /\ Combat.experienceMap
       (Combat.onDeath_scan everyone no_party 60000 victim 500000)
     = [(10, 300); (11, 700)].
Proof.
  split; [reflexivity|]. split; [|reflexivity].
  vm_compute. discriminate.
Qed.

(** C5 as amended, on the victim: the only killer is inside the window,
    and rewriting every time stamp to 0 changes no ratio. *)
Lemma ledger_consumers_victim :
  (exists cb, In (10, cb) (Combat.damageMap victim)
              /\ 500000 - Combat.ticks cb <= 60000)
  /\ Combat.getDamageRatio (restamp (fun _ => 0) victim) 11
     = Combat.getDamageRatio victim 11.
Proof.
  destruct (ledger_consumers everyone no_party 60000 victim 500000)
    as (Hkillers & _ & _ & Hratio & _).
  split; [apply Hkillers; left; reflexivity | apply Hratio].
Defined.

(** The scan at work: two attackers deal 30 and 70 within the window;
    the one with 70 is the creature with the most damage, and the 1000
    lost experience is split 300 to 700. *)
Example onDeath_scan_two_attackers :
  let fresh :=
    Combat.mkCreature 1 0 150 0 true 0 0 0
      [(10, Combat.mkCountBlock 30 499000);
       (11, Combat.mkCountBlock 70 498000)] 11 1000 in
  let scan := Combat.onDeath_scan everyone no_party 60000 fresh 500000 in
  Combat.mostDamageCreature scan = Some 11
  /\ Combat.experienceMap scan = [(10, 300); (11, 700)]
  /\ (Combat.getDamageRatio fresh 10 == 3 # 10)%Q
  /\ (Combat.getDamageRatio fresh 11 == 7 # 10)%Q.
Proof. vm_compute. repeat split. Qed.

(** ** The walk queue *)

Section WalkFacts.

Import Movement.

Variable uniform_random : Z -> Z -> Z.
Variable internalMoveCreature : Creature -> Direction -> ReturnValue * Creature.
Variable schedulerEventId : Z.




End WalkFacts.



(** ** The step duration *)

Section LogarithmBounds.

Local Open Scope R_scope.

Lemma ln_le_sub1 (y : R) : 0 < y -> ln y <= y - 1.
Proof.
  intros Hy. pose proof (exp_ineq1_le (ln y)) as H.
  rewrite exp_ln in H by assumption. lra.
Qed.

Lemma ln_ge_sub_inv (y : R) : 0 < y -> 1 - / y <= ln y.
Proof.
  intros Hy. pose proof (ln_le_sub1 (/ y) (Rinv_0_lt_compat _ Hy)) as H.
  rewrite ln_Rinv in H by assumption. lra.
Qed.

Lemma ln_monotone (a b : R) : 0 < a -> a <= b -> ln a <= ln b.
Proof.
  intros Ha [Hlt | ->]; [left; apply ln_increasing; assumption | right; reflexivity].
Qed.

(** A power of [r] above [a] bounds [ln a] from above, one below [a]
    bounds it from below. *)
Lemma ln_upper (a r : R) (n : nat) :
  0 < a -> 0 < r -> a <= r ^ n -> ln a <= INR n * (r - 1).
Proof.
  intros Ha Hr Hle. apply Rle_trans with (ln (r ^ n)).
  - apply ln_monotone; assumption.
  - rewrite ln_pow by assumption.
    apply Rmult_le_compat_l; [apply pos_INR | apply ln_le_sub1; assumption].
Qed.

Lemma ln_lower (a r : R) (n : nat) :
  0 < r -> r ^ n <= a -> INR n * (1 - / r) <= ln a.
Proof.
  intros Hr Hle. apply Rle_trans with (ln (r ^ n)).
  - rewrite ln_pow by assumption.
    apply Rmult_le_compat_l; [apply pos_INR | apply ln_ge_sub_inv; assumption].
  - apply ln_monotone; [apply pow_lt; assumption | assumption].
Qed.

(** Powers of a fraction are compared on the integers. *)
Lemma pow_fraction_le (p q a b : Z) (n : nat) :
  (0 < q)%Z -> (0 < b)%Z ->
  (p ^ Z.of_nat n * b <= a * q ^ Z.of_nat n)%Z ->
  (IZR p / IZR q) ^ n <= IZR a / IZR b.
Proof.
  intros Hq Hb Hle.
  assert (Hq' : 0 < IZR q) by (apply IZR_lt; assumption).
  assert (Hb' : 0 < IZR b) by (apply IZR_lt; assumption).
  assert (Hqn : 0 < IZR q ^ n) by (apply pow_lt; assumption).
  unfold Rdiv. rewrite Rpow_mult_distr, pow_inv.
  apply IZR_le in Hle. rewrite !mult_IZR, <- !pow_IZR in Hle.
  apply (Rmult_le_reg_r (IZR q ^ n * IZR b));
    [apply Rmult_lt_0_compat; assumption|].
  replace (IZR p ^ n * / IZR q ^ n * (IZR q ^ n * IZR b))
    with (IZR p ^ n * IZR b) by (field; lra).
  replace (IZR a * / IZR b * (IZR q ^ n * IZR b))
    with (IZR a * IZR q ^ n) by (field; lra).
  exact Hle.
Qed.

Lemma pow_106_101 : (IZR 106 / IZR 100) ^ 101 <= IZR 37129 / IZR 100.
Proof. apply pow_fraction_le; [lia | lia | vm_compute; discriminate]. Qed.

(** [ln 371.29] is at least 5.7, and [ln] of anything up to 2^31 at
    most 31. *)
Lemma ln_371_lower : 5.7 <= ln 371.29.
Proof.
  pose proof (ln_lower 371.29 (IZR 106 / IZR 100) 101) as H.
  assert (H1 : 0 < IZR 106 / IZR 100) by lra.
  assert (H2 : (IZR 106 / IZR 100) ^ 101 <= 371.29)
    by (pose proof pow_106_101; lra).
  specialize (H H1 H2).
  replace (INR 101) with 101 in H by (simpl; lra).
  assert (1 - / (IZR 106 / IZR 100) = 6 / 106) by (field; lra).
  lra.
Qed.

Lemma pow_fraction_ge (p q a b : Z) (n : nat) :
  (0 < q)%Z -> (0 < b)%Z ->
  (a * q ^ Z.of_nat n <= p ^ Z.of_nat n * b)%Z ->
  IZR a / IZR b <= (IZR p / IZR q) ^ n.
Proof.
  intros Hq Hb Hle.
  assert (Hq' : 0 < IZR q) by (apply IZR_lt; assumption).
  assert (Hb' : 0 < IZR b) by (apply IZR_lt; assumption).
  assert (Hqn : 0 < IZR q ^ n) by (apply pow_lt; assumption).
  unfold Rdiv. rewrite Rpow_mult_distr, pow_inv.
  apply IZR_le in Hle. rewrite !mult_IZR, <- !pow_IZR in Hle.
  apply (Rmult_le_reg_r (IZR q ^ n * IZR b));
    [apply Rmult_lt_0_compat; assumption|].
  replace (IZR p ^ n * / IZR q ^ n * (IZR q ^ n * IZR b))
    with (IZR p ^ n * IZR b) by (field; lra).
  replace (IZR a * / IZR b * (IZR q ^ n * IZR b))
    with (IZR a * IZR q ^ n) by (field; lra).
  exact Hle.
Qed.

Lemma pow_1005_1116 : IZR 26129 / IZR 100 <= (IZR 1005 / IZR 1000) ^ 1116.
Proof. apply pow_fraction_ge; [lia | lia | vm_compute; discriminate]. Qed.

(** [ln 261.29] is at most 5.58. *)
Lemma ln_261_upper : ln 261.29 <= 5.58.
Proof.
  pose proof (ln_upper 261.29 (IZR 1005 / IZR 1000) 1116) as H.
  assert (H0 : 0 < 261.29) by lra.
  assert (H1 : 0 < IZR 1005 / IZR 1000) by lra.
  assert (H2 : 261.29 <= (IZR 1005 / IZR 1000) ^ 1116)
    by (pose proof pow_1005_1116; lra).
  specialize (H H0 H1 H2).
  replace (INR 1116) with 1116 in H by (rewrite INR_IZR_INZ; reflexivity).
  lra.
Qed.

Lemma ln_2_31_upper (a : R) : 0 < a -> a <= 2147483648 -> ln a <= 31.
Proof.
  intros Ha Hle. pose proof (ln_upper a 2 31 Ha) as H.
  assert (H1 : 0 < 2) by lra.
  assert (H2 : a <= 2 ^ 31).
  { replace (2 ^ 31) with 2147483648; [assumption|].
    rewrite pow_IZR. apply f_equal. reflexivity. }
  specialize (H H1 H2).
  replace (INR 31) with 31 in H by (simpl; lra). lra.
Qed.

End LogarithmBounds.

Section StepDurationFacts.

Import Movement.

Lemma speedB_guard (s : Z) :
  (if Rlt_dec (- speedB) (IZR s) then true else false) = (-261 <=? s).
Proof.
  unfold speedB. destruct (Rlt_dec _ _) as [Hlt | Hge];
    destruct (-261 <=? s) eqn:Hs; try reflexivity.
  - apply Z.leb_gt in Hs. assert (s <= -262) as Hs' by lia.
    apply IZR_le in Hs'. lra.
  - apply Z.leb_le in Hs. apply IZR_le in Hs. lra.
Qed.

Lemma calculatedStepSpeed_guard (s : Z) :
  calculatedStepSpeed s
  = if -261 <=? s
    then (if wrap_uint32 (speedCurve s) =? 0 then 1
          else wrap_uint32 (speedCurve s))
    else 1.
Proof.
  unfold calculatedStepSpeed. rewrite <- speedB_guard.
  destruct (Rlt_dec _ _); reflexivity.
Qed.

(** The effective speed is at least 1 whatever the speed. *)
Lemma calculatedStepSpeed_min (s : Z) : 1 <= calculatedStepSpeed s.
Proof.
  rewrite calculatedStepSpeed_guard. destruct (-261 <=? s); [|lia].
  pose proof (wrap_uint32_range (speedCurve s)) as Hr.
  destruct (_ =? 0) eqn:Hz; [lia|]. apply Z.eqb_neq in Hz. lia.
Qed.

Lemma calculatedStepSpeed_max (s : Z) :
  -261 <= s -> 0 <= speedCurve s < 2 ^ 32 ->
  calculatedStepSpeed s = Z.max 1 (speedCurve s).
Proof.
  intros Hs Hc. rewrite calculatedStepSpeed_guard.
  apply Z.leb_le in Hs. rewrite Hs. rewrite wrap_uint32_id by assumption.
  destruct (_ =? 0) eqn:Hz; [apply Z.eqb_eq in Hz | apply Z.eqb_neq in Hz]; lia.
Qed.

(** [ceil50] rounds up to the next multiple of 50. *)
Lemma ceil50_spec (d : Z) :
  ceil50 d mod 50 = 0 /\ d <= ceil50 d < d + 50.
Proof.
  unfold ceil50. split.
  - apply Z.mod_mul. lia.
  - pose proof (Z.div_mod (- d) 50 ltac:(lia)) as Hdm.
    pose proof (Z.mod_pos_bound (- d) 50 ltac:(lia)) as Hm. lia.
Qed.

(** From speed 220 on, the curve stays between 92 and 21783. *)
Lemma speedCurve_range (s : Z) :
  220 <= s <= INT32_MAX -> 92 <= speedCurve s <= 21783.
Proof.
  unfold INT32_MAX. change (2 ^ 31 - 1) with 2147483647. intros [Hlo Hhi].
  assert (Hq : 110 <= s ÷ 2 <= 1073741824).
  { rewrite Z.quot_div_nonneg by lia. split.
    - apply Z.div_le_lower_bound; lia.
    - apply Z.div_le_upper_bound; lia. }
  destruct Hq as [Hq1 Hq2]. apply IZR_le in Hq1, Hq2.
  unfold speedCurve, speedA, speedB, speedC.
  set (a := (IZR (s ÷ 2) + 261.29)%R).
  assert (Ha : (371.29 <= a <= 2147483648)%R) by (unfold a; lra).
  assert (Hl1 : (5.7 <= ln a)%R).
  { apply Rle_trans with (ln 371.29); [apply ln_371_lower|].
    apply ln_monotone; lra. }
  assert (Hl2 : (ln a <= 31)%R) by (apply ln_2_31_upper; lra).
  split.
  - apply Zfloor_lub. lra.
  - pose proof (Zfloor_bound (857.36 * ln a + -4795.01 + 0.5)) as [Hf _].
    assert (Hlt : (IZR (Zfloor (857.36 * ln a + -4795.01 + 0.5)) < IZR 21784)%R)
      by lra.
    apply lt_IZR in Hlt. lia.
Qed.

(** At speed 0 the curve is negative: the value the code stores in the
    uint32_t [calculatedStepSpeed] is then not the one of the formula. *)
Lemma speedCurve_negative : speedCurve 0 < 0.
Proof.
  unfold speedCurve, speedA, speedB, speedC.
  change (0 ÷ 2) with 0. replace (0 + 261.29)%R with 261.29%R by lra.
  pose proof ln_261_upper as Hl.
  pose proof (Zfloor_bound (857.36 * ln 261.29 + -4795.01 + 0.5)) as [Hf _].
  assert (Hlt : (IZR (Zfloor (857.36 * ln 261.29 + -4795.01 + 0.5)) < IZR 0)%R)
    by lra.
  apply lt_IZR in Hlt. exact Hlt.
Qed.

(** The duration is the raw duration rounded up to a multiple of 50,
    doubled for a monster that closes in on its target. *)
Lemma getStepDuration_rounded (c : Creature) :
  isRemoved c = false ->
  (forall g, ground c = Some g -> 0 <= g < 2 ^ 16) ->
  (-261 <= stepSpeed c -> 0 <= speedCurve (stepSpeed c) < 2 ^ 32) ->
  let effectiveSpeed :=
    if -261 <=? stepSpeed c then Z.max 1 (speedCurve (stepSpeed c)) else 1 in
  let groundFriction :=
    match ground c with
    | Some g => if g =? 0 then 150 else g
    | None => 150
    end in
  let rawDuration := 1000 * groundFriction / effectiveSpeed in
  let m :=
    match monster c with
    | Some mo =>
        if isTargetNearby mo && negb (isFleeing mo) && negb (hasMaster mo)
        then 2 else 1
    | None => 1
    end in
  exists ticks,
    ticks mod 50 = 0 /\ rawDuration <= ticks < rawDuration + 50
    /\ getStepDuration c = m * ticks.
Proof.
  intros Hrem Hground Hcurve effectiveSpeed groundFriction rawDuration m.
  assert (Heff : calculatedStepSpeed (stepSpeed c) = effectiveSpeed).
  { subst effectiveSpeed. destruct (-261 <=? stepSpeed c) eqn:Hs.
    - apply Z.leb_le in Hs. apply calculatedStepSpeed_max; auto.
    - rewrite calculatedStepSpeed_guard, Hs. reflexivity. }
  assert (Hgs : groundSpeed c = groundFriction) by reflexivity.
  assert (Hgr : 0 < groundFriction < 2 ^ 16).
  { subst groundFriction. destruct (ground c) as [g|] eqn:Hg; [|lia].
    specialize (Hground g eq_refl).
    destruct (g =? 0) eqn:Hz; [lia|apply Z.eqb_neq in Hz; lia]. }
  exists (ceil50 rawDuration).
  pose proof (ceil50_spec rawDuration) as [Hmod Hround].
  split; [exact Hmod|]. split; [exact Hround|].
  unfold getStepDuration. rewrite Hrem, Heff, Hgs.
  rewrite wrap_uint32_id by lia. fold rawDuration.
  subst m. destruct (monster c) as [mo|]; [|lia].
  destruct (isTargetNearby mo && negb (isFleeing mo) && negb (hasMaster mo)); lia.
Qed.


(** C4, as the code has it.  For a creature that is not removed, with
    the speed of its ground in the uint16_t range: let the effective speed
    be 1 when the step speed is at most -262 (the guard on -speedB) and
    max(1, floor(A ln(speed / 2 + B) + C + 0.5)) otherwise, the division
    being the integer one; whenever that floor is not negative (it is
    stored in a uint32_t), getStepDuration is m * ticks, where ticks is
    floor(1000 * groundFriction / effectiveSpeed) rounded up to the next
    multiple of 50 and m is 2 for a monster without master whose target
    is nearby and which is not fleeing, 1 for every other creature.  And
    for any speed whatever the effective speed the code computes is at
    least 1. *)
Theorem getStepDuration_formula (c : Creature) :
  isRemoved c = false ->
  (forall g, ground c = Some g -> 0 <= g < 2 ^ 16) ->
  (-261 <= stepSpeed c -> 0 <= speedCurve (stepSpeed c) < 2 ^ 32) ->
  let effectiveSpeed :=
    if -261 <=? stepSpeed c then Z.max 1 (speedCurve (stepSpeed c)) else 1 in
  let groundFriction :=
    match ground c with
    | Some g => if g =? 0 then 150 else g
    | None => 150
    end in
  let rawDuration := 1000 * groundFriction / effectiveSpeed in
  let m :=
    match monster c with
    | Some mo =>
        if isTargetNearby mo && negb (isFleeing mo) && negb (hasMaster mo)
        then 2 else 1
    | None => 1
    end in
  (exists ticks,
     ticks mod 50 = 0 /\ rawDuration <= ticks < rawDuration + 50
     /\ getStepDuration c = m * ticks)
  /\ (forall s, 1 <= calculatedStepSpeed s).
Proof.
  intros Hrem Hground Hcurve. cbv zeta.
  split; [|apply calculatedStepSpeed_min].
  apply (getStepDuration_rounded c Hrem Hground Hcurve).
Qed.

End StepDurationFacts.

(** The wolf's step takes twice a positive multiple of 50, and that
    multiple is what the claimed formula gives. *)
Lemma wolf_step_ticks :
  exists ticks,
    ticks mod 50 = 0 /\ 0 < ticks
    /\ Movement.getStepDuration wolf = 2 * ticks
    /\ getStepDuration_claimed wolf = ticks.
Proof.
  pose proof (speedCurve_range 220 ltac:(vm_compute; split; discriminate))
    as Hrange.
  destruct (getStepDuration_rounded wolf) as (ticks & Hmod & Hround & Hdur);
    [ reflexivity | intros g Hg; discriminate Hg
    | intros _; simpl; lia | ].
  simpl in Hround, Hdur. change (1000 * 150) with 150000 in Hround.
  assert (Hmax : Z.max 1 (Movement.speedCurve 220) = Movement.speedCurve 220)
    by lia.
  rewrite Hmax in Hround.
  assert (Hraw : 6 <= 150000 / Movement.speedCurve 220).
  { apply Z.div_le_lower_bound; lia. }
  exists ticks. repeat split; [exact Hmod | lia | exact Hdur |].
  unfold getStepDuration_claimed, effectiveSpeed_claimed. simpl.
  rewrite Hmax.
  change (1000 * Movement.groundSpeed wolf) with 150000.
  pose proof (ceil50_spec (150000 / Movement.speedCurve 220)) as [Hm2 Hr2].
  (* two multiples of 50 in the same window of 50 *)
  apply Z.mod_divide in Hmod; [|lia]. apply Z.mod_divide in Hm2; [|lia].
  destruct Hmod as [k ->]. destruct Hm2 as [k' Hk']. rewrite Hk' in *. lia.
Qed.

(** C4 as amended, on the wolf: its step takes twice a multiple of 50. *)
Lemma getStepDuration_formula_wolf :
  exists ticks,
    ticks mod 50 = 0 /\ Movement.getStepDuration wolf = 2 * ticks.
Proof.
  pose proof (speedCurve_range 220 ltac:(vm_compute; split; discriminate))
    as Hrange.
  destruct (getStepDuration_formula wolf) as [(ticks & Hmod & _ & Hdur) _];
    [ reflexivity | intros g Hg; discriminate Hg
    | intros _; simpl; lia | ].
  exists ticks. split; [exact Hmod | exact Hdur].
Defined.

(** C4 fails as stated: the wolf is a creature that is not removed and
    stands on a tile, and its step takes twice what the formula gives. *)
Lemma getStepDuration_counterexample :
  Movement.getStepDuration wolf = 2 * getStepDuration_claimed wolf
  /\ Movement.getStepDuration wolf <> getStepDuration_claimed wolf.
Proof.
  destruct wolf_step_ticks as (ticks & _ & Hpos & Hdur & Hcl).
  rewrite Hdur, Hcl. split; lia.
Qed.

(** ** The local walk cache *)

Section WalkCacheFacts.

Import WalkCache.

Variable maxWalkCacheWidth : Z.
Variable maxWalkCacheHeight : Z.

Lemma Position_eqb_eq (p q : Position) : Position_eqb p q = true <-> p = q.
Proof.
  unfold Position_eqb. destruct p as [px py pz], q as [qx qy qz]. simpl. split.
  - intros H. apply andb_prop in H. destruct H as [H Hz].
    apply andb_prop in H. destruct H as [Hx Hy].
    apply Z.eqb_eq in Hx, Hy, Hz. congruence.
  - intros [= -> -> ->]. rewrite !Z.eqb_refl. reflexivity.
Qed.

(** C8, as the code has it.  getWalkCache answers, in this order: 2 when
    the creature does not use the cache, whatever the position; else 0
    when the position is on another floor; else 1 when it is the
    creature's own position; else 2 when it is outside the cached radius;
    else 1 or 0 as the cached cell says walkable or blocked. *)
Theorem getWalkCache_cases (c : Creature) (pos : Position) :
  let dx := getOffsetX pos (position c) in
  let dy := getOffsetY pos (position c) in
  let answer := getWalkCache maxWalkCacheWidth maxWalkCacheHeight c pos in
  (useCacheMap c = false -> answer = 2)
  /\ (useCacheMap c = true -> z pos <> z (position c) -> answer = 0)
  /\ (useCacheMap c = true -> pos = position c -> answer = 1)
  /\ (useCacheMap c = true -> z pos = z (position c) -> pos <> position c ->
      maxWalkCacheWidth < Z.abs dx \/ maxWalkCacheHeight < Z.abs dy ->
      answer = 2)
  /\ (useCacheMap c = true -> z pos = z (position c) -> pos <> position c ->
      Z.abs dx <= maxWalkCacheWidth -> Z.abs dy <= maxWalkCacheHeight ->
      answer = if grid_get (localMapCache c) (maxWalkCacheHeight + dy)
                    (maxWalkCacheWidth + dx)
               then 1 else 0).
Proof.
  intros dx dy answer. subst dx dy answer. unfold getWalkCache.
  repeat split.
  - intros ->. reflexivity.
  - intros -> Hz. simpl.
    destruct (z (position c) =? z pos) eqn:E; [|reflexivity].
    apply Z.eqb_eq in E. congruence.
  - intros -> ->. simpl. rewrite Z.eqb_refl. simpl.
    assert (H : Position_eqb (position c) (position c) = true)
      by (apply Position_eqb_eq; reflexivity).
    rewrite H. reflexivity.
  - intros -> Hz Hne Hout. simpl. rewrite <- Hz, Z.eqb_refl. simpl.
    destruct (Position_eqb pos (position c)) eqn:E;
      [apply Position_eqb_eq in E; contradiction|].
    destruct (_ && _) eqn:Hin; [|reflexivity].
    apply andb_prop in Hin. destruct Hin as [H1 H2].
    apply Z.leb_le in H1, H2. lia.
  - intros -> Hz Hne Hdx Hdy. simpl. rewrite <- Hz, Z.eqb_refl. simpl.
    destruct (Position_eqb pos (position c)) eqn:E;
      [apply Position_eqb_eq in E; contradiction|].
    apply Z.leb_le in Hdx, Hdy. rewrite Hdx, Hdy. reflexivity.
Qed.

End WalkCacheFacts.

(** C8 fails as stated: a position 100 tiles to the east, well outside
    the radius of 11, but one floor up, is answered 0 and not 2; and a
    creature that does not use the cache is answered 2 for its own
    position, not 1. *)
Lemma getWalkCache_counterexample :
  11 < Z.abs (WalkCache.getOffsetX (WalkCache.mkPosition 200 100 6)
                (WalkCache.position scout))
  /\ WalkCache.getWalkCache 11 11 scout (WalkCache.mkPosition 200 100 6) = 0
  /\ WalkCache.getWalkCache 11 11 tourist (WalkCache.position tourist) = 2.
Proof. vm_compute. repeat split. Qed.

(** C8 as amended, on the scout: its own position, the blocked tile, and
    a tile beyond the radius. *)
Lemma getWalkCache_cases_scout :
  WalkCache.getWalkCache 11 11 scout (WalkCache.mkPosition 100 100 7) = 1
  /\ WalkCache.getWalkCache 11 11 scout (WalkCache.mkPosition 95 90 7) = 0
  /\ WalkCache.getWalkCache 11 11 scout (WalkCache.mkPosition 112 100 7) = 2.
Proof.
  split; [|split].
  - destruct (getWalkCache_cases 11 11 scout (WalkCache.mkPosition 100 100 7))
      as (_ & _ & Hself & _).
    apply Hself; reflexivity.
  - destruct (getWalkCache_cases 11 11 scout (WalkCache.mkPosition 95 90 7))
      as (_ & _ & _ & _ & Hin).
    rewrite Hin; try reflexivity; try discriminate;
      vm_compute; discriminate.
  - destruct (getWalkCache_cases 11 11 scout (WalkCache.mkPosition 112 100 7))
      as (_ & _ & _ & Hout & _).
    apply Hout; [reflexivity | reflexivity | discriminate
                 | left; vm_compute; reflexivity].
Defined.

(** *** Shifting the cache against building it anew

    The cache of a creature that has just appeared holds the [view] of
    its position.  Every step north, south, east, west, north-east or
    north-west keeps it so; a step south-east or south-west does not. *)

Section ShiftFacts.

Import WalkCache.

Variable W H : Z.
Hypothesis HW : 0 <= W.
Hypothesis HH : 0 <= H.
Variable tw : Z -> Z -> Z -> bool.

Lemma grid_row_length (g : Grid) (r : Z) :
  grid_wf W H g -> 0 <= r < mapWalkHeight H ->
  length (grid_row g r) = Z.to_nat (mapWalkWidth W).
Proof.
  intros [Hlen Hrows] Hr. unfold grid_row.
  destruct (r <? 0) eqn:E; [apply Z.ltb_lt in E; lia|].
  destruct (g !! Z.to_nat r) as [row|] eqn:Hrow; simpl.
  - rewrite Forall_forall in Hrows. apply Hrows.
    eapply list_elem_of_lookup_2. exact Hrow.
  - apply lookup_ge_None in Hrow. lia.
Qed.

Lemma grid_set_row_wf (g : Grid) (r : Z) (row : list bool) :
  grid_wf W H g -> length row = Z.to_nat (mapWalkWidth W) ->
  grid_wf W H (grid_set_row g r row).
Proof.
  intros [Hlen Hrows] Hrow. unfold grid_set_row.
  destruct (r <? 0); [split; assumption|]. split.
  - rewrite length_insert. exact Hlen.
  - apply Forall_insert; assumption.
Qed.

Lemma grid_row_set_row (g : Grid) (r r' : Z) (row : list bool) :
  grid_wf W H g -> 0 <= r < mapWalkHeight H -> 0 <= r' ->
  grid_row (grid_set_row g r row) r'
  = if r' =? r then row else grid_row g r'.
Proof.
  intros [Hlen _] Hr Hr'. unfold grid_set_row, grid_row.
  destruct (r <? 0) eqn:E; [apply Z.ltb_lt in E; lia|].
  destruct (r' <? 0) eqn:E'; [apply Z.ltb_lt in E'; lia|].
  destruct (r' =? r) eqn:Er.
  - apply Z.eqb_eq in Er. subst r'.
    rewrite list_lookup_insert_eq by lia. reflexivity.
  - apply Z.eqb_neq in Er. rewrite list_lookup_insert_ne by lia. reflexivity.
Qed.

Lemma grid_set_wf (g : Grid) (r c : Z) (b : bool) :
  grid_wf W H g -> 0 <= r < mapWalkHeight H -> grid_wf W H (grid_set g r c b).
Proof.
  intros Hwf Hr. unfold grid_set. destruct (c <? 0); [assumption|].
  apply grid_set_row_wf; [assumption|].
  rewrite length_insert. apply grid_row_length; assumption.
Qed.

Lemma grid_get_set (g : Grid) (r c r' c' : Z) (b : bool) :
  grid_wf W H g -> in_grid W H r c -> 0 <= r' -> 0 <= c' ->
  grid_get (grid_set g r c b) r' c'
  = if (r' =? r) && (c' =? c) then b else grid_get g r' c'.
Proof.
  intros Hwf [Hr Hc] Hr' Hc'. unfold grid_set, grid_get.
  destruct (c <? 0) eqn:E; [apply Z.ltb_lt in E; lia|].
  destruct (c' <? 0) eqn:E'; [apply Z.ltb_lt in E'; lia|].
  rewrite grid_row_set_row by assumption.
  destruct (r' =? r) eqn:Er; simpl; [|reflexivity].
  apply Z.eqb_eq in Er. subst r'.
  pose proof (grid_row_length g r Hwf Hr) as Hlen.
  destruct (c' =? c) eqn:Ec.
  - apply Z.eqb_eq in Ec. subst c'.
    rewrite list_lookup_insert_eq by lia. reflexivity.
  - apply Z.eqb_neq in Ec. rewrite list_lookup_insert_ne by lia. reflexivity.
Qed.

Lemma grid_get_set_row (g : Grid) (r r' c' : Z) (row : list bool) :
  grid_wf W H g -> 0 <= r < mapWalkHeight H -> 0 <= r' -> 0 <= c' ->
  grid_get (grid_set_row g r row) r' c'
  = if r' =? r then default false (row !! Z.to_nat c') else grid_get g r' c'.
Proof.
  intros Hwf Hr Hr' Hc'. unfold grid_get.
  destruct (c' <? 0) eqn:E'; [apply Z.ltb_lt in E'; lia|].
  rewrite grid_row_set_row by assumption.
  destruct (r' =? r); reflexivity.
Qed.

Lemma grid_get_row (g : Grid) (r c : Z) :
  0 <= c -> default false (grid_row g r !! Z.to_nat c) = grid_get g r c.
Proof.
  intros Hc. unfold grid_get.
  destruct (c <? 0) eqn:E; [apply Z.ltb_lt in E; lia|reflexivity].
Qed.

Lemma grid_ext (g1 g2 : Grid) :
  grid_wf W H g1 -> grid_wf W H g2 ->
  (forall r c, in_grid W H r c -> grid_get g1 r c = grid_get g2 r c) ->
  g1 = g2.
Proof.
  intros [Hl1 Hr1] [Hl2 Hr2] Hcells.
  apply list_eq_same_length with (Z.to_nat (mapWalkHeight H)); try assumption.
  intros i row1 row2 Hi Hrow1 Hrow2.
  assert (Hlen1 : length row1 = Z.to_nat (mapWalkWidth W)).
  { rewrite Forall_forall in Hr1. apply Hr1.
    eapply list_elem_of_lookup_2. exact Hrow1. }
  assert (Hlen2 : length row2 = Z.to_nat (mapWalkWidth W)).
  { rewrite Forall_forall in Hr2. apply Hr2.
    eapply list_elem_of_lookup_2. exact Hrow2. }
  apply list_eq_same_length with (Z.to_nat (mapWalkWidth W)); try assumption.
  intros j b1 b2 Hj Hb1 Hb2.
  specialize (Hcells (Z.of_nat i) (Z.of_nat j)).
  unfold grid_get, grid_row in Hcells.
  destruct (Z.of_nat j <? 0) eqn:Ej; [apply Z.ltb_lt in Ej; lia|].
  destruct (Z.of_nat i <? 0) eqn:Ei; [apply Z.ltb_lt in Ei; lia|].
  rewrite !Nat2Z.id in Hcells. rewrite Hrow1, Hrow2 in Hcells. simpl in Hcells.
  rewrite Hb1, Hb2 in Hcells. simpl in Hcells.
  apply Hcells. unfold in_grid. lia.
Qed.


Lemma cells_eq_ext (g : Grid) (f f' : Z -> Z -> bool) :
  cells_eq W H g f -> (forall r c, in_grid W H r c -> f r c = f' r c) -> cells_eq W H g f'.
Proof.
  intros [Hwf Hc] Hff. split; [assumption|].
  intros r c Hin. rewrite Hc by assumption. apply Hff. assumption.
Qed.

Lemma cells_eq_unique (g1 g2 : Grid) (f : Z -> Z -> bool) :
  cells_eq W H g1 f -> cells_eq W H g2 f -> g1 = g2.
Proof.
  intros [Hwf1 Hc1] [Hwf2 Hc2]. apply grid_ext; try assumption.
  intros r c Hin. rewrite Hc1, Hc2 by assumption. reflexivity.
Qed.

(** Loops and their invariants. *)
Lemma for_steps_up_inv {S : Type} (Inv : Z -> S -> Prop) (body : Z -> S -> S)
    (n : nat) :
  forall i s,
    Inv i s ->
    (forall j s', i <= j < i + Z.of_nat n -> Inv j s' -> Inv (j + 1) (body j s')) ->
    Inv (i + Z.of_nat n) (for_steps n i 1 body s).
Proof.
  induction n as [|n IH]; intros i s Hi Hstep; simpl for_steps.
  - replace (i + Z.of_nat 0) with i by lia. exact Hi.
  - replace (i + Z.of_nat (Datatypes.S n)) with ((i + 1) + Z.of_nat n) by lia.
    apply IH.
    + apply Hstep; [lia | exact Hi].
    + intros j s' Hj. apply Hstep. lia.
Qed.

Lemma for_steps_down_inv {S : Type} (Inv : Z -> S -> Prop)
    (body : Z -> S -> S) (n : nat) :
  forall i s,
    Inv i s ->
    (forall j s', i - Z.of_nat n < j <= i -> Inv j s' -> Inv (j - 1) (body j s')) ->
    Inv (i - Z.of_nat n) (for_steps n i (-1) body s).
Proof.
  induction n as [|n IH]; intros i s Hi Hstep; simpl for_steps.
  - replace (i - Z.of_nat 0) with i by lia. exact Hi.
  - replace (i - Z.of_nat (Datatypes.S n)) with ((i - 1) - Z.of_nat n) by lia.
    replace (i + -1) with (i - 1) by lia.
    apply IH.
    + apply Hstep; [lia | exact Hi].
    + intros j s' Hj. apply Hstep. lia.
Qed.

Lemma for_up_inv {S : Type} (Inv : Z -> S -> Prop) (lo hi : Z)
    (body : Z -> S -> S) (s : S) :
  lo <= hi + 1 ->
  Inv lo s ->
  (forall j s', lo <= j <= hi -> Inv j s' -> Inv (j + 1) (body j s')) ->
  Inv (hi + 1) (for_up lo hi body s).
Proof.
  intros Hle Hlo Hstep. unfold for_up.
  replace (hi + 1) with (lo + Z.of_nat (Z.to_nat (hi - lo + 1))) by lia.
  apply for_steps_up_inv; [exact Hlo|].
  intros j s' Hj. apply Hstep. lia.
Qed.

Lemma for_down_inv {S : Type} (Inv : Z -> S -> Prop) (hi lo : Z)
    (body : Z -> S -> S) (s : S) :
  lo <= hi + 1 ->
  Inv hi s ->
  (forall j s', lo <= j <= hi -> Inv j s' -> Inv (j - 1) (body j s')) ->
  Inv (lo - 1) (for_down hi lo body s).
Proof.
  intros Hle Hhi Hstep. unfold for_down.
  replace (lo - 1) with (hi - Z.of_nat (Z.to_nat (hi - lo + 1))) by lia.
  apply for_steps_down_inv; [exact Hhi|].
  intros j s' Hj. apply Hstep. lia.
Qed.

Lemma for_steps_ext {S : Type} (body body' : Z -> S -> S) (n : nat) :
  forall i s,
    (forall j s', i <= j < i + Z.of_nat n -> body j s' = body' j s') ->
    for_steps n i 1 body s = for_steps n i 1 body' s.
Proof.
  induction n as [|n IH]; intros i s Hext; simpl; [reflexivity|].
  rewrite Hext by lia. apply IH. intros j s' Hj. apply Hext. lia.
Qed.

Lemma for_up_ext {S : Type} (body body' : Z -> S -> S) (lo hi : Z) (s : S) :
  (forall j s', lo <= j <= hi -> body j s' = body' j s') ->
  for_up lo hi body s = for_up lo hi body' s.
Proof.
  intros Hext. unfold for_up. apply for_steps_ext.
  intros j s' Hj. apply Hext. lia.
Qed.

Ltac cell_cases :=
  repeat match goal with
    | |- context [?a =? ?b] => destruct (Z.eqb_spec a b)
    | |- context [?a <? ?b] => destruct (Z.ltb_spec a b)
    | |- context [?a <=? ?b] => destruct (Z.leb_spec a b)
    end;
  simpl; try lia; try reflexivity; try (f_equal; lia).

Lemma mapWalk_pos : 0 < mapWalkWidth W /\ 0 < mapWalkHeight H.
Proof. unfold mapWalkWidth, mapWalkHeight. lia. Qed.

(** One cell written by offset. *)
Lemma updateTileCache_offset_cells (g : Grid) (f : Z -> Z -> bool)
    (ok : bool) (dx dy : Z) :
  cells_eq W H g f ->
  cells_eq W H (updateTileCache_offset W H g ok dx dy)
    (fun r c =>
       if (Z.abs dx <=? W) && (Z.abs dy <=? H) && (r =? H + dy) && (c =? W + dx)
       then ok else f r c).
Proof.
  intros [Hwf Hc]. unfold updateTileCache_offset.
  destruct (Z.leb_spec (Z.abs dx) W) as [Hdx|Hdx];
    destruct (Z.leb_spec (Z.abs dy) H) as [Hdy|Hdy]; simpl;
    try (split; [assumption | intros r c Hin; rewrite Hc by assumption; reflexivity]).
  assert (Hin : in_grid W H (H + dy) (W + dx))
    by (unfold in_grid, mapWalkWidth, mapWalkHeight; lia).
  split.
  - apply grid_set_wf; [assumption | apply Hin].
  - intros r c [Hr Hcc]. rewrite grid_get_set by (try assumption; lia).
    destruct ((r =? H + dy) && (c =? W + dx)); [reflexivity|].
    apply Hc. split; assumption.
Qed.

(** The loop that refreshes one row, and the one that refreshes one
    column. *)
Lemma refresh_row_cells (g : Grid) (f : Z -> Z -> bool) (v : Z -> bool)
    (dy : Z) :
  Z.abs dy <= H ->
  cells_eq W H g f ->
  cells_eq W H
    (for_up (- W) W (fun dx g' => updateTileCache_offset W H g' (v dx) dx dy) g)
    (fun r c => if r =? H + dy then v (c - W) else f r c).
Proof.
  intros Hdy Hg.
  pose (Inv := fun (i : Z) (g' : Grid) =>
    cells_eq W H g' (fun r c => if (r =? H + dy) && (c <? W + i)
                            then v (c - W) else f r c)).
  assert (Hend : Inv (W + 1)
            (for_up (- W) W
               (fun dx g' => updateTileCache_offset W H g' (v dx) dx dy) g)).
  { apply for_up_inv; [lia | |].
    - unfold Inv. eapply cells_eq_ext; [exact Hg|].
      intros r c [Hr Hc]. cell_cases.
    - intros j g' Hj Hinv. unfold Inv in *.
      eapply cells_eq_ext; [apply updateTileCache_offset_cells; exact Hinv|].
      intros r c [Hr Hc]. cbv beta. cell_cases. }
  unfold Inv in Hend. eapply cells_eq_ext; [exact Hend|].
  intros r c [Hr Hc]. unfold mapWalkWidth in Hc. cbv beta. cell_cases.
Qed.

Lemma refresh_column_cells (g : Grid) (f : Z -> Z -> bool) (v : Z -> bool)
    (dx : Z) :
  Z.abs dx <= W ->
  cells_eq W H g f ->
  cells_eq W H
    (for_up (- H) H (fun dy g' => updateTileCache_offset W H g' (v dy) dx dy) g)
    (fun r c => if c =? W + dx then v (r - H) else f r c).
Proof.
  intros Hdx Hg.
  pose (Inv := fun (i : Z) (g' : Grid) =>
    cells_eq W H g' (fun r c => if (c =? W + dx) && (r <? H + i)
                            then v (r - H) else f r c)).
  assert (Hend : Inv (H + 1)
            (for_up (- H) H
               (fun dy g' => updateTileCache_offset W H g' (v dy) dx dy) g)).
  { apply for_up_inv; [lia | |].
    - unfold Inv. eapply cells_eq_ext; [exact Hg|].
      intros r c [Hr Hc]. cell_cases.
    - intros j g' Hj Hinv. unfold Inv in *.
      eapply cells_eq_ext; [apply updateTileCache_offset_cells; exact Hinv|].
      intros r c [Hr Hc]. cbv beta. cell_cases. }
  unfold Inv in Hend. eapply cells_eq_ext; [exact Hend|].
  intros r c [Hr Hc]. unfold mapWalkHeight in Hr. cbv beta. cell_cases.
Qed.


Lemma wrap_uint16_id (n : Z) : 0 <= n < 65536 -> wrap_uint16 n = n.
Proof. intros Hn. unfold wrap_uint16, wrap_unsigned. apply Z.mod_small. lia. Qed.

Lemma blank_grid_wf : grid_wf W H (blank_grid W H).
Proof.
  unfold blank_grid. split.
  - apply length_replicate.
  - apply Forall_replicate. apply length_replicate.
Qed.

Lemma updateMapCache_view (p : Position) (g : Grid) :
  inside_map W H p -> grid_wf W H g ->
  cells_eq W H (updateMapCache_grid W H tw p g) (view W H tw p).
Proof.
  intros (Hx1 & Hx2 & Hy1 & Hy2) Hwf. unfold updateMapCache_grid.
  pose (Inv := fun (i : Z) (g' : Grid) =>
    cells_eq W H g' (fun r c => if r <? H + i then view W H tw p r c else grid_get g r c)).
  match goal with
  | |- cells_eq W H ?loop _ => assert (Hend : Inv (H + 1) loop)
  end.
  { apply for_up_inv; [lia | |].
    - unfold Inv. split; [assumption|]. intros r c [Hr Hc]. cell_cases.
    - intros j g' Hj Hinv. unfold Inv in *.
      assert (Habs : Z.abs j <= H) by lia.
      pose proof (refresh_row_cells g' _
                    (fun dx => tw (x p + dx) (y p + j) (z p)) j Habs Hinv)
        as Hrow.
      rewrite (for_up_ext _
                 (fun dx g'' =>
                    updateTileCache_offset W H g''
                      (tw (x p + dx) (y p + j) (z p)) dx j)).
      + eapply cells_eq_ext; [exact Hrow|].
        intros r c [Hr Hc]. cbv beta. unfold view. cell_cases.
      + intros dx g'' Hdx. cbv beta.
        rewrite !wrap_uint16_id by lia.
        unfold updateTileCache, getOffsetX, getOffsetY. simpl.
        rewrite Z.eqb_refl.
        replace (x p + dx - x p) with dx by lia.
        replace (y p + j - y p) with j by lia. reflexivity. }
  unfold Inv in Hend. eapply cells_eq_ext; [exact Hend|].
  intros r c [Hr Hc]. unfold mapWalkHeight in Hr. cbv beta. cell_cases.
Qed.

(** The four shifts. *)
Lemma shift_south_cells (g : Grid) (f : Z -> Z -> bool) :
  cells_eq W H g f ->
  cells_eq W H
    (for_down (mapWalkHeight H - 2) 0
       (fun r g' => grid_set_row g' (r + 1) (grid_row g' r)) g)
    (fun r c => if 0 <? r then f (r - 1) c else f r c).
Proof.
  intros Hg.
  pose (Inv := fun (i : Z) (g' : Grid) =>
    cells_eq W H g' (fun r c => if i + 1 <? r then f (r - 1) c else f r c)).
  match goal with
  | |- cells_eq W H ?loop _ => assert (Hend : Inv (0 - 1) loop)
  end.
  { apply for_down_inv; [unfold mapWalkHeight; lia | |].
    - unfold Inv. eapply cells_eq_ext; [exact Hg|].
      intros r c [Hr Hc]. cell_cases.
    - intros j g' Hj [Hwf Hc]. unfold Inv. split.
      + apply grid_set_row_wf; [assumption|].
        apply grid_row_length; [assumption | lia].
      + intros r c [Hr Hcc].
        rewrite grid_get_set_row by (try assumption; lia).
        destruct (Z.eqb_spec r (j + 1)) as [->|Hne].
        * rewrite grid_get_row by lia.
          rewrite Hc by (unfold in_grid; lia). cell_cases.
        * rewrite Hc by (unfold in_grid; lia). cell_cases. }
  unfold Inv in Hend. eapply cells_eq_ext; [exact Hend|].
  intros r c [Hr Hc]. cbv beta. cell_cases.
Qed.

Lemma shift_north_cells (g : Grid) (f : Z -> Z -> bool) :
  cells_eq W H g f ->
  cells_eq W H
    (for_up 0 (mapWalkHeight H - 2)
       (fun r g' => grid_set_row g' r (grid_row g' (r + 1))) g)
    (fun r c => if r <? mapWalkHeight H - 1 then f (r + 1) c else f r c).
Proof.
  intros Hg.
  pose (Inv := fun (i : Z) (g' : Grid) =>
    cells_eq W H g' (fun r c => if r <? i then f (r + 1) c else f r c)).
  match goal with
  | |- cells_eq W H ?loop _ => assert (Hend : Inv (mapWalkHeight H - 2 + 1) loop)
  end.
  { apply for_up_inv; [unfold mapWalkHeight; lia | |].
    - unfold Inv. eapply cells_eq_ext; [exact Hg|].
      intros r c [Hr Hc]. cell_cases.
    - intros j g' Hj [Hwf Hc]. unfold Inv. split.
      + apply grid_set_row_wf; [assumption|].
        apply grid_row_length; [assumption | lia].
      + intros r c [Hr Hcc].
        rewrite grid_get_set_row by (try assumption; lia).
        destruct (Z.eqb_spec r j) as [->|Hne].
        * rewrite grid_get_row by lia.
          rewrite Hc by (unfold in_grid; lia). cell_cases.
        * rewrite Hc by (unfold in_grid; lia). cell_cases. }
  unfold Inv in Hend. eapply cells_eq_ext; [exact Hend|].
  intros r c [Hr Hc]. cbv beta. cell_cases.
Qed.

Lemma shift_west_row_cells (g : Grid) (f : Z -> Z -> bool) (r0 : Z) :
  0 <= r0 < mapWalkHeight H ->
  cells_eq W H g f ->
  cells_eq W H
    (for_up 0 (mapWalkWidth W - 2)
       (fun col g' => grid_set g' r0 col (grid_get g' r0 (col + 1))) g)
    (fun r c => if (r =? r0) && (c <? mapWalkWidth W - 1)
                then f r (c + 1) else f r c).
Proof.
  intros Hr0 Hg.
  pose (Inv := fun (i : Z) (g' : Grid) =>
    cells_eq W H g' (fun r c => if (r =? r0) && (c <? i)
                            then f r (c + 1) else f r c)).
  match goal with
  | |- cells_eq W H ?loop _ => assert (Hend : Inv (mapWalkWidth W - 2 + 1) loop)
  end.
  { apply for_up_inv; [unfold mapWalkWidth; lia | |].
    - unfold Inv. eapply cells_eq_ext; [exact Hg|].
      intros r c [Hr Hc]. cell_cases.
    - intros j g' Hj [Hwf Hc]. unfold Inv. split.
      + apply grid_set_wf; assumption.
      + intros r c [Hr Hcc].
        rewrite grid_get_set by (try assumption; unfold in_grid; lia).
        rewrite !Hc by (unfold in_grid; lia). cell_cases. }
  unfold Inv in Hend. eapply cells_eq_ext; [exact Hend|].
  intros r c [Hr Hc]. cbv beta. cell_cases.
Qed.

Lemma shift_east_row_cells (g : Grid) (f : Z -> Z -> bool) (r0 : Z) :
  0 <= r0 < mapWalkHeight H ->
  cells_eq W H g f ->
  cells_eq W H
    (for_down (mapWalkWidth W - 2) 0
       (fun col g' => grid_set g' r0 (col + 1) (grid_get g' r0 col)) g)
    (fun r c => if (r =? r0) && (0 <? c) then f r (c - 1) else f r c).
Proof.
  intros Hr0 Hg.
  pose (Inv := fun (i : Z) (g' : Grid) =>
    cells_eq W H g' (fun r c => if (r =? r0) && (i + 1 <? c)
                            then f r (c - 1) else f r c)).
  match goal with
  | |- cells_eq W H ?loop _ => assert (Hend : Inv (0 - 1) loop)
  end.
  { apply for_down_inv; [unfold mapWalkWidth; lia | |].
    - unfold Inv. eapply cells_eq_ext; [exact Hg|].
      intros r c [Hr Hc]. cell_cases.
    - intros j g' Hj [Hwf Hc]. unfold Inv. split.
      + apply grid_set_wf; assumption.
      + intros r c [Hr Hcc].
        rewrite grid_get_set by (try assumption; unfold in_grid; lia).
        rewrite !Hc by (unfold in_grid; lia). cell_cases. }
  unfold Inv in Hend. eapply cells_eq_ext; [exact Hend|].
  intros r c [Hr Hc]. cbv beta. cell_cases.
Qed.

(** The rows from [starty] on shifted west, or east. *)
Lemma shift_west_cells (g : Grid) (f : Z -> Z -> bool) (starty : Z) :
  0 <= starty <= mapWalkHeight H ->
  cells_eq W H g f ->
  cells_eq W H
    (for_up starty (mapWalkHeight H - 1)
       (fun r g' =>
          for_up 0 (mapWalkWidth W - 2)
            (fun col g'' => grid_set g'' r col (grid_get g'' r (col + 1))) g')
       g)
    (fun r c => if (starty <=? r) && (c <? mapWalkWidth W - 1)
                then f r (c + 1) else f r c).
Proof.
  intros Hs Hg.
  pose (Inv := fun (i : Z) (g' : Grid) =>
    cells_eq W H g' (fun r c => if (starty <=? r) && (r <? i)
                               && (c <? mapWalkWidth W - 1)
                            then f r (c + 1) else f r c)).
  match goal with
  | |- cells_eq W H ?loop _ => assert (Hend : Inv (mapWalkHeight H - 1 + 1) loop)
  end.
  { apply for_up_inv; [lia | |].
    - unfold Inv. eapply cells_eq_ext; [exact Hg|].
      intros r c [Hr Hc]. cell_cases.
    - intros j g' Hj Hinv. unfold Inv in *.
      eapply cells_eq_ext;
        [apply shift_west_row_cells; [lia | exact Hinv]|].
      intros r c [Hr Hc]. cbv beta. cell_cases. }
  unfold Inv in Hend. eapply cells_eq_ext; [exact Hend|].
  intros r c [Hr Hc]. cbv beta. cell_cases.
Qed.

Lemma shift_east_cells (g : Grid) (f : Z -> Z -> bool) (starty : Z) :
  0 <= starty <= mapWalkHeight H ->
  cells_eq W H g f ->
  cells_eq W H
    (for_up starty (mapWalkHeight H - 1)
       (fun r g' =>
          for_down (mapWalkWidth W - 2) 0
            (fun col g'' => grid_set g'' r (col + 1) (grid_get g'' r col)) g')
       g)
    (fun r c => if (starty <=? r) && (0 <? c) then f r (c - 1) else f r c).
Proof.
  intros Hs Hg.
  pose (Inv := fun (i : Z) (g' : Grid) =>
    cells_eq W H g' (fun r c => if (starty <=? r) && (r <? i) && (0 <? c)
                            then f r (c - 1) else f r c)).
  match goal with
  | |- cells_eq W H ?loop _ => assert (Hend : Inv (mapWalkHeight H - 1 + 1) loop)
  end.
  { apply for_up_inv; [lia | |].
    - unfold Inv. eapply cells_eq_ext; [exact Hg|].
      intros r c [Hr Hc]. cell_cases.
    - intros j g' Hj Hinv. unfold Inv in *.
      eapply cells_eq_ext;
        [apply shift_east_row_cells; [lia | exact Hinv]|].
      intros r c [Hr Hc]. cbv beta. cell_cases. }
  unfold Inv in Hend. eapply cells_eq_ext; [exact Hend|].
  intros r c [Hr Hc]. cbv beta. cell_cases.
Qed.


Lemma getTile_walkable_inside (p : Position) (dx dy : Z) :
  inside_map W H p -> Z.abs dx <= W -> Z.abs dy <= H ->
  getTile_walkable tw (x p + dx) (y p + dy) (z p)
  = tw (x p + dx) (y p + dy) (z p).
Proof.
  intros (Hx1 & Hx2 & Hy1 & Hy2) Hdx Hdy. unfold getTile_walkable.
  rewrite !wrap_uint16_id by lia. reflexivity.
Qed.

(** The rows after a step to the north or to the south. *)
Lemma shift_rows_north (g : Grid) (f : Z -> Z -> bool) (old new : Position) :
  y new < y old -> inside_map W H new -> cells_eq W H g f ->
  cells_eq W H (shift_rows W H tw new old new g)
    (fun r c => if r =? 0 then tw (x new + (c - W)) (y new + - H) (z new)
                else f (r - 1) c).
Proof.
  intros Hy Hin Hg. unfold shift_rows.
  assert (E : (y new <? y old) = true) by (apply Z.ltb_lt; lia). rewrite E.
  pose proof (shift_south_cells g f Hg) as Hshift.
  assert (Habs : Z.abs (- H) <= H) by lia.
  pose proof (refresh_row_cells _ _
                (fun dx => tw (x new + dx) (y new + - H) (z new)) (- H)
                Habs Hshift) as Hrow.
  rewrite (for_up_ext _
             (fun dx g' =>
                updateTileCache_offset W H g'
                  (tw (x new + dx) (y new + - H) (z new)) dx (- H))).
  - eapply cells_eq_ext; [exact Hrow|].
    intros r c [Hr Hc]. cbv beta. cell_cases.
  - intros dx g' Hdx. cbv beta.
    replace (y new - H) with (y new + - H) by lia.
    rewrite getTile_walkable_inside by (try assumption; lia). reflexivity.
Qed.

Lemma shift_rows_south (g : Grid) (f : Z -> Z -> bool) (old new : Position) :
  y old < y new -> inside_map W H new -> cells_eq W H g f ->
  cells_eq W H (shift_rows W H tw new old new g)
    (fun r c => if r =? mapWalkHeight H - 1
                then tw (x new + (c - W)) (y new + H) (z new)
                else f (r + 1) c).
Proof.
  intros Hy Hin Hg. unfold shift_rows.
  assert (E : (y new <? y old) = false) by (apply Z.ltb_ge; lia). rewrite E.
  assert (E' : (y old <? y new) = true) by (apply Z.ltb_lt; lia). rewrite E'.
  pose proof (shift_north_cells g f Hg) as Hshift.
  assert (Habs : Z.abs H <= H) by lia.
  pose proof (refresh_row_cells _ _
                (fun dx => tw (x new + dx) (y new + H) (z new)) H
                Habs Hshift) as Hrow.
  rewrite (for_up_ext _
             (fun dx g' =>
                updateTileCache_offset W H g'
                  (tw (x new + dx) (y new + H) (z new)) dx H)).
  - eapply cells_eq_ext; [exact Hrow|].
    intros r c [Hr Hc]. unfold mapWalkHeight in *. cbv beta. cell_cases.
  - intros dx g' Hdx. cbv beta.
    rewrite getTile_walkable_inside by (try assumption; lia). reflexivity.
Qed.

Lemma shift_rows_level (g : Grid) (old new : Position) :
  y new = y old -> shift_rows W H tw new old new g = g.
Proof.
  intros Hy. unfold shift_rows. rewrite Hy, Z.ltb_irrefl. reflexivity.
Qed.

(** The columns after a step to the east or to the west: the rows from
    [|dy|] on are shifted, whatever the sign of [dy]. *)
Lemma shift_columns_east (g : Grid) (f : Z -> Z -> bool) (old new : Position) :
  x old < x new -> Z.abs (y old - y new) <= 1 -> inside_map W H new ->
  cells_eq W H g f ->
  cells_eq W H (shift_columns W H tw new old new g)
    (fun r c => if c =? mapWalkWidth W - 1
                then tw (x new + W) (y new + (r - H)) (z new)
                else if Z.abs (y old - y new) <=? r then f r (c + 1)
                     else f r c).
Proof.
  intros Hx Hdy Hin Hg. unfold shift_columns, getDistanceY, getOffsetY.
  assert (E : (x old <? x new) = true) by (apply Z.ltb_lt; lia). rewrite E.
  assert (E0 : (Z.abs (y old - y new) <? 0) = false) by (apply Z.ltb_ge; lia).
  rewrite E0.
  assert (Estart : (if 0 <? Z.abs (y old - y new)
                    then Z.abs (y old - y new) else 0)
                   = Z.abs (y old - y new)).
  { destruct (Z.ltb_spec 0 (Z.abs (y old - y new))); lia. }
  rewrite Estart.
  assert (Hs : 0 <= Z.abs (y old - y new) <= mapWalkHeight H)
    by (unfold mapWalkHeight; lia).
  pose proof (shift_west_cells g f _ Hs Hg) as Hshift.
  assert (Habs : Z.abs W <= W) by lia.
  pose proof (refresh_column_cells _ _
                (fun dy => tw (x new + W) (y new + dy) (z new)) W
                Habs Hshift) as Hcol.
  rewrite (for_up_ext _
             (fun dy g' =>
                updateTileCache_offset W H g'
                  (tw (x new + W) (y new + dy) (z new)) W dy)).
  - eapply cells_eq_ext; [exact Hcol|].
    intros r c [Hr Hc]. unfold mapWalkWidth in *. cbv beta. cell_cases.
  - intros dy g' Hdy'. cbv beta.
    rewrite getTile_walkable_inside by (try assumption; lia). reflexivity.
Qed.

Lemma shift_columns_west (g : Grid) (f : Z -> Z -> bool) (old new : Position) :
  x new < x old -> Z.abs (y old - y new) <= 1 -> inside_map W H new ->
  cells_eq W H g f ->
  cells_eq W H (shift_columns W H tw new old new g)
    (fun r c => if c =? 0
                then tw (x new + - W) (y new + (r - H)) (z new)
                else if Z.abs (y old - y new) <=? r then f r (c - 1)
                     else f r c).
Proof.
  intros Hx Hdy Hin Hg. unfold shift_columns, getDistanceY, getOffsetY.
  assert (E : (x old <? x new) = false) by (apply Z.ltb_ge; lia). rewrite E.
  assert (E' : (x new <? x old) = true) by (apply Z.ltb_lt; lia). rewrite E'.
  assert (E0 : (Z.abs (y old - y new) <? 0) = false) by (apply Z.ltb_ge; lia).
  rewrite E0.
  assert (Estart : (if 0 <? Z.abs (y old - y new)
                    then Z.abs (y old - y new) else 0)
                   = Z.abs (y old - y new)).
  { destruct (Z.ltb_spec 0 (Z.abs (y old - y new))); lia. }
  rewrite Estart.
  assert (Hs : 0 <= Z.abs (y old - y new) <= mapWalkHeight H)
    by (unfold mapWalkHeight; lia).
  pose proof (shift_east_cells g f _ Hs Hg) as Hshift.
  assert (Habs : Z.abs (- W) <= W) by lia.
  pose proof (refresh_column_cells _ _
                (fun dy => tw (x new + - W) (y new + dy) (z new)) (- W)
                Habs Hshift) as Hcol.
  rewrite (for_up_ext _
             (fun dy g' =>
                updateTileCache_offset W H g'
                  (tw (x new + - W) (y new + dy) (z new)) (- W) dy)).
  - eapply cells_eq_ext; [exact Hcol|].
    intros r c [Hr Hc]. cbv beta. cell_cases.
  - intros dy g' Hdy'. cbv beta.
    replace (x new - W) with (x new + - W) by lia.
    rewrite getTile_walkable_inside by (try assumption; lia). reflexivity.
Qed.

Lemma shift_columns_level (g : Grid) (old new : Position) :
  x new = x old -> shift_columns W H tw new old new g = g.
Proof.
  intros Hx. unfold shift_columns. rewrite Hx, Z.ltb_irrefl. reflexivity.
Qed.


Lemma updateTileCache_old_cells (g : Grid) (old new : Position) :
  z new = z old -> cells_eq W H g (view W H tw new) ->
  cells_eq W H (updateTileCache W H new g (tw (x old) (y old) (z old)) old)
    (view W H tw new).
Proof.
  intros Hz Hg. unfold updateTileCache. rewrite Hz, Z.eqb_refl.
  eapply cells_eq_ext; [apply updateTileCache_offset_cells; exact Hg|].
  intros r c [Hr Hc]. cbv beta. unfold view, getOffsetX, getOffsetY.
  rewrite Hz. cell_cases.
Qed.

Lemma step_cells (c : Creature) (new : Position) :
  isMapLoaded c = true ->
  cells_eq W H (localMapCache c) (view W H tw (position c)) ->
  inside_map W H new ->
  sound_step (position c) new ->
  cells_eq W H (localMapCache (step W H tw c new)) (view W H tw new).
Proof.
  intros Hloaded Hg Hin (Hz & Hdx & Hdy & Hsound).
  unfold step, onCreatureMove. simpl. rewrite Hloaded.
  assert (Ez : (z (position c) =? z new) = true) by (apply Z.eqb_eq; lia).
  rewrite Ez. simpl.
  apply updateTileCache_old_cells; [exact Hz|].
  set (old := position c) in *.
  assert (Hady : Z.abs (y old - y new) <= 1) by lia.
  destruct (Z.lt_trichotomy (y new) (y old)) as [Hn | [Hl | Hs]].
  - (* north *)
    pose proof (shift_rows_north _ _ old new Hn Hin Hg) as Hrows.
    destruct (Z.lt_trichotomy (x new) (x old)) as [Hw | [Hc | He]].
    + eapply cells_eq_ext;
        [apply shift_columns_west; [lia | exact Hady | exact Hin | exact Hrows]|].
      intros r col [Hr Hcol]. cbv beta. unfold view. rewrite Hz.
      assert (Z.abs (y old - y new) = 1) as -> by lia. cell_cases.
    + rewrite shift_columns_level by lia.
      eapply cells_eq_ext; [exact Hrows|].
      intros r col [Hr Hcol]. cbv beta. unfold view. rewrite Hz. cell_cases.
    + eapply cells_eq_ext;
        [apply shift_columns_east; [lia | exact Hady | exact Hin | exact Hrows]|].
      intros r col [Hr Hcol]. cbv beta. unfold view. rewrite Hz.
      unfold mapWalkWidth in *.
      assert (Z.abs (y old - y new) = 1) as -> by lia. cell_cases.
  - (* level *)
    rewrite shift_rows_level by lia.
    destruct (Z.lt_trichotomy (x new) (x old)) as [Hw | [Hc | He]].
    + eapply cells_eq_ext;
        [apply shift_columns_west; [lia | exact Hady | exact Hin | exact Hg]|].
      intros r col [Hr Hcol]. cbv beta. unfold view. rewrite Hz.
      assert (Z.abs (y old - y new) = 0) as -> by lia. cell_cases.
    + rewrite shift_columns_level by lia.
      eapply cells_eq_ext; [exact Hg|].
      intros r col [Hr Hcol]. unfold view. rewrite Hz. f_equal; lia.
    + eapply cells_eq_ext;
        [apply shift_columns_east; [lia | exact Hady | exact Hin | exact Hg]|].
      intros r col [Hr Hcol]. cbv beta. unfold view. rewrite Hz.
      unfold mapWalkWidth in *.
      assert (Z.abs (y old - y new) = 0) as -> by lia. cell_cases.
  - (* south: the step is not diagonal *)
    assert (Hx : x new = x old) by lia.
    pose proof (shift_rows_south _ _ old new Hs Hin Hg) as Hrows.
    rewrite shift_columns_level by lia.
    eapply cells_eq_ext; [exact Hrows|].
    intros r col [Hr Hcol]. cbv beta. unfold view. rewrite Hz.
    unfold mapWalkHeight in *. cell_cases.
Qed.

Lemma last_cons (a d : Position) (l : list Position) :
  List.last (a :: l) d = List.last l a.
Proof.
  revert a d. induction l as [|b l IH]; intros a d; [reflexivity|].
  change (List.last (a :: b :: l) d) with (List.last (b :: l) d).
  rewrite !IH. reflexivity.
Qed.

Lemma appear_cells (p : Position) :
  inside_map W H p -> cells_eq W H (localMapCache (appear W H tw p)) (view W H tw p).
Proof.
  intros Hin. unfold appear, updateMapCache. simpl.
  apply updateMapCache_view; [exact Hin | apply blank_grid_wf].
Qed.

Lemma step_fields (c : Creature) (new : Position) :
  position (step W H tw c new) = new
  /\ useCacheMap (step W H tw c new) = useCacheMap c
  /\ isMapLoaded (step W H tw c new) = isMapLoaded c.
Proof.
  unfold step, onCreatureMove. simpl.
  destruct (isMapLoaded c) eqn:E; simpl.
  - destruct (negb (z (position c) =? z new)); simpl; auto.
  - auto.
Qed.

(** In a world whose answers stay the same throughout the walk,
    whatever the radius of the cache: a creature that appears inside the
    map and then takes any sequence of steps to neighbouring tiles of its
    floor, none of them to the south-east or south-west, holds the very
    grid it would build from scratch at the position it has reached.
    (The answer for the tile the creature stands on changes as it comes
    and goes; the walk through a changing world, further down, does
    without the assumption.) *)
Theorem walk_sound_path (p : Position) (path : list Position) :
  inside_map W H p -> sound_path W H p path ->
  walk W H tw (appear W H tw p) path = appear W H tw (List.last path p).
Proof.
  intros Hin Hpath.
  assert (Hgen : forall c,
            isMapLoaded c = true -> useCacheMap c = true ->
            cells_eq W H (localMapCache c) (view W H tw (position c)) ->
            sound_path W H (position c) path ->
            let c' := walk W H tw c path in
            position c' = List.last path (position c)
            /\ isMapLoaded c' = true /\ useCacheMap c' = true
            /\ cells_eq W H (localMapCache c') (view W H tw (position c'))).
  { clear Hin Hpath p. induction path as [|next rest IH]; intros c Hl Hu Hg Hp.
    - simpl. auto.
    - destruct Hp as (Hstep & Hnext & Hrest).
      pose proof (step_fields c next) as (Hpos & Huse & Hload).
      pose proof (step_cells c next Hl Hg Hnext Hstep) as Hcells.
      specialize (IH (step W H tw c next)).
      rewrite Hpos, Huse, Hload in IH.
      specialize (IH Hl Hu).
      assert (Hcells' : cells_eq W H (localMapCache (step W H tw c next)) (view W H tw next))
        by exact Hcells.
      specialize (IH Hcells' Hrest).
      simpl walk. cbv zeta in IH. destruct IH as (Hp' & Hl' & Hu' & Hg').
      cbv zeta. split; [|split; [|split]]; try assumption.
      rewrite Hp'. symmetry. apply last_cons. }
  specialize (Hgen (appear W H tw p) eq_refl eq_refl (appear_cells p Hin) Hpath).
  cbv zeta in Hgen. destruct Hgen as (Hpos & Hl & Hu & Hg).
  change (position (appear W H tw p)) with p in Hpos.
  set (c' := walk W H tw (appear W H tw p) path) in *.
  assert (Hlast_in : inside_map W H (List.last path p)).
  { clear -Hin Hpath. revert p Hin Hpath.
    induction path as [|next rest IH]; intros p Hin Hpath; [exact Hin|].
    destruct Hpath as (_ & Hnext & Hrest).
    rewrite last_cons.
    apply IH; assumption. }
  pose proof (appear_cells _ Hlast_in) as Hreb.
  rewrite <- Hpos in Hreb at 2.
  pose proof (cells_eq_unique _ _ _ Hg Hreb) as Hgrid.
  destruct c' as [pos use loaded grid]. simpl in *. subst.
  unfold appear, updateMapCache. simpl. reflexivity.
Qed.


(** Row 0 after a step to the south-east: it still holds the tiles it
    held before the step, one column off (but for the cell that stands for
    the tile the creature left, which is written last). *)
Lemma step_southeast_row0 (c : Creature) (new : Position) (col : Z) :
  1 <= H ->
  isMapLoaded c = true ->
  cells_eq W H (localMapCache c) (view W H tw (position c)) ->
  inside_map W H new ->
  z new = z (position c) ->
  x new = x (position c) + 1 -> y new = y (position c) + 1 ->
  0 <= col < mapWalkWidth W - 1 ->
  H <> 1 \/ col <> W - 1 ->
  grid_get (localMapCache (step W H tw c new)) 0 col
  = tw (x new - 1 + col - W) (y new - H) (z new).
Proof.
  intros HH1 Hloaded Hg Hin Hz Hx Hy Hcol Hcell.
  unfold step, onCreatureMove. simpl. rewrite Hloaded.
  assert (Ez : (z (position c) =? z new) = true) by (apply Z.eqb_eq; lia).
  rewrite Ez. simpl.
  set (old := position c) in *.
  assert (Hady : Z.abs (y old - y new) <= 1) by lia.
  pose proof (shift_rows_south _ _ old new ltac:(lia) Hin Hg) as Hrows.
  pose proof (shift_columns_east _ _ old new ltac:(lia) Hady Hin Hrows)
    as Hcols.
  unfold updateTileCache. rewrite Hz, Z.eqb_refl.
  pose proof (updateTileCache_offset_cells _ _
                (tw (x old) (y old) (z old))
                (getOffsetX old new) (getOffsetY old new) Hcols) as [_ Hfinal].
  rewrite Hz in Hfinal. rewrite Hfinal
    by (unfold in_grid, mapWalkHeight, mapWalkWidth in *; lia).
  unfold getOffsetX, getOffsetY, view, mapWalkHeight, mapWalkWidth in *.
  assert (Z.abs (y old - y new) = 1) as -> by lia.
  rewrite ?Hz. destruct Hcell; cell_cases.
Qed.

End ShiftFacts.

(** C2, in general: in the world of stripes a step to the south-east
    leaves a cache that is not the one built from scratch, whatever the
    radius (from 1 on) and wherever the creature is inside the map. *)
Theorem step_southeast_diverges (W H : Z) (p : WalkCache.Position) :
  1 <= W -> 1 <= H ->
  let new := WalkCache.mkPosition (WalkCache.x p + 1) (WalkCache.y p + 1)
               (WalkCache.z p) in
  inside_map W H p -> inside_map W H new ->
  WalkCache.walk W H stripes (WalkCache.appear W H stripes p) [new]
  <> WalkCache.appear W H stripes new.
Proof.
  intros HW1 HH1 new Hp Hnew Heq.
  assert (HW : 0 <= W) by lia. assert (HH : 0 <= H) by lia.
  pose proof (appear_cells W H HW HH stripes p Hp) as Hold.
  pose proof (appear_cells W H HW HH stripes new Hnew) as [_ Hreb].
  assert (Hcell : exists col,
            0 <= col < WalkCache.mapWalkWidth W - 1 /\ (H <> 1 \/ col <> W - 1)).
  { destruct (Z.eq_dec W 1) as [->|HW'].
    - exists 1. unfold WalkCache.mapWalkWidth. lia.
    - exists 0. unfold WalkCache.mapWalkWidth. lia. }
  destruct Hcell as (col & Hcol & Hother).
  pose proof (step_southeast_row0 W H HW HH stripes
                (WalkCache.appear W H stripes p) new col HH1 eq_refl Hold Hnew
                eq_refl eq_refl eq_refl Hcol Hother) as Hshift.
  simpl WalkCache.walk in Heq. rewrite Heq in Hshift.
  rewrite Hreb in Hshift
    by (unfold in_grid, WalkCache.mapWalkHeight, WalkCache.mapWalkWidth in *; lia).
  unfold view, stripes in Hshift.
  replace (WalkCache.x new + col - W) with (Z.succ (WalkCache.x new - 1 + col - W))
    in Hshift by lia.
  rewrite Z.even_succ, <- Z.negb_even in Hshift.
  destruct (Z.even (WalkCache.x new - 1 + col - W)); discriminate.
Qed.

(** The scout walks north, north-east, west and south again: its cache
    is the one it would build from scratch where it ends. *)
Lemma walk_sound_path_scout :
  WalkCache.walk 11 11 wall_95_90 scout
    [WalkCache.mkPosition 100 99 7; WalkCache.mkPosition 101 98 7;
     WalkCache.mkPosition 100 98 7; WalkCache.mkPosition 100 99 7]
  = WalkCache.appear 11 11 wall_95_90 (WalkCache.mkPosition 100 99 7).
Proof.
  apply (walk_sound_path 11 11 ltac:(lia) ltac:(lia) wall_95_90
           (WalkCache.mkPosition 100 100 7)).
  - unfold inside_map. simpl. lia.
  - unfold sound_path, sound_step, inside_map. simpl. lia.
Defined.

(** The same scout in the world of stripes, one step to the
    south-east. *)
Lemma step_southeast_diverges_scout :
  WalkCache.walk 11 11 stripes
    (WalkCache.appear 11 11 stripes (WalkCache.mkPosition 100 100 7))
    [WalkCache.mkPosition 101 101 7]
  <> WalkCache.appear 11 11 stripes (WalkCache.mkPosition 101 101 7).
Proof.
  apply (step_southeast_diverges 11 11 (WalkCache.mkPosition 100 100 7));
    try lia; unfold inside_map; simpl; lia.
Defined.

(** C2: the step that the incremental maintenance gets wrong.  The scout
    walks one tile to the south-east.  Its cache then says that the
    blocked tile (95, 90) is walkable and that the free tile (96, 90) is
    blocked; the cache built from scratch at the new position says the
    opposite, as the world does. *)
Theorem onCreatureMove_southeast_diverges :
  let here := WalkCache.mkPosition 101 101 7 in
  let shifted := WalkCache.walk 11 11 wall_95_90 scout [here] in
  let rebuilt := WalkCache.appear 11 11 wall_95_90 here in
  WalkCache.position shifted = WalkCache.position rebuilt
  /\ WalkCache.getWalkCache 11 11 shifted (WalkCache.mkPosition 95 90 7) = 1
  /\ WalkCache.getWalkCache 11 11 rebuilt (WalkCache.mkPosition 95 90 7) = 0
  /\ WalkCache.getWalkCache 11 11 shifted (WalkCache.mkPosition 96 90 7) = 0
  /\ WalkCache.getWalkCache 11 11 rebuilt (WalkCache.mkPosition 96 90 7) = 1
  /\ WalkCache.localMapCache shifted <> WalkCache.localMapCache rebuilt.
Proof.
  vm_compute. repeat split. discriminate.
Qed.

(** Whatever the world, the cache of a creature that stepped from
    (100, 100) to the south-east answers for the tile (95, 90) what the
    world says of its western neighbour (94, 90): row 0 of the grid was
    not shifted.  The cache built from scratch answers for the tile
    itself. *)
Lemma onCreatureMove_southeast_reads_neighbour
    (tileWalkable : Z -> Z -> Z -> bool) :
  let here := WalkCache.mkPosition 101 101 7 in
  let shifted :=
    WalkCache.walk 11 11 tileWalkable
      (WalkCache.appear 11 11 tileWalkable (WalkCache.mkPosition 100 100 7))
      [here] in
  let rebuilt := WalkCache.appear 11 11 tileWalkable here in
  WalkCache.getWalkCache 11 11 shifted (WalkCache.mkPosition 95 90 7)
  = (if tileWalkable 94 90 7 then 1 else 0)
  /\ WalkCache.getWalkCache 11 11 rebuilt (WalkCache.mkPosition 95 90 7)
     = (if tileWalkable 95 90 7 then 1 else 0).
Proof. vm_compute. split; reflexivity. Qed.

(** The step south-west fails like the one south-east. *)
Lemma onCreatureMove_southwest_diverges :
  WalkCache.walk 11 11 wall_95_90 scout [WalkCache.mkPosition 99 101 7]
  <> WalkCache.appear 11 11 wall_95_90 (WalkCache.mkPosition 99 101 7).
Proof. vm_compute. discriminate. Qed.

(** ** The master/summon graph *)

Section OwnershipFacts.

Import Ownership.

Lemma getMaster_insert (w : World) (k j : Z) (n : Node) :
  getMaster (<[j := n]> w) k = if decide (j = k) then master n else getMaster w k.
Proof. unfold getMaster. rewrite lookup_total_insert. destruct (decide _); reflexivity. Qed.

Lemma getSummons_insert (w : World) (k j : Z) (n : Node) :
  getSummons (<[j := n]> w) k
  = if decide (j = k) then summons n else getSummons w k.
Proof. unfold getSummons. rewrite lookup_total_insert. destruct (decide _); reflexivity. Qed.

(** Adding a summon to a creature leaves every master reference as it
    was. *)
Lemma getMaster_insert_summons (w : World) (k m : Z) (l : list Z) :
  getMaster (<[m := mkNode (getMaster w m) l]> w) k = getMaster w k.
Proof.
  rewrite getMaster_insert. destruct (decide (m = k)); subst; reflexivity.
Qed.



Lemma onGainExperience_unfold (w : World) (self : Z) (gainExp : N) :
  onGainExperience w self gainExp
  = (self, gainExp)
    :: match getMaster w self with
       | Some m =>
           if (gainExp =? 0)%N then []
           else onGainExperience w m (gainExp / 2)%N
       | None => []
       end.
Proof.
  funelim (onGainExperience w self gainExp).
  - subst gainExp. simpl. destruct (getMaster w self); reflexivity.
  - rewrite Heq. destruct (gainExp =? 0)%N eqn:E; [|reflexivity].
    apply N.eqb_eq in E. contradiction.
  - rewrite Heq. reflexivity.
Qed.

Lemma onGainExperience_halving (w : World) (self : Z) (gainExp : N) :
  halving_chain w (onGainExperience w self gainExp).
Proof.
  funelim (onGainExperience w self gainExp); simpl; auto.
  rewrite (onGainExperience_unfold w m (gainExp / 2)%N) in *.
  repeat split; auto.
Qed.

Lemma onGainExperience_total (w : World) (self : Z) (gainExp : N) :
  (total_awarded (onGainExperience w self gainExp) <= 2 * gainExp - 1
   \/ gainExp = 0)%N
  /\ (gainExp = 0%N -> total_awarded (onGainExperience w self gainExp) = 0%N).
Proof.
  funelim (onGainExperience w self gainExp); simpl.
  - split; [right; assumption | intros _; subst gainExp; reflexivity].
  - split; [|intros ->; contradiction]. left.
    destruct H as [[Hle | Hz] Hzero].
    + assert (2 * (gainExp / 2) <= gainExp)%N
        by (apply N.Div0.mul_div_le).
      lia.
    + rewrite (Hzero Hz). lia.
  - split; [left; lia | intros ->; reflexivity].
Qed.

Lemma N_size_half (n : N) : n <> 0%N -> (N.size (n / 2) + 1 = N.size n)%N.
Proof.
  intros Hn. rewrite <- N.div2_div.
  destruct n as [|[p|p|]]; try contradiction;
    rewrite N.add_1_r; reflexivity.
Qed.

Lemma onGainExperience_length (w : World) (self : Z) (gainExp : N) :
  (length (onGainExperience w self gainExp) <= N.to_nat (N.size gainExp) + 1)%nat.
Proof.
  funelim (onGainExperience w self gainExp); simpl; try lia.
  pose proof (N_size_half gainExp Hne). lia.
Qed.

(** C9. A call of onGainExperience with amount E on a creature is
    followed, when E > 0 and the creature has a master, by a call on the
    master with floor(E / 2), and so on up the chain: each call gets half
    of what the call before it got.  The amounts add up to less than 2E
    when E > 0.  The chain of calls always ends, in at most one call more
    than E has binary digits (65 for a uint64_t), whatever the shape of
    the master graph. *)
Theorem onGainExperience_chain (w : World) (self : Z) (gainExp : N) :
  onGainExperience w self gainExp
  = (self, gainExp)
    :: match getMaster w self with
       | Some m =>
           if (gainExp =? 0)%N then []
           else onGainExperience w m (gainExp / 2)%N
       | None => []
       end
  /\ halving_chain w (onGainExperience w self gainExp)
  /\ ((0 < gainExp)%N ->
      (total_awarded (onGainExperience w self gainExp) < 2 * gainExp)%N)
  /\ (length (onGainExperience w self gainExp)
      <= N.to_nat (N.size gainExp) + 1)%nat
  /\ ((gainExp < 2 ^ 64)%N ->
      (length (onGainExperience w self gainExp) <= 65)%nat).
Proof.
  split; [apply onGainExperience_unfold|].
  split; [apply onGainExperience_halving|].
  split; [|split; [apply onGainExperience_length|]].
  - intros Hpos.
    destruct (onGainExperience_total w self gainExp) as [[Hle | Hz] _]; lia.
  - intros Hlt. pose proof (onGainExperience_length w self gainExp) as Hlen.
    assert (N.size gainExp <= 64)%N; [|lia].
    destruct (N.eq_dec gainExp 0%N) as [->|Hne]; [simpl; lia|].
    rewrite N.size_log2 by assumption.
    assert (N.log2 gainExp < 64)%N; [|lia].
    apply N.log2_lt_pow2; lia.
Qed.

End OwnershipFacts.


(** C9 on the coven: the imp gains 101 experience, the demon 50, the
    sorcerer 25; 176 in all, less than 202. *)
Lemma onGainExperience_chain_coven :
  Ownership.onGainExperience coven 3 101%N
  = [(3, 101%N); (2, 50%N); (1, 25%N)]
  /\ (total_awarded (Ownership.onGainExperience coven 3 101%N) < 2 * 101)%N.
Proof.
  split; [reflexivity|].
  apply (onGainExperience_chain coven 3 101%N). reflexivity.
Defined.

(** ** Rounds of combat *)

Section RoundFacts.

Import Combat CombatRounds.

Variable uniform_random : Z -> Z -> Z.

Lemma int32_bounds (n : Z) :
  is_int32 n <-> -2147483648 <= n <= 2147483647.
Proof. unfold is_int32, INT32_MIN, INT32_MAX. lia. Qed.

Lemma wrap_int32_small (n : Z) :
  -2147483648 <= n <= 2147483647 -> wrap_int32 n = n.
Proof. intros H. apply wrap_int32_id, int32_bounds, H. Qed.

Lemma defense_roll_bounds (d : Z) :
  fair_random uniform_random -> 0 <= d ->
  0 <= uniform_random (d ÷ 2) d <= d.
Proof.
  intros Hr Hd.
  assert (0 <= d ÷ 2 <= d).
  { pose proof (Z.quot_rem' d 2).
    assert (0 <= Z.rem d 2 < 2) by (apply Z.rem_bound_pos; lia). lia. }
  pose proof (Hr (d ÷ 2) d ltac:(lia)). lia.
Qed.

Lemma armor_roll_bounds (a : Z) :
  fair_random uniform_random -> 3 < a ->
  0 <= uniform_random (a ÷ 2) (a - (Z.rem a 2 + 1)) <= a.
Proof.
  intros Hr Ha.
  pose proof (Z.quot_rem' a 2).
  assert (0 <= Z.rem a 2 < 2) by (apply Z.rem_bound_pos; lia).
  pose proof (Hr (a ÷ 2) (a - (Z.rem a 2 + 1)) ltac:(lia)). lia.
Qed.

Lemma blockHit_mitigate_bounds (c : Creature) (combatType : CombatType_t)
    (damage : Z) (checkDefense checkArmor : bool) :
  fair_random uniform_random ->
  0 <= defense c <= INT32_MAX -> 0 <= armor c <= INT32_MAX ->
  0 <= damage <= INT32_MAX ->
  forall bt dmg bc evs,
    blockHit_mitigate uniform_random c combatType damage checkDefense checkArmor
    = (bt, dmg, bc, evs) ->
    dmg <= damage /\ (0 < dmg -> bt = BLOCK_NONE).
Proof.
  intros Hr Hd Ha Hdmg bt dmg bc evs.
  unfold INT32_MAX in *. change (2 ^ 31 - 1) with 2147483647 in *.
  unfold blockHit_mitigate, getDefense, getArmor.
  destruct (isImmune c combatType); [intros [= <- <- <- <-]; split; lia|].
  destruct (checkDefense || checkArmor);
    [|intros [= <- <- <- <-]; split; [lia|reflexivity]].
  pose proof (defense_roll_bounds (defense c) Hr ltac:(lia)) as Hroll.
  assert (Harm : forall d, 0 <= d <= damage ->
    let d' := if 3 <? armor c
              then wrap_int32 (d - uniform_random (armor c ÷ 2)
                                     (armor c - (Z.rem (armor c) 2 + 1)))
              else if 0 <? armor c then wrap_int32 (d - 1) else d in
    d' <= d).
  { intros d Hdd. simpl. destruct (3 <? armor c) eqn:H3.
    - apply Z.ltb_lt in H3. pose proof (armor_roll_bounds _ Hr H3).
      rewrite wrap_int32_small by lia. lia.
    - destruct (0 <? armor c); [rewrite wrap_int32_small by lia|]; lia. }
  destruct (checkDefense && (0 <? blockCount c) && canUseDefense c).
  - rewrite wrap_int32_small by lia.
    destruct (_ <=? 0) eqn:E0.
    + intros [= <- <- <- <-]. split; lia.
    + apply Z.leb_gt in E0. destruct checkArmor.
      * specialize (Harm (damage - uniform_random (defense c ÷ 2) (defense c))
                      ltac:(lia)). simpl in Harm.
        destruct (_ <=? 0) eqn:E1; intros [= <- <- <- <-].
        -- split; lia.
        -- apply Z.leb_gt in E1. split; [lia|reflexivity].
      * intros [= <- <- <- <-]. split; [lia|reflexivity].
  - destruct checkArmor.
    + specialize (Harm damage ltac:(lia)). simpl in Harm.
      destruct (_ <=? 0) eqn:E1; intros [= <- <- <- <-].
      * split; lia.
      * split; [lia|reflexivity].
    + intros [= <- <- <- <-]. split; [lia|reflexivity].
Qed.

(** X5. blockHit never makes a hit worse: with a random source that
    draws within the range it is given, a defense and an armor that are
    not negative and a damage between 0 and INT32_MAX, the damage given
    back lies between 0 and the damage passed in, and the answer is
    BLOCK_NONE when some damage is left and BLOCK_ARMOR when none is. *)
Theorem blockHit_never_amplifies (c : Creature) (attacker : option Attacker)
    (combatType : CombatType_t) (damage : Z) (checkDefense checkArmor : bool) :
  fair_random uniform_random ->
  0 <= defense c <= INT32_MAX -> 0 <= armor c <= INT32_MAX ->
  0 <= damage <= INT32_MAX ->
  let r := blockHit uniform_random c attacker combatType damage checkDefense
             checkArmor in
  0 <= damageOut r <= damage
  /\ (0 < damageOut r -> blockType r = BLOCK_NONE)
  /\ (damageOut r = 0 -> blockType r = BLOCK_ARMOR).
Proof.
  intros Hr Hd Ha Hdmg r. subst r. unfold blockHit.
  destruct (blockHit_mitigate _ _ _ _ _ _) as [[[bt dmg] bc] evs] eqn:Hm.
  destruct (blockHit_mitigate_bounds _ _ _ _ _ Hr Hd Ha Hdmg _ _ _ _ Hm)
    as [Hle Hnone].
  destruct (dmg <=? 0) eqn:E; simpl.
  - split; [lia|]. split; [lia|reflexivity].
  - apply Z.leb_gt in E. split; [lia|]. split; [auto|lia].
Qed.

Lemma onThink_block_ok (c : Creature) (blockTicks interval : Z) :
  0 <= blockCount c <= 2 ->
  block_state_ok (onThink_block c blockTicks interval).
Proof.
  intros Hb. unfold onThink_block, block_state_ok.
  destruct (1000 <=? _) eqn:E; simpl.
  - pose proof (wrap_uint32_range (blockCount c + 1)). lia.
  - apply Z.leb_gt in E. pose proof (wrap_uint32_range (blockTicks + interval)).
    lia.
Qed.

Lemma count_onBlockHit_app (l1 l2 : list Event) :
  count_onBlockHit (l1 ++ l2) = count_onBlockHit l1 + count_onBlockHit l2.
Proof.
  unfold count_onBlockHit. rewrite List.filter_app, length_app. lia.
Qed.

Lemma blockHit_blockCount (c : Creature) (attacker : option Attacker)
    (combatType : CombatType_t) (damage : Z) (checkDefense checkArmor : bool) :
  0 <= blockCount c < 2 ^ 32 ->
  let r := blockHit uniform_random c attacker combatType damage checkDefense
             checkArmor in
  0 <= blockCount (creatureOut r)
  /\ count_onBlockHit (events r) + blockCount (creatureOut r) <= blockCount c.
Proof.
  intros Hb r. subst r. unfold blockHit.
  destruct (blockHit_mitigate _ _ _ _ _ _) as [[[bt dmg] bc] evs] eqn:Hm.
  assert (Hbc : 0 <= bc /\ count_onBlockHit evs + bc <= blockCount c).
  { revert Hm. unfold blockHit_mitigate.
    destruct (isImmune c combatType);
      [intros [= <- <- <- <-]; unfold count_onBlockHit; simpl; lia|].
    destruct (checkDefense || checkArmor);
      [|intros [= <- <- <- <-]; unfold count_onBlockHit; simpl; lia].
    destruct (0 <? blockCount c) eqn:Hpos.
    - apply Z.ltb_lt in Hpos.
      rewrite (wrap_uint32_id (blockCount c - 1)) by lia.
      destruct (if checkDefense && true && canUseDefense c then _ else _)
        as [[bt1 d1] ca1].
      destruct (if ca1 then _ else _) as [bt2 d2].
      intros [= <- <- <- <-]. simpl.
      destruct (negb (BlockType_eqb bt2 BLOCK_NONE)); unfold count_onBlockHit; simpl; lia.
    - apply Z.ltb_ge in Hpos.
      destruct (if checkDefense && false && canUseDefense c then _ else _)
        as [[bt1 d1] ca1].
      destruct (if ca1 then _ else _) as [bt2 d2].
      intros [= <- <- <- <-]. unfold count_onBlockHit; simpl; lia. }
  destruct (if dmg <=? 0 then _ else _) as [bt2 d2]. simpl.
  rewrite !count_onBlockHit_app.
  destruct attacker as [a|];
    [destruct (negb _); [destruct (masterIsPlayer a)|]|];
    unfold count_onBlockHit in *; simpl; lia.
Qed.

Lemma onThink_block_count (c : Creature) (blockTicks interval : Z) :
  0 <= blockCount c <= 2 ->
  blockCount (fst (onThink_block c blockTicks interval)) <= blockCount c + 1.
Proof.
  intros Hb. unfold onThink_block. destruct (1000 <=? _); simpl; [|lia].
  rewrite wrap_uint32_id by lia. lia.
Qed.

(** X6. Along any sequence of onThink and blockHit calls, a block
    count that starts between 0 and 2 stays between 0 and 2, and the
    onBlockHit notifications together with the block count that is left
    number at most the block count at the start plus the calls of
    onThink: every blocked hit spends a block and a think gives back at
    most one. *)
Theorem combat_run_blocks (s : Creature * Z) (l : list CombatAction) :
  0 <= blockCount (fst s) <= 2 ->
  let '(s', evs) := combat_run uniform_random s l in
  0 <= blockCount (fst s') <= 2
  /\ count_onBlockHit evs + blockCount (fst s')
     <= blockCount (fst s) + count_thinks l.
Proof.
  revert s. induction l as [|a rest IH]; intros s Hs.
  - simpl. unfold count_onBlockHit, count_thinks; simpl. lia.
  - simpl. destruct (combat_act uniform_random s a) as [s1 evs1] eqn:Ha.
    assert (H1 : 0 <= blockCount (fst s1) <= 2
                 /\ count_onBlockHit evs1 + blockCount (fst s1)
                    <= blockCount (fst s) + count_thinks [a]).
    { destruct a as [interval|att ct dmg cd ca]; simpl in Ha.
      - injection Ha as <- <-.
        pose proof (onThink_block_ok (fst s) (snd s) interval Hs) as [Hok _].
        pose proof (onThink_block_count (fst s) (snd s) interval Hs).
        unfold count_onBlockHit, count_thinks; simpl. lia.
      - injection Ha as <- <-.
        pose proof (blockHit_blockCount (fst s) att ct dmg cd ca
                      ltac:(change (2 ^ 32) with 4294967296; lia)).
        cbv zeta in H. unfold count_thinks, count_onBlockHit in *.
        change (fst (creatureOut ?r, ?x)) with (creatureOut r).
        simpl List.filter. simpl length. simpl fst. lia. }
    destruct H1 as [Hs1 Hc1]. specialize (IH s1 Hs1).
    destruct (combat_run uniform_random s1 rest) as [s2 evs2].
    rewrite count_onBlockHit_app.
    assert (count_thinks (a :: rest) = count_thinks [a] + count_thinks rest).
    { unfold count_thinks. simpl. destruct (is_think a); simpl; lia. }
    lia.
Qed.

End RoundFacts.

(** The source that always draws the upper end draws within the range. *)
Lemma roll_high_fair : fair_random roll_high.
Proof. intros lo hi H. unfold roll_high. lia. Qed.

(** X5 on the knight: a hit of 70 with both checks comes out between 0
    and 70. *)
Lemma blockHit_never_amplifies_knight :
  let r := Combat.blockHit roll_high knight None Combat.COMBAT_PHYSICALDAMAGE
             70 true true in
  0 <= Combat.damageOut r <= 70
  /\ (0 < Combat.damageOut r -> Combat.blockType r = Combat.BLOCK_NONE)
  /\ (Combat.damageOut r = 0 -> Combat.blockType r = Combat.BLOCK_ARMOR).
Proof.
  apply (blockHit_never_amplifies roll_high knight None
           Combat.COMBAT_PHYSICALDAMAGE 70 true true roll_high_fair);
    vm_compute; split; discriminate.
Defined.

(** X6 on the brawl: the knight starts with 2 blocks and thinks once. *)
Lemma combat_run_blocks_brawl :
  let '(s', evs) := combat_run roll_high (knight, 0) brawl in
  0 <= Combat.blockCount (fst s') <= 2
  /\ count_onBlockHit evs + Combat.blockCount (fst s')
     <= Combat.blockCount knight + count_thinks brawl.
Proof.
  apply (combat_run_blocks roll_high (knight, 0) brawl). simpl. lia.
Defined.

(** ** Draining health, and the ledger over many hits *)

Section DrainFacts.

Import Combat CombatRounds.

Lemma ledger_find_store_other (m : list (Z * CountBlock_t)) (k j : Z)
    (cb : CountBlock_t) :
  j <> k -> ledger_find (ledger_store m k cb) j = ledger_find m j.
Proof.
  intros Hne. induction m as [|[k' cb'] rest IH]; simpl.
  - destruct (k =? j) eqn:E; [apply Z.eqb_eq in E; congruence|reflexivity].
  - destruct (k' =? k) eqn:Ek; simpl.
    + apply Z.eqb_eq in Ek. subst k'.
      destruct (k =? j) eqn:E; [apply Z.eqb_eq in E; congruence|reflexivity].
    + destruct (k <? k'); simpl.
      * destruct (k =? j) eqn:E; [apply Z.eqb_eq in E; congruence|reflexivity].
      * rewrite IH. reflexivity.
Qed.

Lemma wrap_int32_add_l (a b : Z) :
  wrap_int32 (wrap_int32 a + b) = wrap_int32 (a + b).
Proof.
  unfold wrap_int32, wrap_signed. f_equal.
  replace ((a + 2 ^ (32 - 1)) mod 2 ^ 32 - 2 ^ (32 - 1) + b + 2 ^ (32 - 1))
    with ((a + 2 ^ (32 - 1)) mod 2 ^ 32 + b) by lia.
  rewrite Zplus_mod_idemp_l. f_equal. lia.
Qed.

Lemma addDamagePoints_find (c : Creature) (now a points j : Z) :
  0 < points ->
  ledger_find (damageMap (addDamagePoints c now a points)) j
  = if a =? j
    then Some (mkCountBlock (wrap_int32 (entry_total c a + points)) now)
    else ledger_find (damageMap c) j.
Proof.
  intros Hp. unfold addDamagePoints.
  apply Z.leb_gt in Hp. rewrite Hp. simpl.
  destruct (a =? j) eqn:E.
  - apply Z.eqb_eq in E. subst j. apply ledger_find_store.
  - apply Z.eqb_neq in E. apply ledger_find_store_other. congruence.
Qed.

(** X7. drainHealth with a damage between 1 and INT32_MAX takes the
    health to max(0, health - damage), announces no health change and
    hands the death to the dispatcher exactly when the health is used up.
    With an attacker, the attacker's ledger entry is credited with the
    whole damage, also the part beyond the health that was left, and the
    attacker becomes the last hitter; without one the ledger is left
    alone and the last hitter is reset to 0. *)
Theorem drainHealth_credits_whole_damage (c : Creature) (now damage : Z)
    (attacker : option Z) :
  0 <= health c <= INT32_MAX -> 0 < damage <= INT32_MAX ->
  let c' := fst (drainHealth c now attacker damage) in
  health c' = Z.max 0 (health c - damage)
  /\ snd (drainHealth c now attacker damage)
     = (if health c <=? damage then [EvTaskExecuteDeath (id c)] else [])
  /\ match attacker with
     | Some a =>
         ledger_find (damageMap c') a
         = Some (mkCountBlock (wrap_int32 (entry_total c a + damage)) now)
         /\ lastHitCreatureId c' = a
     | None => damageMap c' = damageMap c /\ lastHitCreatureId c' = 0
     end.
Proof.
  intros Hh Hd. cbv zeta. unfold INT32_MAX in Hh, Hd.
  change (2 ^ 31 - 1) with 2147483647 in Hh, Hd.
  unfold drainHealth, changeHealth.
  rewrite (wrap_int32_small (- damage)) by lia.
  assert (Hneg : (0 <? - damage) = false) by (apply Z.ltb_ge; lia).
  rewrite Hneg. rewrite (wrap_int32_small (health c + - damage)) by lia.
  simpl andb. cbv iota. 
  assert (Hdeath : (Z.max 0 (health c + - damage) <=? 0) = (health c <=? damage)).
  { destruct (health c <=? damage) eqn:E.
    - apply Z.leb_le in E. apply Z.leb_le. lia.
    - apply Z.leb_gt in E. apply Z.leb_gt. lia. }
  rewrite Hdeath.
  destruct attacker as [a|]; simpl.
  - split; [|split; [reflexivity|]].
    + unfold onAttackedCreatureDrainHealth, addDamagePoints.
      assert (Hp : (damage <=? 0) = false) by (apply Z.leb_gt; lia).
      rewrite Hp. simpl. lia.
    + unfold onAttackedCreatureDrainHealth.
      rewrite addDamagePoints_find by lia. rewrite Z.eqb_refl.
      split; [reflexivity|].
      unfold addDamagePoints.
      assert (Hp : (damage <=? 0) = false) by (apply Z.leb_gt; lia).
      rewrite Hp. reflexivity.
  - split; [lia|]. split; [reflexivity|]. split; reflexivity.
Qed.

Lemma take_hits_cons (c : Creature) (h : DamageHit) (hs : list DamageHit) :
  take_hits c (h :: hs)
  = take_hits (addDamagePoints c (hitTime h) (hitAttacker h) (hitPoints h)) hs.
Proof. reflexivity. Qed.

Lemma credited_cons (h : DamageHit) (hs : list DamageHit) (k : Z) :
  credited (h :: hs) k
  = if counted k h then hitPoints h + credited hs k else credited hs k.
Proof.
  unfold credited. simpl. destruct (counted k h); reflexivity.
Qed.

(** X2. After any sequence of addDamagePoints calls the ledger entry
    of an attacker is what the calls with a positive amount from that
    attacker make it: when there is none the entry is as before;
    otherwise its total is the old total plus the sum of those amounts,
    as an int32_t, and its time stamp is the time of the last of them.
    Amounts of 0 or less and the hits of other attackers do not touch
    it. *)
Theorem take_hits_entry (c : Creature) (hits : list DamageHit) (k : Z) :
  ledger_find (damageMap (take_hits c hits)) k
  = match last (List.filter (counted k) hits) with
    | None => ledger_find (damageMap c) k
    | Some h =>
        Some (mkCountBlock (wrap_int32 (entry_total c k + credited hits k))
                (hitTime h))
    end.
Proof.
  revert c. induction hits as [|h hs IH]; intros c; [reflexivity|].
  rewrite take_hits_cons, IH, credited_cons. simpl List.filter.
  destruct (counted k h) eqn:Hc.
  - unfold counted in Hc. apply andb_prop in Hc. destruct Hc as [Ha Hp].
    apply Z.eqb_eq in Ha. apply Z.ltb_lt in Hp.
    assert (Ht : entry_total
              (addDamagePoints c (hitTime h) (hitAttacker h) (hitPoints h)) k
            = wrap_int32 (entry_total c k + hitPoints h)).
    { unfold entry_total at 1. rewrite addDamagePoints_find by exact Hp.
      rewrite Ha, Z.eqb_refl. reflexivity. }
    rewrite Ht, wrap_int32_add_l.
    destruct (List.filter (counted k) hs) as [|h' l'] eqn:Hf.
    + simpl. rewrite addDamagePoints_find by exact Hp.
      rewrite Ha, Z.eqb_refl. unfold credited.
      rewrite Hf. simpl. rewrite Z.add_0_r. reflexivity.
    + change (last (h :: h' :: l')) with (last (h' :: l')).
      destruct (last (h' :: l')) eqn:Hl.
      * rewrite Z.add_assoc. reflexivity.
      * apply last_None in Hl. discriminate.
  - destruct (0 <? hitPoints h) eqn:Hp.
    + apply Z.ltb_lt in Hp. unfold counted in Hc. rewrite (proj2 (Z.ltb_lt _ _) Hp) in Hc.
      rewrite andb_true_r in Hc.
      unfold entry_total.
      rewrite addDamagePoints_find by exact Hp. rewrite Hc. reflexivity.
    + apply Z.ltb_ge in Hp. unfold addDamagePoints.
      rewrite (proj2 (Z.leb_le _ _) Hp). reflexivity.
Qed.

End DrainFacts.

(** X7 on the knight: a hit of 250 by creature 7 on 100 health is
    credited as 250. *)
Lemma drainHealth_credits_whole_damage_knight :
  let c' := fst (CombatRounds.drainHealth knight 5000 (Some 7) 250) in
  Combat.health c' = Z.max 0 (Combat.health knight - 250)
  /\ snd (CombatRounds.drainHealth knight 5000 (Some 7) 250)
     = (if Combat.health knight <=? 250
        then [Combat.EvTaskExecuteDeath (Combat.id knight)] else [])
  /\ Combat.ledger_find (Combat.damageMap c') 7
     = Some (Combat.mkCountBlock (wrap_int32 (entry_total knight 7 + 250)) 5000)
  /\ Combat.lastHitCreatureId c' = 7.
Proof.
  apply (drainHealth_credits_whole_damage knight 5000 250 (Some 7));
    vm_compute; split; (reflexivity || discriminate).
Defined.

(** ** The shares of a death *)

Section ShareFacts.

Import Combat.

Variable creatureExists : Z -> bool.
Variable partyLeader : Z -> option Z.
Variable inFightTicks : Z.

Lemma experienceMap_add_find (m : list (Z * Z)) (a e k : Z) :
  experienceMap_find (experienceMap_add m a e) k
  = if a =? k
    then Some (match experienceMap_find m k with
               | Some v => wrap_uint64 (v + e)
               | None => e
               end)
    else experienceMap_find m k.
Proof.
  unfold experienceMap_find.
  induction m as [|[k' e'] rest IH]; simpl.
  - destruct (a =? k); reflexivity.
  - destruct (k' =? a) eqn:Ea; simpl.
    + apply Z.eqb_eq in Ea. subst k'.
      destruct (a =? k); reflexivity.
    + destruct (k' =? k) eqn:Ek; simpl.
      * apply Z.eqb_eq in Ek. subst k'.
        rewrite Z.eqb_sym, Ea. reflexivity.
      * exact IH.
Qed.

Lemma experienceMap_add_keys (m : list (Z * Z)) (a e : Z) :
  (forall k, In k (map fst (experienceMap_add m a e))
             <-> k = a \/ In k (map fst m))
  /\ (List.NoDup (map fst m) ->
      List.NoDup (map fst (experienceMap_add m a e))).
Proof.
  induction m as [|[k' e'] rest [IHk IHn]]; simpl.
  - split; [intros k; split; intros [->|[]]; auto|].
    intros _. constructor; [intros []|constructor].
  - destruct (k' =? a) eqn:Ea; simpl.
    + apply Z.eqb_eq in Ea. subst k'. split.
      * intros k. split; [intros [<-|Hin]; auto|intros [->|[<-|Hin]]; auto].
      * intros Hn. exact Hn.
    + apply Z.eqb_neq in Ea. split.
      * intros k. rewrite IHk. split; [intros [<-|[->|Hin]]|intros [->|[<-|Hin]]];
          auto.
      * intros Hn. inversion Hn as [|? ? Hnot Hrest]; subst.
        constructor; [|apply IHn, Hrest].
        rewrite IHk. intros [->|Hin]; [apply Ea; reflexivity|apply Hnot, Hin].
Qed.

Lemma onDeath_fold_find (c : Creature) (now k : Z)
    (l : list (Z * CountBlock_t)) :
  forall st,
    let st' :=
      fold_left (onDeath_step creatureExists partyLeader inFightTicks c now)
        l st in
    experienceMap_find (experienceMap st') k
    = add_gains (experienceMap_find (experienceMap st) k)
        (awards creatureExists partyLeader c l k)
    /\ (List.NoDup (map fst (experienceMap st)) ->
        List.NoDup (map fst (experienceMap st'))).
Proof.
  induction l as [|[a cb] rest IH]; intros st; cbn [fold_left]; cbv zeta.
  - split; [reflexivity|auto].
  - set (st1 := onDeath_step creatureExists partyLeader inFightTicks c now st
                  (a, cb)).
    assert (H1 : experienceMap_find (experienceMap st1) k
                 = add_gains (experienceMap_find (experienceMap st) k)
                     (awards creatureExists partyLeader c [(a, cb)] k)
                 /\ (List.NoDup (map fst (experienceMap st)) ->
                     List.NoDup (map fst (experienceMap st1)))).
    { unfold st1, onDeath_step, awards. simpl List.filter. simpl fst.
      destruct (creatureExists a); simpl andb; cbv iota;
        [|split; [reflexivity|auto]].
      destruct (if (mostDamage st <? total cb) && inFight inFightTicks now cb
                then _ else _) as [most who].
      destruct (negb (a =? id c)); simpl andb; cbv iota; simpl experienceMap;
        [|split; [reflexivity|auto]].
      rewrite experienceMap_add_find. fold (awardee partyLeader a). split.
      - destruct (awardee partyLeader a =? k); reflexivity.
      - apply experienceMap_add_keys. }
    destruct H1 as [H1f H1n]. destruct (IH st1) as [IHf IHn].
    split; [|auto].
    rewrite IHf, H1f. unfold add_gains. rewrite <- fold_left_app.
    f_equal. unfold awards. rewrite <- map_app. f_equal.
    change ((a, cb) :: rest) with ([(a, cb)] ++ rest).
    rewrite List.filter_app. reflexivity.
Qed.

Lemma wrap_uint64_add_l (a b : Z) :
  wrap_uint64 (wrap_uint64 a + b) = wrap_uint64 (a + b).
Proof.
  unfold wrap_uint64, wrap_unsigned. apply Zplus_mod_idemp_l.
Qed.

Lemma add_gains_sum (gs : list Z) :
  forall v,
    add_gains (Some (wrap_uint64 v)) gs
    = Some (wrap_uint64 (v + fold_right Z.add 0 gs)).
Proof.
  induction gs as [|g gs IH]; intros v; simpl.
  - rewrite Z.add_0_r. reflexivity.
  - unfold add_gains in *. simpl. rewrite wrap_uint64_add_l, IH.
    f_equal. f_equal. lia.
Qed.

Lemma getGainedExperience_uint64 (c : Creature) (a : Z) :
  wrap_uint64 (getGainedExperience c a) = getGainedExperience c a.
Proof.
  unfold getGainedExperience, wrap_uint64, wrap_unsigned.
  apply Z.mod_mod. change (2 ^ 64) with 18446744073709551616. lia.
Qed.

(** X8. The experience map of onDeath.  After the scan of the ledger
    the map has one entry for each creature that some attacker's
    experience goes to, and no other: an attacker counts when it still
    exists and is not the victim, and its experience goes to the leader
    of its party if it shares experience, to itself otherwise.  The
    amount of an entry is the sum, as a uint64_t, of what
    getGainedExperience gives for the attackers it stands for. *)
Theorem onDeath_scan_experienceMap (c : Creature) (now k : Z) :
  let st := onDeath_scan creatureExists partyLeader inFightTicks c now in
  List.NoDup (map fst (experienceMap st))
  /\ experienceMap_find (experienceMap st) k
     = match awards creatureExists partyLeader c (damageMap c) k with
       | [] => None
       | gains => Some (wrap_uint64 (fold_right Z.add 0 gains))
       end.
Proof.
  intros st. subst st. unfold onDeath_scan.
  destruct (onDeath_fold_find c now k (damageMap c) (mkDeathScan 0 None []))
    as [Hf Hn].
  split; [apply Hn; constructor|].
  rewrite Hf. simpl experienceMap. unfold awards.
  destruct (List.filter _ (damageMap c)) as [|e es]; [reflexivity|].
  simpl map. unfold add_gains. simpl fold_left.
  rewrite <- (getGainedExperience_uint64 c (fst e)) at 1.
  fold (add_gains (Some (wrap_uint64 (getGainedExperience c (fst e))))
          (map (fun e => getGainedExperience c (fst e)) es)).
  rewrite add_gains_sum. reflexivity.
Qed.


Lemma onDeath_fold_most (c : Creature) (now : Z) (l : list (Z * CountBlock_t)) :
  forall st,
    let st' :=
      fold_left (onDeath_step creatureExists partyLeader inFightTicks c now)
        l st in
    mostDamage st <= mostDamage st'
    /\ (forall k cb, In (k, cb) l -> creatureExists k = true ->
          inFight inFightTicks now cb = true -> total cb <= mostDamage st')
    /\ ((mostDamageCreature st' = mostDamageCreature st
         /\ mostDamage st' = mostDamage st)
        \/ exists k cb,
             In (k, cb) l /\ creatureExists k = true
             /\ inFight inFightTicks now cb = true
             /\ mostDamageCreature st' = Some k
             /\ total cb = mostDamage st' /\ mostDamage st < total cb).
Proof.
  induction l as [|[k cb] rest IH]; intros st; cbn [fold_left].
  - cbv zeta. split; [lia|]. split; [intros k cb []|]. left. split; reflexivity.
  - cbv zeta. set (st1 := onDeath_step creatureExists partyLeader inFightTicks c now st
                  (k, cb)).
    destruct (IH st1) as (Hmono & Hmax & Hwho).
    assert (H1 : mostDamage st <= mostDamage st1
                 /\ (creatureExists k = true ->
                     inFight inFightTicks now cb = true ->
                     total cb <= mostDamage st1)
                 /\ ((mostDamageCreature st1 = mostDamageCreature st
                      /\ mostDamage st1 = mostDamage st)
                     \/ (creatureExists k = true
                         /\ inFight inFightTicks now cb = true
                         /\ mostDamageCreature st1 = Some k
                         /\ total cb = mostDamage st1
                         /\ mostDamage st < total cb))).
    { unfold st1, onDeath_step. destruct (creatureExists k).
      - destruct (mostDamage st <? total cb) eqn:Hlt;
          destruct (inFight inFightTicks now cb) eqn:Hin; simpl.
        + apply Z.ltb_lt in Hlt. split; [lia|]. split; [lia|].
          right. repeat split; auto.
        + split; [lia|]. split; [discriminate|]. left. split; reflexivity.
        + apply Z.ltb_ge in Hlt. split; [lia|]. split; [lia|].
          left. split; reflexivity.
        + split; [lia|]. split; [discriminate|]. left. split; reflexivity.
      - split; [lia|]. split; [discriminate|]. left. split; reflexivity. }
    destruct H1 as (Hm1 & Hx1 & Hw1).
    split; [lia|]. split.
    + intros k' cb' [[= <- <-]|Hin] He Hf.
      * specialize (Hx1 He Hf). lia.
      * apply (Hmax k' cb' Hin He Hf).
    + destruct Hwho as [[Hw Hm]|(k' & cb' & Hin & He & Hf & Hw & Ht & Hlt)].
      * destruct Hw1 as [[Hw1 Hm1']|(He & Hf & Hw1 & Ht & Hlt)].
        -- left. split; congruence.
        -- right. exists k, cb. repeat split; auto; try congruence.
           left. reflexivity.
      * right. exists k', cb'. repeat split; auto; try lia. right. exact Hin.
Qed.

(** X3. The most-damage creature of onDeath.  After the scan,
    mostDamage is at least the total of every ledger entry of an existing
    creature whose last hit lies within the combat-lock window; when a
    creature is named it owns such an entry, whose total is mostDamage
    and positive; when none is named mostDamage is 0. *)
Theorem onDeath_scan_mostDamage (c : Creature) (now : Z) :
  let st := onDeath_scan creatureExists partyLeader inFightTicks c now in
  (forall k cb, In (k, cb) (damageMap c) -> creatureExists k = true ->
     inFight inFightTicks now cb = true -> total cb <= mostDamage st)
  /\ match mostDamageCreature st with
     | Some k =>
         exists cb, In (k, cb) (damageMap c) /\ creatureExists k = true
                    /\ inFight inFightTicks now cb = true
                    /\ total cb = mostDamage st /\ 0 < total cb
     | None => mostDamage st = 0
     end.
Proof.
  intros st. subst st. unfold onDeath_scan.
  destruct (onDeath_fold_most c now (damageMap c) (mkDeathScan 0 None []))
    as (_ & Hmax & Hwho).
  split; [exact Hmax|].
  destruct Hwho as [[-> ->]|(k & cb & Hin & He & Hf & -> & Ht & Hlt)].
  - reflexivity.
  - exists cb. simpl in Hlt. repeat split; auto.
Qed.

End ShareFacts.

(** ** The pace of a walk *)

Section PaceFacts.

Import Movement.

Variable uniform_random : Z -> Z -> Z.
Variable schedulerEventId : Z.

Lemma speedCurve_monotone (s1 s2 : Z) :
  220 <= s1 <= s2 -> speedCurve s1 <= speedCurve s2.
Proof.
  intros [Hlo Hle]. unfold speedCurve, speedA, speedB, speedC.
  apply Zfloor_le.
  assert (Hq : 110 <= s1 ÷ 2 <= s2 ÷ 2).
  { split.
    - rewrite Z.quot_div_nonneg by lia. apply Z.div_le_lower_bound; lia.
    - apply Z.quot_le_mono; lia. }
  destruct Hq as [Hq1 Hq2]. apply IZR_le in Hq1, Hq2.
  assert (Hln : (ln (IZR (s1 ÷ 2) + 261.29) <= ln (IZR (s2 ÷ 2) + 261.29))%R).
  { apply ln_monotone; lra. }
  lra.
Qed.

Lemma calculatedStepSpeed_curve (s : Z) :
  220 <= s <= INT32_MAX ->
  calculatedStepSpeed s = speedCurve s /\ 92 <= speedCurve s <= 21783.
Proof.
  intros Hs. pose proof (speedCurve_range s Hs) as Hr.
  rewrite calculatedStepSpeed_max; [split; [lia|exact Hr]|lia|].
  change (2 ^ 32) with 4294967296. lia.
Qed.

Lemma ceil50_monotone (a b : Z) : a <= b -> ceil50 a <= ceil50 b.
Proof.
  intros H. unfold ceil50.
  assert ((- b) / 50 <= (- a) / 50) by (apply Z.div_le_mono; lia). lia.
Qed.

Lemma groundSpeed_range (c : Creature) :
  (forall g, ground c = Some g -> 0 <= g < 2 ^ 16) ->
  1 <= groundSpeed c < 65536.
Proof.
  intros Hg. unfold groundSpeed. destruct (ground c) as [g|]; [|lia].
  specialize (Hg g eq_refl). change (2 ^ 16) with 65536 in Hg.
  destruct (g =? 0) eqn:E; [lia|]. apply Z.eqb_neq in E. lia.
Qed.

Lemma getStepDuration_unfold (c : Creature) :
  isRemoved c = false ->
  1 <= groundSpeed c < 65536 ->
  220 <= stepSpeed c <= INT32_MAX ->
  getStepDuration c
  = (match monster c with
     | Some m =>
         if isTargetNearby m && negb (isFleeing m) && negb (hasMaster m)
         then 2 else 1
     | None => 1
     end) * ceil50 (1000 * groundSpeed c / speedCurve (stepSpeed c)).
Proof.
  intros Hr Hg Hs. unfold getStepDuration. rewrite Hr.
  destruct (calculatedStepSpeed_curve _ Hs) as [-> _].
  rewrite wrap_uint32_id by (change (2 ^ 32) with 4294967296; lia).
  destruct (monster c) as [m|]; [destruct (_ && _)|]; lia.
Qed.

Lemma getStepDuration_at_least_50 (c : Creature) :
  isRemoved c = false ->
  22 <= groundSpeed c < 65536 ->
  220 <= stepSpeed c <= INT32_MAX ->
  50 <= getStepDuration c /\ getStepDuration c mod 50 = 0.
Proof.
  intros Hr Hg Hs. rewrite getStepDuration_unfold by (try assumption; lia).
  destruct (calculatedStepSpeed_curve _ Hs) as [_ Hc].
  set (d := 1000 * groundSpeed c / speedCurve (stepSpeed c)).
  assert (Hd : 1 <= d).
  { unfold d. apply Z.div_le_lower_bound; lia. }
  destruct (ceil50_spec d) as [Hm Hb].
  assert (H50 : 50 <= ceil50 d).
  { apply Z.mod_divide in Hm; [|lia]. destruct Hm as [q Hq]. lia. }
  split.
  - destruct (monster c) as [m|]; [destruct (_ && _)|]; lia.
  - rewrite Z.mul_comm. rewrite <- Zmult_mod_idemp_l, Hm. reflexivity.
Qed.

(** X9. A faster creature never takes longer for a step: from speed
    220 on, raising the speed of a creature (up to INT32_MAX) leaves its
    step duration as it is or makes it shorter. *)
Theorem getStepDuration_faster_is_shorter (c : Creature) (speed : Z) :
  (forall g, ground c = Some g -> 0 <= g < 2 ^ 16) ->
  220 <= stepSpeed c <= speed -> speed <= INT32_MAX ->
  getStepDuration (with_stepSpeed c speed) <= getStepDuration c.
Proof.
  intros Hg Hs Hmax. destruct (isRemoved c) eqn:Hr.
  - unfold getStepDuration. simpl. rewrite Hr. lia.
  - pose proof (groundSpeed_range c Hg) as Hgs.
    rewrite (getStepDuration_unfold c) by (try assumption; lia).
    rewrite (getStepDuration_unfold (with_stepSpeed c speed))
      by (try assumption; simpl; lia).
    simpl monster. simpl stepSpeed.
    change (groundSpeed (with_stepSpeed c speed)) with (groundSpeed c).
    destruct (calculatedStepSpeed_curve (stepSpeed c) ltac:(lia)) as [_ Hc1].
    pose proof (speedCurve_monotone (stepSpeed c) speed ltac:(lia)) as Hmono.
    assert (Hd : 1000 * groundSpeed c / speedCurve speed
                 <= 1000 * groundSpeed c / speedCurve (stepSpeed c)).
    { apply Z.div_le_compat_l; lia. }
    apply ceil50_monotone in Hd.
    destruct (monster c) as [m|]; [destruct (_ && _)|]; lia.
Qed.


Lemma getStepDuration_multiple_of_50 (c : Creature) :
  getStepDuration c mod 50 = 0.
Proof.
  unfold getStepDuration. destruct (isRemoved c); [reflexivity|].
  set (d := wrap_uint32 (1000 * groundSpeed c)
            / calculatedStepSpeed (stepSpeed c)).
  destruct (ceil50_spec d) as [Hm _].
  assert (H2 : (ceil50 d * 2) mod 50 = 0).
  { rewrite <- Zmult_mod_idemp_l, Hm. reflexivity. }
  destruct (monster c) as [m|]; [destruct (_ && _)|]; assumption.
Qed.

(** What addEventWalk does when it gets as far as the scheduler. *)
Lemma addEventWalk_armed (c : Creature) (now : Z) (firstStep : bool) :
  0 < stepSpeed c -> eventWalk c = 0 ->
  0 < getEventStepTicks c now firstStep ->
  addEventWalk schedulerEventId c now firstStep
  = (set_eventWalk (set_cancelNextWalk c false) schedulerEventId,
     (if getEventStepTicks c now firstStep =? 1
      then [EvCheckCreatureWalk (id c)] else [])
     ++ [EvSchedulerAddEvent (getEventStepTicks c now firstStep)]).
Proof.
  intros Hs He Hpos. unfold addEventWalk.
  change (stepSpeed (set_cancelNextWalk c false)) with (stepSpeed c).
  change (eventWalk (set_cancelNextWalk c false)) with (eventWalk c).
  change (getEventStepTicks (set_cancelNextWalk c false) now firstStep)
    with (getEventStepTicks c now firstStep).
  change (id (set_cancelNextWalk c false)) with (id c).
  rewrite (proj2 (Z.leb_gt _ _) Hs), He. simpl negb. cbv iota.
  rewrite (proj2 (Z.leb_gt _ _) Hpos). reflexivity.
Qed.

(** X10. addEventWalk arms the walk event: for a creature of positive
    speed with no walk event pending, a positive step duration and a
    positive last step cost, the ticks of getEventStepTicks are positive;
    the calls addEventWalk itself makes are the walk check of the game,
    exactly when the ticks are 1, and then the event handed to the
    scheduler with those ticks.  When the ticks are not 1 nothing else
    happens: cancelNextWalk is reset and the id of the event is kept in
    eventWalk.  The ticks are 1 for a first step whose walk delay has run
    out; for any other step they are 1 only when exactly 1 ms of the
    walk delay is left. *)
Theorem addEventWalk_schedules (c : Creature) (now : Z) (firstStep : bool) :
  0 < stepSpeed c -> eventWalk c = 0 ->
  0 < getStepDuration c -> 0 < lastStepCost c ->
  let ticks := getEventStepTicks c now firstStep in
  let r := addEventWalk schedulerEventId c now firstStep in
  0 < ticks
  /\ snd r = (if ticks =? 1 then [EvCheckCreatureWalk (id c)] else [])
             ++ [EvSchedulerAddEvent ticks]
  /\ (ticks <> 1 ->
      r = (set_eventWalk (set_cancelNextWalk c false) schedulerEventId,
           [EvSchedulerAddEvent ticks]))
  /\ (firstStep = true -> getWalkDelay c now <= 0 -> ticks = 1)
  /\ (firstStep = false -> ticks = 1 -> getWalkDelay c now = 1).
Proof.
  intros Hs He Hd Hc ticks r.
  assert (Hpos : 0 < ticks).
  { unfold ticks, getEventStepTicks.
    destruct (getWalkDelay c now <=? 0) eqn:E.
    - destruct (firstStep && (0 <? getStepDuration c)); [lia|nia].
    - apply Z.leb_gt in E. exact E. }
  assert (Hr : r = (set_eventWalk (set_cancelNextWalk c false) schedulerEventId,
                    (if ticks =? 1 then [EvCheckCreatureWalk (id c)] else [])
                    ++ [EvSchedulerAddEvent ticks]))
    by (apply addEventWalk_armed; assumption).
  split; [exact Hpos|]. split; [rewrite Hr; reflexivity|]. split; [|split].
  - intros Hne. rewrite Hr. apply Z.eqb_neq in Hne. rewrite Hne. reflexivity.
  - intros -> Hw. unfold ticks, getEventStepTicks.
    rewrite (proj2 (Z.leb_le _ _) Hw), (proj2 (Z.ltb_lt _ _) Hd). reflexivity.
  - intros -> H1. unfold ticks, getEventStepTicks in H1. simpl andb in H1.
    destruct (getWalkDelay c now <=? 0) eqn:E; [|exact H1].
    exfalso. pose proof (getStepDuration_multiple_of_50 c) as Hm.
    apply Z.mod_divide in Hm; [|lia]. destruct Hm as [q Hq].
    rewrite Hq in H1. lia.
Qed.

Lemma addEventWalk_queue (c : Creature) (now : Z) (firstStep : bool) :
  listWalkDir (fst (addEventWalk schedulerEventId c now firstStep))
  = listWalkDir c
  /\ drunk (fst (addEventWalk schedulerEventId c now firstStep)) = drunk c.
Proof.
  unfold addEventWalk. simpl.
  destruct (stepSpeed c <=? 0); simpl; [split; reflexivity|].
  destruct (negb (eventWalk c =? 0)); simpl; [split; reflexivity|].
  destruct (_ <=? 0); simpl; split; reflexivity.
Qed.

Lemma next_steps_rev (l : list Direction) :
  forall (c : Creature) (n : nat),
    listWalkDir c = l -> drunk c = false -> (length l <= n)%nat ->
    next_steps uniform_random n c = (rev l, set_listWalkDir c []).
Proof.
  induction l as [|d l IH] using rev_ind; intros c n Hl Hd Hn.
  - assert (Hc : set_listWalkDir c [] = c).
    { destruct c; simpl in Hl; subst; reflexivity. }
    rewrite Hc. destruct n as [|n]; [reflexivity|]. simpl.
    unfold getNextStep. rewrite Hl. reflexivity.
  - rewrite length_app in Hn. simpl in Hn.
    destruct n as [|n]; [lia|]. simpl.
    unfold getNextStep. rewrite Hl, last_snoc, removelast_last.
    unfold onWalk_dir.
    change (drunk (set_listWalkDir c l)) with (drunk c). rewrite Hd. simpl.
    rewrite (IH (set_listWalkDir c l) n eq_refl Hd ltac:(lia)).
    rewrite rev_unit. reflexivity.
Qed.

(** X11. The walk queue is handed out from its back: after
    startAutoWalk(listDir) on a creature that is not drunk and whose
    movement is not blocked, and that did not have the game check its
    walk right away, as many calls of Creature::getNextStep as the list
    is long return its directions from the last to the first, leave the
    queue empty, and the next call finds nothing. *)
Theorem walk_queue_order (c : Creature) (now : Z)
    (listDir : list Direction) :
  drunk c = false ->
  ~ In (EvCheckCreatureWalk (id c))
      (snd (Steps.startAutoWalk_list schedulerEventId c now false listDir)) ->
  let c1 :=
    fst (Steps.startAutoWalk_list schedulerEventId c now false listDir) in
  let r := next_steps uniform_random (length listDir) c1 in
  fst r = rev listDir
  /\ listWalkDir (snd r) = []
  /\ fst (fst (getNextStep uniform_random (snd r))) = None.
Proof.
  intros Hd _ c1 r.
  assert (Hl : listWalkDir c1 = listDir /\ drunk c1 = false).
  { unfold c1, Steps.startAutoWalk_list. rewrite andb_false_r.
    destruct (addEventWalk_queue (set_listWalkDir c listDir) now
                (Nat.eqb (length listDir) 1)) as [H1 H2].
    rewrite H1, H2. split; [reflexivity|exact Hd]. }
  destruct Hl as [Hl Hd1].
  unfold r. rewrite (next_steps_rev listDir c1 _ Hl Hd1 (le_n _)). simpl.
  split; [reflexivity|]. split; reflexivity.
Qed.


Lemma onCreatureMove_cost_step (c : Creature) (now : Z)
    (newPos oldPos : WalkCache.Position) :
  fst (Steps.onCreatureMove_cost c now newPos oldPos false)
  = Steps.set_lastStep c now (step_cost newPos oldPos).
Proof.
  unfold Steps.onCreatureMove_cost, step_cost. simpl negb. cbv iota.
  unfold WalkCache.getDistanceX, WalkCache.getDistanceY,
    WalkCache.getOffsetX, WalkCache.getOffsetY.
  destruct (negb (WalkCache.z oldPos =? WalkCache.z newPos)); [reflexivity|].
  assert (Hx : (1 <=? Z.abs (WalkCache.x newPos - WalkCache.x oldPos))
               = negb (WalkCache.x newPos =? WalkCache.x oldPos)).
  { destruct (WalkCache.x newPos =? WalkCache.x oldPos) eqn:E; simpl.
    - apply Z.eqb_eq in E. apply Z.leb_gt. lia.
    - apply Z.eqb_neq in E. apply Z.leb_le. lia. }
  assert (Hy : (1 <=? Z.abs (WalkCache.y newPos - WalkCache.y oldPos))
               = negb (WalkCache.y newPos =? WalkCache.y oldPos)).
  { destruct (WalkCache.y newPos =? WalkCache.y oldPos) eqn:E; simpl.
    - apply Z.eqb_eq in E. apply Z.leb_gt. lia.
    - apply Z.eqb_neq in E. apply Z.leb_le. lia. }
  rewrite Hx, Hy. destruct (_ && _); reflexivity.
Qed.

(** X12. A step is paid for before the next one is taken.  After the
    creature's own step at time now, which costs 2 for a change of floor,
    3 for a diagonal step and 1 otherwise, onWalk at a time t before
    step duration times cost has gone by asks the game for no move (its
    outcome is the same whatever the game would answer), and the queue is
    left as it is unless cancelNextWalk is set. *)
Theorem onWalk_waits_for_step_cost (c : Creature) (now t : Z)
    (newPos oldPos : WalkCache.Position)
    (move move' : Creature -> Direction -> ReturnValue * Creature) :
  0 < now ->
  0 < getStepDuration c * step_cost newPos oldPos - (t - now) <= INT32_MAX ->
  let c1 := fst (Steps.onCreatureMove_cost c now newPos oldPos false) in
  lastStep c1 = now /\ lastStepCost c1 = step_cost newPos oldPos
  /\ onWalk uniform_random move schedulerEventId c1 t
     = onWalk uniform_random move' schedulerEventId c1 t
  /\ (cancelNextWalk c = false ->
      listWalkDir (fst (onWalk uniform_random move schedulerEventId c1 t))
      = listWalkDir c).
Proof.
  intros Hnow Hwait c1. unfold c1. rewrite onCreatureMove_cost_step.
  split; [reflexivity|]. split; [reflexivity|].
  set (c2 := Steps.set_lastStep c now (step_cost newPos oldPos)).
  assert (Hdelay : (getWalkDelay c2 t <=? 0) = false).
  { apply Z.leb_gt. unfold getWalkDelay. simpl lastStep. simpl lastStepCost.
    change (getStepDuration c2) with (getStepDuration c).
    destruct (now =? 0) eqn:E; [apply Z.eqb_eq in E; lia|].
    unfold INT32_MAX in Hwait. change (2 ^ 31 - 1) with 2147483647 in Hwait.
    rewrite wrap_int32_small by lia. lia. }
  unfold onWalk. rewrite Hdelay. split; [reflexivity|].
  intros Hc. change (cancelNextWalk c2) with (cancelNextWalk c). rewrite Hc.
  destruct (negb (eventWalk c2 =? 0)).
  - destruct (addEventWalk_queue (set_eventWalk c2 0) t false) as [Hq _].
    destruct (addEventWalk schedulerEventId (set_eventWalk c2 0) t false)
      as [c3 evs3] eqn:E3. simpl in *. exact Hq.
  - reflexivity.
Qed.

Lemma despawnList_fold (newPos : WalkCache.Position)
    (summons : list (Z * WalkCache.Position)) :
  forall despawn,
    fold_left
      (fun despawn summon =>
         let pos := snd summon in
         if (2 <? Steps.getDistanceZ newPos pos)
            || (30 <? Z.max (WalkCache.getDistanceX newPos pos)
                        (WalkCache.getDistanceY newPos pos))
         then fst summon :: despawn
         else despawn)
      summons despawn
    = rev (map fst (List.filter (fun s => too_far newPos (snd s)) summons))
      ++ despawn.
Proof.
  induction summons as [|s rest IH]; intros despawn; [reflexivity|].
  simpl fold_left. rewrite IH. simpl List.filter.
  assert (Hfar : (2 <? Steps.getDistanceZ newPos (snd s))
                 || (30 <? Z.max (WalkCache.getDistanceX newPos (snd s))
                             (WalkCache.getDistanceY newPos (snd s)))
                 = too_far newPos (snd s)).
  { unfold too_far, Steps.getDistanceZ, WalkCache.getDistanceX,
      WalkCache.getDistanceY, WalkCache.getOffsetX, WalkCache.getOffsetY.
    rewrite <- orb_assoc. f_equal.
    destruct (30 <? Z.max _ _) eqn:E.
    - apply Z.ltb_lt in E. symmetry. apply orb_true_iff.
      destruct (Z.max_spec (Z.abs (WalkCache.x newPos - WalkCache.x (snd s)))
                  (Z.abs (WalkCache.y newPos - WalkCache.y (snd s))))
        as [[_ Hm]|[_ Hm]]; rewrite Hm in E;
        [right|left]; apply Z.ltb_lt; exact E.
    - apply Z.ltb_ge in E. symmetry. apply orb_false_iff.
      split; apply Z.ltb_ge; lia. }
  rewrite Hfar. destruct (too_far newPos (snd s)); simpl.
  - rewrite <- app_assoc. reflexivity.
  - reflexivity.
Qed.

(** X13. The despawn sweep of onCreatureMove picks exactly the summons
    that are more than 2 floors or more than 30 tiles along an axis away
    from the new position, and the game is asked to remove them in the
    reverse of their order in the summon list. *)
Theorem despawnList_too_far (newPos : WalkCache.Position)
    (summons : list (Z * WalkCache.Position)) :
  Steps.despawnList newPos summons
  = rev (map fst (List.filter (fun s => too_far newPos (snd s)) summons)).
Proof.
  unfold Steps.despawnList. rewrite despawnList_fold. apply app_nil_r.
Qed.

End PaceFacts.

(** X9 on the wolf: at speed 440 its step is no longer than at 220. *)
Lemma getStepDuration_faster_is_shorter_wolf :
  Movement.getStepDuration (with_stepSpeed wolf 440)
  <= Movement.getStepDuration wolf.
Proof.
  apply (getStepDuration_faster_is_shorter wolf 440).
  - intros g Hg. discriminate.
  - simpl. lia.
  - vm_compute. discriminate.
Defined.

(** The step of the walker takes time. *)
Lemma walker_step_positive : 0 < Movement.getStepDuration walker.
Proof.
  assert (H : 50 <= Movement.getStepDuration walker
              /\ Movement.getStepDuration walker mod 50 = 0).
  { apply getStepDuration_at_least_50.
    - reflexivity.
    - vm_compute. split; [discriminate|reflexivity].
    - vm_compute. split; discriminate. }
  lia.
Qed.

(** X10 on the walker, which has never stepped: the first step is taken
    right away and the event is armed with 1 tick. *)
Lemma addEventWalk_schedules_walker :
  snd (Movement.addEventWalk 77 walker 1000 true)
  = [Movement.EvCheckCreatureWalk 5; Movement.EvSchedulerAddEvent 1].
Proof.
  destruct (addEventWalk_schedules 77 walker 1000 true ltac:(simpl; lia)
              eq_refl walker_step_positive ltac:(simpl; lia))
    as (_ & Heq & _ & Hfirst & _).
  rewrite Heq, (Hfirst eq_refl ltac:(vm_compute; discriminate)). reflexivity.
Defined.

(** A bound on the step duration from above. *)
Lemma getStepDuration_at_most (c : Movement.Creature) :
  Movement.isRemoved c = false ->
  1 <= Movement.groundSpeed c < 65536 ->
  220 <= Movement.stepSpeed c <= INT32_MAX ->
  Movement.getStepDuration c <= 2 * (1000 * Movement.groundSpeed c + 50).
Proof.
  intros Hr Hg Hs. rewrite getStepDuration_unfold by assumption.
  destruct (calculatedStepSpeed_curve _ Hs) as [_ Hc].
  set (d := 1000 * Movement.groundSpeed c
            / Movement.speedCurve (Movement.stepSpeed c)).
  assert (Hd : 0 <= d <= 1000 * Movement.groundSpeed c).
  { unfold d. split.
    - apply Z.div_pos; lia.
    - apply Z.div_le_upper_bound; nia. }
  destruct (ceil50_spec d) as [_ Hb].
  destruct (Movement.monster c) as [m|]; [destruct (_ && _)|]; lia.
Qed.

(** The step of the walker takes between 50 and 300100 ms. *)
Lemma walker_step_bounds : 50 <= Movement.getStepDuration walker <= 300100.
Proof.
  assert (Hg : 22 <= Movement.groundSpeed walker < 65536)
    by (vm_compute; split; [discriminate|reflexivity]).
  assert (Hs : 220 <= Movement.stepSpeed walker <= INT32_MAX)
    by (vm_compute; split; discriminate).
  destruct (getStepDuration_at_least_50 walker eq_refl Hg Hs) as [Hlo _].
  pose proof (getStepDuration_at_most walker eq_refl ltac:(lia) Hs) as Hhi.
  change (Movement.groundSpeed walker) with 150 in Hhi. lia.
Qed.

(** The walker, given three directions, has its walk event armed for a
    whole step: the game is not asked to check its walk right away. *)
Lemma walker_not_checked (listDir : list Movement.Direction) :
  length listDir <> 1%nat ->
  ~ In (Movement.EvCheckCreatureWalk 5)
      (snd (Steps.startAutoWalk_list 77 walker 1000 false listDir)).
Proof.
  intros Hlen. unfold Steps.startAutoWalk_list. simpl andb. cbv iota.
  apply Nat.eqb_neq in Hlen. rewrite Hlen.
  pose proof walker_step_bounds as Hb.
  assert (Ht : Movement.getEventStepTicks
                 (Movement.set_listWalkDir walker listDir) 1000 false
               = Movement.getStepDuration walker).
  { unfold Movement.getEventStepTicks, Movement.getWalkDelay. simpl.
    change (Movement.getStepDuration (Movement.set_listWalkDir walker listDir))
      with (Movement.getStepDuration walker). lia. }
  rewrite (addEventWalk_armed 77) by (rewrite ?Ht; simpl; lia).
  rewrite Ht. simpl snd.
  destruct (Movement.getStepDuration walker =? 1) eqn:E;
    [apply Z.eqb_eq in E; lia|].
  simpl. intros [H|[]]. discriminate.
Qed.

(** X11 on the walker: south, west, west come out west, west, south. *)
Lemma walk_queue_order_walker :
  let c1 :=
    fst (Steps.startAutoWalk_list 77 walker 1000 false
           [Movement.DIRECTION_SOUTH; Movement.DIRECTION_WEST;
            Movement.DIRECTION_WEST]) in
  let r := next_steps roll_high 3 c1 in
  fst r = [Movement.DIRECTION_WEST; Movement.DIRECTION_WEST;
           Movement.DIRECTION_SOUTH]
  /\ Movement.listWalkDir (snd r) = []
  /\ fst (fst (Movement.getNextStep roll_high (snd r))) = None.
Proof.
  apply (walk_queue_order roll_high 77 walker 1000
           [Movement.DIRECTION_SOUTH; Movement.DIRECTION_WEST;
            Movement.DIRECTION_WEST]).
  - reflexivity.
  - apply walker_not_checked. simpl. lia.
Defined.

(** X12 on the walker: 40 ms after a diagonal step no move is asked
    for. *)
Lemma onWalk_waits_for_step_cost_walker :
  let c1 :=
    fst (Steps.onCreatureMove_cost walker 1000 (WalkCache.mkPosition 101 99 7)
           (WalkCache.mkPosition 100 100 7) false) in
  Movement.lastStep c1 = 1000
  /\ Movement.lastStepCost c1
     = step_cost (WalkCache.mkPosition 101 99 7)
         (WalkCache.mkPosition 100 100 7)
  /\ Movement.onWalk roll_high refuse_move 77 c1 1040
     = Movement.onWalk roll_high
         (fun c dir => (Movement.RETURNVALUE_NOERROR, c)) 77 c1 1040
  /\ (Movement.cancelNextWalk walker = false ->
      Movement.listWalkDir (fst (Movement.onWalk roll_high refuse_move 77 c1 1040))
      = Movement.listWalkDir walker).
Proof.
  apply (onWalk_waits_for_step_cost roll_high 77 walker 1000 1040
           (WalkCache.mkPosition 101 99 7) (WalkCache.mkPosition 100 100 7)).
  - lia.
  - pose proof walker_step_bounds as Hb.
    change (step_cost (WalkCache.mkPosition 101 99 7)
              (WalkCache.mkPosition 100 100 7)) with 3.
    unfold INT32_MAX. change (2 ^ 31 - 1) with 2147483647. lia.
Defined.

(** ** Sight and targets *)

Section SightFacts.

Import WalkCache Sight.

Lemma canSee_true (myPos pos : Position) (rx ry : Z) :
  Position_valid myPos -> Position_valid pos ->
  view_range_ok rx -> view_range_ok ry ->
  canSee myPos pos rx ry = true
  <-> ((z myPos <= 7 /\ z pos <= 7)
       \/ (8 <= z myPos /\ 8 <= z pos /\ Z.abs (z myPos - z pos) <= 2))
      /\ Z.abs (x pos - x myPos - (z myPos - z pos)) <= rx
      /\ Z.abs (y pos - y myPos - (z myPos - z pos)) <= ry.
Proof.
  unfold Position_valid, view_range_ok. change (2 ^ 31 - 65536) with 2147418112.
  intros (Hx1 & Hy1 & Hz1) (Hx2 & Hy2 & Hz2) Hrx Hry.
  unfold canSee, Steps.getDistanceZ.
  rewrite !wrap_int32_small by lia.
  destruct (z myPos <=? 7) eqn:E7.
  - apply Z.leb_le in E7. destruct (7 <? z pos) eqn:E8.
    + apply Z.ltb_lt in E8. split; [discriminate|lia].
    + apply Z.ltb_ge in E8.
      rewrite !andb_true_iff, !Z.leb_le. lia.
  - apply Z.leb_gt in E7.
    assert (H8 : (8 <=? z myPos) = true) by (apply Z.leb_le; lia).
    rewrite H8.
    destruct (z pos <? 8) eqn:E8; simpl orb.
    + apply Z.ltb_lt in E8. split; [discriminate|lia].
    + apply Z.ltb_ge in E8.
      destruct (2 <? Z.abs (z myPos - z pos)) eqn:E2.
      * apply Z.ltb_lt in E2. split; [discriminate|lia].
      * apply Z.ltb_ge in E2. rewrite !andb_true_iff, !Z.leb_le. lia.
Qed.

(** X14. What canSee sees.  For positions of the map and view ranges
    that cannot overflow, canSee(myPos, pos, rx, ry) holds exactly when
    the two floors are both at most 7, or both at least 8 and at most 2
    apart, and pos lies within rx and ry tiles of myPos shifted by the
    difference of the floors on both axes.  It is symmetric: pos sees
    myPos exactly when myPos sees pos. *)
Theorem canSee_characterised (myPos pos : Position) (rx ry : Z) :
  Position_valid myPos -> Position_valid pos ->
  view_range_ok rx -> view_range_ok ry ->
  (canSee myPos pos rx ry = true
   <-> ((z myPos <= 7 /\ z pos <= 7)
        \/ (8 <= z myPos /\ 8 <= z pos /\ Z.abs (z myPos - z pos) <= 2))
       /\ Z.abs (x pos - x myPos - (z myPos - z pos)) <= rx
       /\ Z.abs (y pos - y myPos - (z myPos - z pos)) <= ry)
  /\ canSee pos myPos rx ry = canSee myPos pos rx ry.
Proof.
  intros H1 H2 Hrx Hry. split; [apply canSee_true; assumption|].
  pose proof (canSee_true myPos pos rx ry H1 H2 Hrx Hry) as Ha.
  pose proof (canSee_true pos myPos rx ry H2 H1 Hrx Hry) as Hb.
  destruct (canSee myPos pos rx ry); destruct (canSee pos myPos rx ry);
    try reflexivity.
  - exfalso. assert (Hf : false = true); [|discriminate].
    apply Hb. destruct Ha as [Ha _]. specialize (Ha eq_refl). lia.
  - exfalso. assert (Hf : false = true); [|discriminate].
    apply Ha. destruct Hb as [Hb _]. specialize (Hb eq_refl). lia.
Qed.

(** X15. An NPC sees exactly the 7 by 7 square around it on its own
    floor (Npc::canSee of npc.cpp). *)
Theorem Npc_canSee_square (myPos pos : Position) :
  Position_valid myPos -> Position_valid pos ->
  Npc_canSee myPos pos = true
  <-> z pos = z myPos /\ Z.abs (x pos - x myPos) <= 3
      /\ Z.abs (y pos - y myPos) <= 3.
Proof.
  intros H1 H2. unfold Npc_canSee.
  assert (Hr : view_range_ok 3).
  { unfold view_range_ok. change (2 ^ 31 - 65536) with 2147418112. lia. }
  pose proof (canSee_true myPos pos 3 3 H1 H2 Hr Hr) as Hc.
  destruct (z pos =? z myPos) eqn:Ez; simpl negb; cbv iota.
  - apply Z.eqb_eq in Ez. rewrite Hc. rewrite Ez.
    unfold Position_valid in *. lia.
  - apply Z.eqb_neq in Ez. split; [discriminate|]. intros [Heq _]. contradiction.
Qed.

(** On its own floor an NPC sees what the static canSee sees with a
    range of 3 by 3. *)
Lemma Npc_canSee_own_floor (myPos pos : Position) :
  z pos = z myPos -> Npc_canSee myPos pos = canSee myPos pos 3 3.
Proof.
  intros Hz. unfold Npc_canSee. rewrite Hz, Z.eqb_refl. reflexivity.
Qed.

(** What canSee answers on the creature's own floor, with ranges that
    cannot overflow. *)
Lemma canSee_own_floor (myPos pos : Position) (rx ry : Z) :
  Position_valid myPos -> Position_valid pos ->
  view_range_ok rx -> view_range_ok ry ->
  z pos = z myPos ->
  canSee myPos pos rx ry = true
  <-> Z.abs (x pos - x myPos) <= rx /\ Z.abs (y pos - y myPos) <= ry.
Proof.
  intros H1 H2 Hrx Hry Hz.
  rewrite (canSee_true myPos pos rx ry H1 H2 Hrx Hry). rewrite Hz.
  replace (z myPos - z myPos) with 0 by lia. rewrite !Z.sub_0_r.
  unfold Position_valid in *. lia.
Qed.

Variable seen : Creature -> Position -> bool.
Variable goToFollowCreature : Creature -> Creature * list Event.

(** X16. setAttackedCreature with a target, for a creature whose
    canSee(pos) is, on its own floor, the static canSee with the view
    ranges rx and ry: Creature::canSee(pos) with the viewport of the map,
    Npc::canSee with 3 and 3.  It answers true exactly when the target
    is on the creature's floor and within rx and ry tiles on the two
    axes.  Then the target is kept, the two hooks run and every summon
    is given the same order, in the order of the summon list; otherwise
    the attack target is cleared, the one held before included, and no
    summon is told. *)
Theorem setAttackedCreature_in_view (rx ry : Z) (c : Creature) (target : Z)
    (creaturePos : Position) :
  Position_valid (position c) -> Position_valid creaturePos ->
  view_range_ok rx -> view_range_ok ry ->
  (forall pos, z pos = z (position c) ->
     seen c pos = canSee (position c) pos rx ry) ->
  let '(ok, c', evs) :=
    setAttackedCreature seen c (Some (target, creaturePos)) in
  (ok = true
   <-> z creaturePos = z (position c)
       /\ Z.abs (x creaturePos - x (position c)) <= rx
       /\ Z.abs (y creaturePos - y (position c)) <= ry)
  /\ (ok = true ->
      attackedCreature c' = Some target
      /\ evs = [EvOnAttackedCreature target; EvTargetOnAttacked target]
               ++ map (fun s => EvSummonSetAttackedCreature s (Some target))
                    (summons c))
  /\ (ok = false -> attackedCreature c' = None /\ evs = []).
Proof.
  intros H1 H2 Hrx Hry Hseen. unfold setAttackedCreature.
  destruct (z creaturePos =? z (position c)) eqn:Ez; simpl negb; simpl orb.
  - apply Z.eqb_eq in Ez. rewrite (Hseen creaturePos Ez).
    pose proof (canSee_own_floor (position c) creaturePos rx ry H1 H2 Hrx Hry
                  Ez) as Hc.
    destruct (canSee (position c) creaturePos rx ry); simpl negb; cbv iota.
    + split; [|split; [intros _; split; reflexivity|discriminate]].
      split; [intros _|reflexivity].
      split; [exact Ez|apply Hc; reflexivity].
    + split; [|split; [discriminate|intros _; split; reflexivity]].
      split; [discriminate|]. intros (_ & Hxy). apply Hc. exact Hxy.
  - apply Z.eqb_neq in Ez.
    split; [|split; [discriminate|intros _; split; reflexivity]].
    split; [discriminate|]. intros (Heq & _). contradiction.
Qed.

(** X17. A creature that disappears is no target any more: after
    onCreatureDisappear the attack target and the follow target are
    cleared when they were that creature and kept when they were another,
    and when the attack target is cleared every summon is told to drop
    its own. *)
Theorem onCreatureDisappear_forgets (c : Creature) (creature : Z)
    (isLogout : bool) :
  let '(c', evs) :=
    onCreatureDisappear seen goToFollowCreature c creature isLogout in
  attackedCreature c'
  = (if decide (attackedCreature c = Some creature) then None
     else attackedCreature c)
  /\ followCreature c'
     = (if decide (followCreature c = Some creature) then None
        else followCreature c)
  /\ attackedCreature c' <> Some creature
  /\ followCreature c' <> Some creature
  /\ (attackedCreature c = Some creature ->
      forall s, In s (summons c) -> In (EvSummonSetAttackedCreature s None) evs).
Proof.
  unfold onCreatureDisappear.
  destruct c as [pos att fol sums dirs hp fu up mon]. simpl.
  destruct att as [a|]; destruct fol as [f|]; simpl;
    repeat match goal with
    | |- context [?a =? ?b] =>
        let E := fresh "E" in
        destruct (a =? b) eqn:E;
        [apply Z.eqb_eq in E; subst|apply Z.eqb_neq in E]; simpl
    | |- context [decide ?P] => destruct (decide P); simpl
    end;
    repeat split; try congruence; try discriminate.
  all: intros _ s Hs; apply in_or_app; left; try (apply in_or_app; left);
    apply in_map_iff; exists s; split; [reflexivity|exact Hs].
Qed.


(** X18. setFollowCreature with a target, for a creature whose
    canSee(pos) is, on its own floor, the static canSee with the view
    ranges rx and ry: Creature::canSee(pos) with the viewport of the map,
    Npc::canSee with 3 and 3.  When the target is the one already
    followed the answer is true and nothing changes, wherever the target
    is.  Otherwise the answer is true exactly when the target is on the
    creature's floor and within rx and ry tiles on the two axes.  On
    failure the follow target is cleared and the walk queue is kept.  On
    success the target is kept, the walk queue is emptied (onWalkAborted
    runs exactly when it was not empty) and the follow path flags are
    reset; then a monster goes to the target at once, and any other
    creature sets isUpdatingPath and leaves that to its next think;
    onFollowCreature runs last. *)
Theorem setFollowCreature_result (rx ry : Z) (c : Creature) (target : Z)
    (creaturePos : Position) :
  Position_valid (position c) -> Position_valid creaturePos ->
  view_range_ok rx -> view_range_ok ry ->
  (forall pos, z pos = z (position c) ->
     seen c pos = canSee (position c) pos rx ry) ->
  let '(ok, c', evs) :=
    setFollowCreature seen goToFollowCreature c
      (Some (target, creaturePos)) in
  let aborted :=
    match listWalkDir c with [] => [] | _ :: _ => [EvOnWalkAborted] end in
  (followCreature c = Some target -> ok = true /\ c' = c /\ evs = [])
  /\ (followCreature c <> Some target ->
      (ok = true
       <-> z creaturePos = z (position c)
           /\ Z.abs (x creaturePos - x (position c)) <= rx
           /\ Z.abs (y creaturePos - y (position c)) <= ry)
      /\ (ok = false ->
          followCreature c' = None /\ listWalkDir c' = listWalkDir c
          /\ evs = [])
      /\ (ok = true -> isMonster c = false ->
          c' = set_follow c (Some target) [] false false true
          /\ evs = aborted ++ [EvOnFollowCreature (Some target)])
      /\ (ok = true -> isMonster c = true ->
          let planned :=
            goToFollowCreature
              (set_follow c (Some target) [] false false false) in
          c' = fst planned
          /\ evs = aborted ++ snd planned
                   ++ [EvOnFollowCreature (Some target)])).
Proof.
  intros H1 H2 Hrx Hry Hseen. unfold setFollowCreature.
  assert (Hsame : match followCreature c with
                  | Some f => f =? target
                  | None => false
                  end = true <-> followCreature c = Some target).
  { destruct (followCreature c) as [f|]; [|split; discriminate].
    rewrite Z.eqb_eq. split; congruence. }
  destruct (match followCreature c with
            | Some f => f =? target
            | None => false
            end) eqn:Ef.
  - split; [auto|]. intros Hne. exfalso. apply Hne. apply Hsame. reflexivity.
  - assert (Hne : followCreature c <> Some target).
    { intros H. apply Hsame in H. discriminate. }
    destruct (z creaturePos =? z (position c)) eqn:Ez; simpl negb; simpl orb.
    + apply Z.eqb_eq in Ez. rewrite (Hseen creaturePos Ez).
      pose proof (canSee_own_floor (position c) creaturePos rx ry H1 H2 Hrx
                    Hry Ez) as Hc.
      destruct (canSee (position c) creaturePos rx ry); simpl negb; cbv iota.
      * assert (Hview : z creaturePos = z (position c)
                        /\ Z.abs (x creaturePos - x (position c)) <= rx
                        /\ Z.abs (y creaturePos - y (position c)) <= ry).
        { split; [exact Ez|apply Hc; reflexivity]. }
        destruct (listWalkDir c) as [|d dirs] eqn:El;
          destruct (isMonster c) eqn:Em; cbv iota beta;
          try (destruct (goToFollowCreature
                           (set_follow c (Some target) [] false false false))
                 as [c1 evs2] eqn:Eg);
          cbv zeta;
          (split; [intros H; contradiction|]); intros _;
          (split; [split; [intros _; exact Hview|reflexivity]|]);
          (split; [discriminate|]);
          (split; [intros _; try discriminate; intros _;
                   split; reflexivity
                  |intros _; try discriminate; intros _;
                   split; reflexivity]).
      * split; [intros H; contradiction|]. intros _.
        split; [|split; [intros _; repeat split; reflexivity
                        |split; discriminate]].
        split; [discriminate|]. intros (_ & Hxy). apply Hc. exact Hxy.
    + apply Z.eqb_neq in Ez.
      split; [intros H; contradiction|]. intros _.
      split; [|split; [intros _; repeat split; reflexivity
                      |split; discriminate]].
      split; [discriminate|]. intros (Heq & _). contradiction.
Qed.

End SightFacts.

(** X14 between floor 7 and floor 5, with a view of 8 by 6. *)
Lemma canSee_characterised_floors :
  (Sight.canSee (WalkCache.mkPosition 100 100 7) (WalkCache.mkPosition 105 96 5)
     8 6 = true
   <-> ((7 <= 7 /\ 5 <= 7) \/ (8 <= 7 /\ 8 <= 5 /\ Z.abs (7 - 5) <= 2))
       /\ Z.abs (105 - 100 - (7 - 5)) <= 8
       /\ Z.abs (96 - 100 - (7 - 5)) <= 6)
  /\ Sight.canSee (WalkCache.mkPosition 105 96 5) (WalkCache.mkPosition 100 100 7)
       8 6
     = Sight.canSee (WalkCache.mkPosition 100 100 7)
         (WalkCache.mkPosition 105 96 5) 8 6.
Proof.
  apply (canSee_characterised (WalkCache.mkPosition 100 100 7)
           (WalkCache.mkPosition 105 96 5) 8 6);
    vm_compute; repeat split; discriminate.
Defined.

(** X15 at the corner of the square. *)
Lemma Npc_canSee_square_corner :
  Sight.Npc_canSee (WalkCache.mkPosition 100 100 7)
    (WalkCache.mkPosition 103 97 7) = true
  <-> 7 = 7 /\ Z.abs (103 - 100) <= 3 /\ Z.abs (97 - 100) <= 3.
Proof.
  apply (Npc_canSee_square (WalkCache.mkPosition 100 100 7)
           (WalkCache.mkPosition 103 97 7));
    vm_compute; repeat split; discriminate.
Defined.

(** X16 on the shopkeeper, an NPC, and a target 3 tiles east and 2
    tiles north. *)
Lemma setAttackedCreature_in_view_shopkeeper :
  let '(ok, c', evs) :=
    Sight.setAttackedCreature (fun c => Sight.Npc_canSee (Sight.position c))
      shopkeeper (Some (12, WalkCache.mkPosition 53 48 7)) in
  (ok = true
   <-> 7 = 7 /\ Z.abs (53 - 50) <= 3 /\ Z.abs (48 - 50) <= 3)
  /\ (ok = true ->
      Sight.attackedCreature c' = Some 12
      /\ evs = [Sight.EvOnAttackedCreature 12; Sight.EvTargetOnAttacked 12]
               ++ map (fun s => Sight.EvSummonSetAttackedCreature s (Some 12))
                    (Sight.summons shopkeeper))
  /\ (ok = false -> Sight.attackedCreature c' = None /\ evs = []).
Proof.
  apply (setAttackedCreature_in_view
           (fun c => Sight.Npc_canSee (Sight.position c)) 3 3 shopkeeper 12
           (WalkCache.mkPosition 53 48 7));
    try (vm_compute; repeat split; discriminate).
  intros pos Hz. apply Npc_canSee_own_floor, Hz.
Defined.

(** X18 on the hunter, which sees as the base class does, with a view
    of 8 by 6 and a path that needs no plan, and a target one floor
    up. *)
Lemma setFollowCreature_result_hunter :
  let '(ok, c', evs) :=
    Sight.setFollowCreature (Sight.Creature_canSee 8 6) (fun c => (c, []))
      hunter (Some (12, WalkCache.mkPosition 104 95 6)) in
  (Sight.followCreature hunter = Some 12 ->
   ok = true /\ c' = hunter /\ evs = [])
  /\ (Sight.followCreature hunter <> Some 12 ->
      (ok = true
       <-> 6 = 7 /\ Z.abs (104 - 100) <= 8 /\ Z.abs (95 - 100) <= 6)
      /\ (ok = false ->
          Sight.followCreature c' = None
          /\ Sight.listWalkDir c' = Sight.listWalkDir hunter /\ evs = [])
      /\ (ok = true -> Sight.isMonster hunter = false ->
          c' = Sight.set_follow hunter (Some 12) [] false false true
          /\ evs = [Sight.EvOnWalkAborted]
                   ++ [Sight.EvOnFollowCreature (Some 12)])
      /\ (ok = true -> Sight.isMonster hunter = true ->
          c' = Sight.set_follow hunter (Some 12) [] false false false
          /\ evs = [Sight.EvOnWalkAborted] ++ []
                   ++ [Sight.EvOnFollowCreature (Some 12)])).
Proof.
  apply (setFollowCreature_result (Sight.Creature_canSee 8 6)
           (fun c => (c, [])) 8 6 hunter 12 (WalkCache.mkPosition 104 95 6));
    vm_compute; repeat split; discriminate.
Defined.

(** ** The walk cache under the changes of the world *)

Section NotifyFacts.

Import WalkCache TileEvents.

Variable W H : Z.
Hypothesis HW : 0 <= W.
Hypothesis HH : 0 <= H.

Lemma refresh_cells (tw tw' : Z -> Z -> Z -> bool) (c : Creature)
    (pos : Position) (f : Z -> Z -> bool) :
  cells_eq W H (localMapCache c) f ->
  (forall r col, in_grid W H r col ->
     mkPosition (x (position c) + col - W) (y (position c) + r - H)
       (z (position c)) <> pos ->
     f r col = view W H tw' (position c) r col) ->
  z pos = z (position c) ->
  cache_sound W H tw' (refresh W H c (tile_at tw' pos) pos).
Proof.
  intros Hc Hf Hz. unfold cache_sound, refresh, updateTileCache. simpl.
  rewrite Hz, Z.eqb_refl.
  eapply cells_eq_ext; [apply updateTileCache_offset_cells; exact Hc|].
  intros r col Hin. cbv beta. unfold getOffsetX, getOffsetY.
  destruct ((Z.abs (x pos - x (position c)) <=? W)
            && (Z.abs (y pos - y (position c)) <=? H)
            && (r =? H + (y pos - y (position c)))
            && (col =? W + (x pos - x (position c)))) eqn:E.
  - apply andb_prop in E. destruct E as [E E4].
    apply andb_prop in E. destruct E as [E E3].
    apply Z.eqb_eq in E3, E4. unfold view, tile_at. rewrite Hz.
    f_equal; lia.
  - apply Hf; [exact Hin|]. intros Hp. subst pos. simpl in E.
    destruct Hin as [Hr Hcol]. unfold mapWalkHeight, mapWalkWidth in *.
    assert (E1 : (Z.abs (x (position c) + col - W - x (position c)) <=? W)
                 = true) by (apply Z.leb_le; lia).
    assert (E2 : (Z.abs (y (position c) + r - H - y (position c)) <=? H)
                 = true) by (apply Z.leb_le; lia).
    assert (E3 : (r =? H + (y (position c) + r - H - y (position c))) = true)
      by (apply Z.eqb_eq; lia).
    assert (E4 : (col =? W + (x (position c) + col - W - x (position c)))
                 = true) by (apply Z.eqb_eq; lia).
    rewrite E1, E2, E3, E4 in E. discriminate.
Qed.

Lemma view_same_but_at (tw tw' : Z -> Z -> Z -> bool) (p : Position)
    (changed : list Position) :
  same_but_at tw tw' changed ->
  forall r col,
    (forall q, In q changed ->
       q <> mkPosition (x p + col - W) (y p + r - H) (z p)) ->
    view W H tw p r col = view W H tw' p r col.
Proof.
  intros Hs r col Hq. unfold view. symmetry. apply Hs. exact Hq.
Qed.

(** X19. A change of one tile that the creature is told about leaves
    its cache what a rebuild would give: when the cache is what
    updateMapCache builds in the old world and the new world differs at
    one tile only, the cache after onAddTileItem, after the
    other-creature branch of onCreatureAppear and onRemoveCreature, and
    after onUpdateTileItem or onRemoveTileItem of an item that blocks (or
    is the ground), told the tile's new walkability, is what
    updateMapCache builds in the new world.  The tile may be anywhere: on
    another floor or out of the radius nothing is written. *)
Theorem tile_notification_sound (tw tw' : Z -> Z -> Z -> bool) (c : Creature)
    (pos : Position) (oldType newType : ItemType) :
  isMapLoaded c = true ->
  cache_sound W H tw c ->
  same_but_at tw tw' [pos] ->
  let ok := tile_at tw' pos in
  cache_sound W H tw' (onAddTileItem W H c ok pos)
  /\ cache_sound W H tw' (onCreatureAppear_other W H c ok pos)
  /\ (blockSolid oldType || blockPathFind oldType
      || blockPathFind newType || blockSolid newType = true ->
      cache_sound W H tw' (onUpdateTileItem W H c ok pos oldType newType))
  /\ (blockSolid oldType || blockPathFind oldType || isGroundTile oldType
      = true ->
      cache_sound W H tw' (onRemoveTileItem W H c ok pos oldType)).
Proof.
  intros Hl Hc Hs ok.
  assert (Hsame : z pos <> z (position c) -> cache_sound W H tw' c).
  { intros Hz. unfold cache_sound in *. eapply cells_eq_ext; [exact Hc|].
    intros r col _. apply (view_same_but_at tw tw' _ [pos] Hs).
    intros q [<-|[]] Hq. apply Hz. rewrite Hq. reflexivity. }
  assert (Hupd : z pos = z (position c) ->
                 cache_sound W H tw' (refresh W H c ok pos)).
  { intros Hz. apply (refresh_cells tw tw' c pos _ Hc); [|exact Hz].
    intros r col _ Hne. apply (view_same_but_at tw tw' _ [pos] Hs).
    intros q [<-|[]] Hq. apply Hne. rewrite Hq. reflexivity. }
  unfold onAddTileItem, onCreatureAppear_other, onUpdateTileItem,
    onRemoveTileItem. rewrite Hl. simpl negb. simpl andb. cbv iota.
  destruct (z pos =? z (position c)) eqn:Ez;
    [apply Z.eqb_eq in Ez|apply Z.eqb_neq in Ez].
  - split; [auto|]. split; [auto|]. split; intros ->; auto.
  - split; [auto|]. split; [auto|]. split; intros ->; auto.
Qed.

Lemma refresh_cells_fun (c : Creature) (ok : bool) (pos : Position)
    (f : Z -> Z -> bool) :
  cells_eq W H (localMapCache c) f ->
  z pos = z (position c) ->
  cells_eq W H (localMapCache (refresh W H c ok pos))
    (fun r col =>
       if (x (position c) + col - W =? x pos)
          && (y (position c) + r - H =? y pos)
       then ok else f r col).
Proof.
  intros Hc Hz. unfold refresh, updateTileCache. simpl.
  rewrite Hz, Z.eqb_refl.
  eapply cells_eq_ext; [apply updateTileCache_offset_cells; exact Hc|].
  intros r col [Hr Hcol]. cbv beta. unfold getOffsetX, getOffsetY.
  unfold mapWalkHeight, mapWalkWidth in *.
  destruct (x (position c) + col - W =? x pos) eqn:E1;
    destruct (y (position c) + r - H =? y pos) eqn:E2; simpl andb.
  - apply Z.eqb_eq in E1, E2.
    assert (Ea : (Z.abs (x pos - x (position c)) <=? W) = true)
      by (apply Z.leb_le; lia).
    assert (Eb : (Z.abs (y pos - y (position c)) <=? H) = true)
      by (apply Z.leb_le; lia).
    assert (Ec : (r =? H + (y pos - y (position c))) = true)
      by (apply Z.eqb_eq; lia).
    assert (Ed : (col =? W + (x pos - x (position c))) = true)
      by (apply Z.eqb_eq; lia).
    rewrite Ea, Eb, Ec, Ed. reflexivity.
  - apply Z.eqb_neq in E2.
    assert (Ec : (r =? H + (y pos - y (position c))) = false)
      by (apply Z.eqb_neq; lia).
    rewrite Ec, andb_false_r. reflexivity.
  - apply Z.eqb_neq in E1.
    assert (Ed : (col =? W + (x pos - x (position c))) = false)
      by (apply Z.eqb_neq; lia).
    rewrite Ed, andb_false_r. reflexivity.
  - apply Z.eqb_neq in E1.
    assert (Ed : (col =? W + (x pos - x (position c))) = false)
      by (apply Z.eqb_neq; lia).
    rewrite Ed, andb_false_r. reflexivity.
Qed.

(** X20. Another creature's move leaves the cache what a rebuild would
    give: when the two worlds differ at most at the tile the creature
    left and the tile it entered, the cache after the other-creature
    branch of onCreatureMove is what updateMapCache builds in the new
    world. *)
Theorem creature_move_notification_sound (tw tw' : Z -> Z -> Z -> bool)
    (c : Creature) (newPos oldPos : Position) :
  isMapLoaded c = true ->
  cache_sound W H tw c ->
  same_but_at tw tw' [newPos; oldPos] ->
  cache_sound W H tw'
    (onCreatureMove_other W H c (tile_at tw' newPos) newPos
       (tile_at tw' oldPos) oldPos).
Proof.
  intros Hl Hc Hs. unfold onCreatureMove_other. rewrite Hl.
  set (c1 := if z newPos =? z (position c)
             then refresh W H c (tile_at tw' newPos) newPos else c).
  assert (Hp1 : position c1 = position c).
  { unfold c1. destruct (_ =? _); reflexivity. }
  set (f1 := fun r col =>
               if (z newPos =? z (position c))
                  && (x (position c) + col - W =? x newPos)
                  && (y (position c) + r - H =? y newPos)
               then tile_at tw' newPos else view W H tw (position c) r col).
  assert (H1 : cells_eq W H (localMapCache c1) f1).
  { unfold c1, f1. destruct (z newPos =? z (position c)) eqn:Ez.
    - apply Z.eqb_eq in Ez. simpl andb.
      apply (refresh_cells_fun c _ newPos _ Hc Ez).
    - exact Hc. }
  assert (Hf1 : forall r col,
            mkPosition (x (position c) + col - W) (y (position c) + r - H)
              (z (position c)) <> oldPos ->
            f1 r col = view W H tw' (position c) r col).
  { intros r col Hne. unfold f1.
    destruct ((z newPos =? z (position c))
              && (x (position c) + col - W =? x newPos)
              && (y (position c) + r - H =? y newPos)) eqn:E.
    - apply andb_prop in E. destruct E as [E E3].
      apply andb_prop in E. destruct E as [E1 E2].
      apply Z.eqb_eq in E1, E2, E3. unfold view, tile_at.
      rewrite E1, E2, E3. reflexivity.
    - apply (view_same_but_at tw tw' _ _ Hs).
      intros q [<-|[<-|[]]] Hq.
      + rewrite Hq in E. simpl in E. rewrite !Z.eqb_refl in E. discriminate.
      + apply Hne. rewrite Hq. reflexivity. }
  rewrite Hp1. destruct (z oldPos =? z (position c)) eqn:Ez;
    [apply Z.eqb_eq in Ez|apply Z.eqb_neq in Ez].
  - unfold cache_sound.
    pose proof (refresh_cells_fun c1 (tile_at tw' oldPos) oldPos f1 H1
                  ltac:(rewrite Hp1; exact Ez)) as H2.
    change (position (refresh W H c1 (tile_at tw' oldPos) oldPos))
      with (position c1). rewrite Hp1 in *.
    eapply cells_eq_ext; [exact H2|].
    intros r col _. cbv beta.
    destruct ((x (position c) + col - W =? x oldPos)
              && (y (position c) + r - H =? y oldPos)) eqn:E.
    + apply andb_prop in E. destruct E as [E1 E2].
      apply Z.eqb_eq in E1, E2. unfold view, tile_at.
      rewrite E1, E2, Ez. reflexivity.
    + apply Hf1. intros Hq. rewrite <- Hq in E. simpl in E.
      rewrite !Z.eqb_refl in E. discriminate.
  - unfold cache_sound. rewrite Hp1.
    eapply cells_eq_ext; [exact H1|].
    intros r col _. apply Hf1. intros Hq. apply Ez. rewrite <- Hq.
    reflexivity.
Qed.


Lemma walk_cells (tw : Z -> Z -> Z -> bool) (path : list Position) :
  forall c,
    isMapLoaded c = true -> useCacheMap c = true ->
    cache_sound W H tw c ->
    sound_path W H (position c) path ->
    let c' := walk W H tw c path in
    position c' = List.last path (position c)
    /\ isMapLoaded c' = true /\ useCacheMap c' = true
    /\ cache_sound W H tw c'.
Proof.
  induction path as [|next rest IH]; intros c Hl Hu Hg Hp.
  - simpl. auto.
  - destruct Hp as (Hstep & Hnext & Hrest).
    pose proof (step_fields W H tw c next) as (Hpos & Huse & Hload).
    pose proof (step_cells W H HW HH tw c next Hl Hg Hnext Hstep) as Hcells.
    specialize (IH (step W H tw c next)).
    rewrite Hpos, Huse, Hload in IH.
    assert (Hcells' : cache_sound W H tw (step W H tw c next)).
    { unfold cache_sound. rewrite Hpos. exact Hcells. }
    specialize (IH Hl Hu Hcells' Hrest).
    simpl walk. cbv zeta in IH. destruct IH as (Hp' & Hl' & Hu' & Hg').
    cbv zeta. split; [|split; [|split]]; try assumption.
    rewrite Hp'. symmetry. apply last_cons.
Qed.

Lemma getWalkCache_sound (tw : Z -> Z -> Z -> bool) (c : Creature)
    (pos : Position) :
  useCacheMap c = true -> cache_sound W H tw c ->
  z pos = z (position c) -> pos <> position c ->
  Z.abs (x pos - x (position c)) <= W ->
  Z.abs (y pos - y (position c)) <= H ->
  getWalkCache W H c pos = if tile_at tw pos then 1 else 0.
Proof.
  intros Hu [Hwf Hc] Hz Hne Hx Hy. unfold getWalkCache. rewrite Hu. simpl negb.
  cbv iota. rewrite Hz, Z.eqb_refl. simpl negb. cbv iota.
  destruct (Position_eqb pos (position c)) eqn:E.
  - apply Position_eqb_eq in E. contradiction.
  - unfold getOffsetX, getOffsetY.
    rewrite (proj2 (Z.leb_le _ _) Hx), (proj2 (Z.leb_le _ _) Hy). simpl andb.
    cbv iota. rewrite Hc.
    + unfold view, tile_at. rewrite <- Hz.
      replace (x (position c) + (W + (x pos - x (position c))) - W)
        with (x pos) by lia.
      replace (y (position c) + (H + (y pos - y (position c))) - H)
        with (y pos) by lia.
      reflexivity.
    + unfold in_grid, mapWalkHeight, mapWalkWidth. lia.
Qed.

(** X21. After a walk the cache answers with the truth: a creature
    that appears inside the map and takes any sequence of sound steps is
    where its last step took it, and getWalkCache answers 1 for a
    walkable and 0 for a blocked tile, for every other position of its
    floor within the radius of the cache. *)
Theorem getWalkCache_after_walk (tw : Z -> Z -> Z -> bool) (p : Position)
    (path : list Position) (pos : Position) :
  inside_map W H p -> sound_path W H p path ->
  let c := walk W H tw (appear W H tw p) path in
  z pos = z (position c) -> pos <> position c ->
  Z.abs (x pos - x (position c)) <= W ->
  Z.abs (y pos - y (position c)) <= H ->
  position c = List.last path p
  /\ getWalkCache W H c pos = if tile_at tw pos then 1 else 0.
Proof.
  intros Hin Hpath c Hz Hne Hx Hy.
  destruct (walk_cells tw path (appear W H tw p) eq_refl eq_refl
              (appear_cells W H HW HH tw p Hin) Hpath)
    as (Hpos & Hl & Hu & Hg).
  split; [exact Hpos|].
  apply getWalkCache_sound; assumption.
Qed.

Local Ltac moved_cells Hcells Hs Hz :=
  repeat match goal with
    | |- context [?a =? ?b] => destruct (Z.eqb_spec a b)
    | |- context [?a <? ?b] => destruct (Z.ltb_spec a b)
    | |- context [?a <=? ?b] => destruct (Z.leb_spec a b)
    end;
  simpl; unfold view; try lia; try (f_equal; lia);
  try (match goal with
       | |- grid_get _ ?a ?b = _ =>
           rewrite (Hcells a b)
             by (unfold in_grid, mapWalkHeight, mapWalkWidth in *; lia)
       end;
       unfold view; rewrite <- Hs;
       [f_equal; lia
       |let p := fresh "p" in
        let Hp := fresh "Hp" in
        let Heq := fresh "Heq" in
        intros p Hp Heq;
        destruct Hp as [Hp|[Hp|[]]]; subst p;
        pose proof (f_equal x Heq); pose proof (f_equal y Heq);
        simpl in *; lia]).

Lemma step_cells_changing (tw tw' : Z -> Z -> Z -> bool) (c : Creature)
    (new : Position) :
  isMapLoaded c = true ->
  grid_wf W H (localMapCache c) ->
  (forall r col, in_grid W H r col -> r <> H \/ col <> W ->
     grid_get (localMapCache c) r col = view W H tw (position c) r col) ->
  inside_map W H new ->
  sound_step (position c) new ->
  same_but_at tw tw' [position c; new] ->
  grid_wf W H (localMapCache (step W H tw' c new))
  /\ forall r col, in_grid W H r col -> r <> H \/ col <> W ->
       grid_get (localMapCache (step W H tw' c new)) r col
       = view W H tw' new r col.
Proof.
  intros Hloaded Hwf Hcells Hin (Hz & Hdx & Hdy & Hsound) Hs.
  assert (Hg : cells_eq W H (localMapCache c) (grid_get (localMapCache c)))
    by (split; [exact Hwf|reflexivity]).
  unfold step, onCreatureMove. simpl. rewrite Hloaded.
  assert (Ez : (z (position c) =? z new) = true) by (apply Z.eqb_eq; lia).
  rewrite Ez. simpl.
  set (old := position c) in *. set (g := localMapCache c) in *.
  unfold updateTileCache. rewrite <- Hz, Z.eqb_refl.
  unfold getOffsetX, getOffsetY.
  assert (Hady : Z.abs (y old - y new) <= 1) by lia.
  assert (Hfin : forall g2 f2,
            cells_eq W H g2 f2 ->
            (forall r col, in_grid W H r col -> r <> H \/ col <> W ->
               (r <> H + (y old - y new) \/ col <> W + (x old - x new)) ->
               f2 r col = view W H tw' new r col) ->
            grid_wf W H
              (updateTileCache_offset W H g2 (tw' (x old) (y old) (z new))
                 (x old - x new) (y old - y new))
            /\ forall r col, in_grid W H r col -> r <> H \/ col <> W ->
                 grid_get
                   (updateTileCache_offset W H g2
                      (tw' (x old) (y old) (z new))
                      (x old - x new) (y old - y new)) r col
                 = view W H tw' new r col).
  { intros g2 f2 Hg2 Hf2.
    pose proof (updateTileCache_offset_cells W H g2 f2
                  (tw' (x old) (y old) (z new)) (x old - x new)
                  (y old - y new) Hg2) as [Hwf' Hc'].
    split; [exact Hwf'|]. intros r col Hrc Hoff. rewrite Hc' by exact Hrc.
    destruct ((Z.abs (x old - x new) <=? W) && (Z.abs (y old - y new) <=? H)
              && (r =? H + (y old - y new)) && (col =? W + (x old - x new)))
      eqn:E.
    - apply andb_prop in E. destruct E as [E E4].
      apply andb_prop in E. destruct E as [E E3].
      apply Z.eqb_eq in E3, E4. unfold view. f_equal; lia.
    - apply Hf2; [exact Hrc|exact Hoff|].
      destruct (Z.eq_dec r (H + (y old - y new))) as [Hr|Hr]; [|left; exact Hr].
      destruct (Z.eq_dec col (W + (x old - x new))) as [Hc|Hc];
        [|right; exact Hc].
      exfalso. destruct Hrc as [Hr1 Hc1].
      unfold mapWalkHeight, mapWalkWidth in *.
      rewrite (proj2 (Z.leb_le _ _)) in E by lia.
      rewrite (proj2 (Z.leb_le _ _)) in E by lia.
      rewrite (proj2 (Z.eqb_eq _ _) Hr), (proj2 (Z.eqb_eq _ _) Hc) in E.
      discriminate. }
  destruct (Z.lt_trichotomy (y new) (y old)) as [Hn | [Hl | Hso]].
  - (* north *)
    pose proof (shift_rows_north W H HW HH tw' _ _ old new Hn Hin Hg) as Hrows.
    destruct (Z.lt_trichotomy (x new) (x old)) as [Hw | [Hc | He]].
    + eapply Hfin;
        [apply shift_columns_west; [exact HW|exact HH|lia|exact Hady|exact Hin|exact Hrows]|].
      intros r col [Hr Hcol] Hoff Hleft. cbv beta.
      unfold mapWalkHeight, mapWalkWidth in *.
      assert (Z.abs (y old - y new) = 1) as -> by lia.
      moved_cells Hcells Hs Hz.
    + rewrite shift_columns_level by lia.
      eapply Hfin; [exact Hrows|].
      intros r col [Hr Hcol] Hoff Hleft. cbv beta.
      unfold mapWalkHeight, mapWalkWidth in *.
      moved_cells Hcells Hs Hz.
    + eapply Hfin;
        [apply shift_columns_east; [exact HW|exact HH|lia|exact Hady|exact Hin|exact Hrows]|].
      intros r col [Hr Hcol] Hoff Hleft. cbv beta.
      unfold mapWalkHeight, mapWalkWidth in *.
      assert (Z.abs (y old - y new) = 1) as -> by lia.
      moved_cells Hcells Hs Hz.
  - (* level *)
    rewrite shift_rows_level by lia.
    destruct (Z.lt_trichotomy (x new) (x old)) as [Hw | [Hc | He]].
    + eapply Hfin;
        [apply shift_columns_west; [exact HW|exact HH|lia|exact Hady|exact Hin|exact Hg]|].
      intros r col [Hr Hcol] Hoff Hleft. cbv beta.
      unfold mapWalkHeight, mapWalkWidth in *.
      assert (Z.abs (y old - y new) = 0) as -> by lia.
      moved_cells Hcells Hs Hz.
    + rewrite shift_columns_level by lia.
      eapply Hfin; [exact Hg|].
      intros r col [Hr Hcol] Hoff Hleft.
      unfold mapWalkHeight, mapWalkWidth in *.
      moved_cells Hcells Hs Hz.
    + eapply Hfin;
        [apply shift_columns_east; [exact HW|exact HH|lia|exact Hady|exact Hin|exact Hg]|].
      intros r col [Hr Hcol] Hoff Hleft. cbv beta.
      unfold mapWalkHeight, mapWalkWidth in *.
      assert (Z.abs (y old - y new) = 0) as -> by lia.
      moved_cells Hcells Hs Hz.
  - (* south: the step is not diagonal *)
    assert (Hx : x new = x old) by lia.
    pose proof (shift_rows_south W H HW HH tw' _ _ old new Hso Hin Hg) as Hrows.
    rewrite shift_columns_level by lia.
    eapply Hfin; [exact Hrows|].
    intros r col [Hr Hcol] Hoff Hleft. cbv beta.
    unfold mapWalkHeight, mapWalkWidth in *.
    moved_cells Hcells Hs Hz.
Qed.

Lemma last_cons_any {A : Type} (a d : A) (l : list A) :
  List.last (a :: l) d = List.last l a.
Proof.
  revert a d. induction l as [|b l IH]; intros a d; [reflexivity|].
  change (List.last (a :: b :: l) d) with (List.last (b :: l) d).
  rewrite !IH. reflexivity.
Qed.

Lemma walk_through_cells
    (path : list (Position * (Z -> Z -> Z -> bool))) :
  forall (tw : Z -> Z -> Z -> bool) (c : Creature),
    isMapLoaded c = true ->
    grid_wf W H (localMapCache c) ->
    (forall r col, in_grid W H r col -> r <> H \/ col <> W ->
       grid_get (localMapCache c) r col = view W H tw (position c) r col) ->
    inside_map W H (position c) ->
    sound_walk W H (position c) tw path ->
    let c' := walk_through W H c path in
    position c' = List.last (map fst path) (position c)
    /\ inside_map W H (position c')
    /\ grid_wf W H (localMapCache c')
    /\ forall r col, in_grid W H r col -> r <> H \/ col <> W ->
         grid_get (localMapCache c') r col
         = view W H (List.last (map snd path) tw) (position c') r col.
Proof.
  induction path as [|[next tw'] rest IH]; intros tw c Hl Hwf Hc Hin Hp.
  - simpl. auto.
  - destruct Hp as (Hstep & Hnext & Hs & Hrest). simpl fst in *. simpl snd in *.
    pose proof (step_fields W H tw' c next) as (Hpos & _ & Hload).
    destruct (step_cells_changing tw tw' c next Hl Hwf Hc Hnext Hstep Hs)
      as [Hwf' Hc'].
    specialize (IH tw' (step W H tw' c next)).
    rewrite Hpos, Hload in IH.
    specialize (IH Hl Hwf' Hc' Hnext Hrest). cbv zeta in IH.
    destruct IH as (Hp' & Hin' & Hwf'' & Hc'').
    cbv zeta. simpl walk_through. simpl map.
    rewrite !last_cons_any. auto.
Qed.

(** X4. Whatever the radius of the cache, and although the world
    answers differently for the tile the creature stands on: a creature
    that appears inside the map and then takes any sequence of steps to
    neighbouring tiles of its floor, none of them to the south-east or
    south-west, each of which changes the world at most at the tile left
    and at the tile entered, holds in every cell but the one of its own
    tile what it would build from scratch, in the world as it is then, at
    the position it has reached. *)
Theorem walk_through_rebuild (tw0 : Z -> Z -> Z -> bool) (p : Position)
    (path : list (Position * (Z -> Z -> Z -> bool))) :
  inside_map W H p -> sound_walk W H p tw0 path ->
  let c := walk_through W H (appear W H tw0 p) path in
  let rebuilt :=
    appear W H (List.last (map snd path) tw0) (List.last (map fst path) p) in
  position c = position rebuilt
  /\ forall r col, in_grid W H r col -> r <> H \/ col <> W ->
       grid_get (localMapCache c) r col
       = grid_get (localMapCache rebuilt) r col.
Proof.
  intros Hin Hpath c rebuilt.
  destruct (appear_cells W H HW HH tw0 p Hin) as [Hwf0 Hc0].
  destruct (walk_through_cells path tw0 (appear W H tw0 p) eq_refl Hwf0
              (fun r col Hrc _ => Hc0 r col Hrc) Hin Hpath)
    as (Hpos & Hin' & Hwf & Hc).
  change (position (appear W H tw0 p)) with p in Hpos.
  fold c in Hpos, Hin', Hwf, Hc.
  split; [exact Hpos|]. intros r col Hrc Hoff.
  rewrite (Hc r col Hrc Hoff).
  rewrite Hpos in Hin' |- *.
  destruct (appear_cells W H HW HH (List.last (map snd path) tw0) _ Hin')
    as [_ Hreb].
  symmetry. apply Hreb, Hrc.
Qed.

End NotifyFacts.

(** The cache of the scout is the one of a rebuild. *)
Lemma scout_cache_sound : cache_sound 11 11 wall_95_90 scout.
Proof.
  unfold cache_sound, scout.
  apply (appear_cells 11 11 ltac:(lia) ltac:(lia)).
  unfold inside_map. simpl. lia.
Qed.

(** The wall is the only change of the world. *)
Lemma wall_added_same : same_but_at wall_95_90 wall_added
                          [WalkCache.mkPosition 102 100 7].
Proof.
  intros x y z Hne. unfold wall_added.
  destruct ((x =? 102) && (y =? 100) && (z =? 7)) eqn:E; [|reflexivity].
  apply andb_prop in E. destruct E as [E Ez].
  apply andb_prop in E. destruct E as [Ex Ey].
  apply Z.eqb_eq in Ex, Ey, Ez. subst. exfalso.
  apply (Hne (WalkCache.mkPosition 102 100 7)); [left|]; reflexivity.
Qed.

(** X19 on the scout, told of the wall put on (102, 100). *)
Lemma tile_notification_sound_scout :
  let pos := WalkCache.mkPosition 102 100 7 in
  let solid := TileEvents.mkItemType true true false in
  let ok := tile_at wall_added pos in
  cache_sound 11 11 wall_added (TileEvents.onAddTileItem 11 11 scout ok pos)
  /\ cache_sound 11 11 wall_added
       (TileEvents.onCreatureAppear_other 11 11 scout ok pos)
  /\ (true = true ->
      cache_sound 11 11 wall_added
        (TileEvents.onUpdateTileItem 11 11 scout ok pos solid solid))
  /\ (true = true ->
      cache_sound 11 11 wall_added
        (TileEvents.onRemoveTileItem 11 11 scout ok pos solid)).
Proof.
  exact (tile_notification_sound 11 11 wall_95_90 wall_added scout
           (WalkCache.mkPosition 102 100 7)
           (TileEvents.mkItemType true true false)
           (TileEvents.mkItemType true true false)
           eq_refl scout_cache_sound wall_added_same).
Defined.

(** The step of the creature changes the two tiles only. *)
Lemma creature_stepped_same :
  same_but_at wall_95_90 creature_stepped
    [WalkCache.mkPosition 99 101 7; WalkCache.mkPosition 99 100 7].
Proof.
  intros x y z Hne. unfold creature_stepped.
  destruct ((x =? 99) && (y =? 101) && (z =? 7)) eqn:E.
  - apply andb_prop in E. destruct E as [E Ez].
    apply andb_prop in E. destruct E as [Ex Ey].
    apply Z.eqb_eq in Ex, Ey, Ez. subst. exfalso.
    apply (Hne (WalkCache.mkPosition 99 101 7)); [left|]; reflexivity.
  - destruct ((x =? 99) && (y =? 100) && (z =? 7)) eqn:E'; [|reflexivity].
    apply andb_prop in E'. destruct E' as [E' Ez].
    apply andb_prop in E'. destruct E' as [Ex Ey].
    apply Z.eqb_eq in Ex, Ey, Ez. subst. exfalso.
    apply (Hne (WalkCache.mkPosition 99 100 7)); [right; left|]; reflexivity.
Qed.

(** X20 on the scout, told of the step from (99, 100) to (99, 101). *)
Lemma creature_move_notification_sound_scout :
  cache_sound 11 11 creature_stepped
    (TileEvents.onCreatureMove_other 11 11 scout
       (tile_at creature_stepped (WalkCache.mkPosition 99 101 7))
       (WalkCache.mkPosition 99 101 7)
       (tile_at creature_stepped (WalkCache.mkPosition 99 100 7))
       (WalkCache.mkPosition 99 100 7)).
Proof.
  exact (creature_move_notification_sound 11 11 wall_95_90 creature_stepped
           scout (WalkCache.mkPosition 99 101 7)
           (WalkCache.mkPosition 99 100 7)
           eq_refl scout_cache_sound creature_stepped_same).
Defined.

(** X21 on the scout: after two steps it is at (101, 98) and knows the
    wall at (95, 90). *)
Lemma getWalkCache_after_walk_scout :
  let c :=
    WalkCache.walk 11 11 wall_95_90
      (WalkCache.appear 11 11 wall_95_90 (WalkCache.mkPosition 100 100 7))
      [WalkCache.mkPosition 100 99 7; WalkCache.mkPosition 101 98 7] in
  WalkCache.position c = WalkCache.mkPosition 101 98 7
  /\ WalkCache.getWalkCache 11 11 c (WalkCache.mkPosition 95 90 7) = 0.
Proof.
  cbv zeta.
  destruct (getWalkCache_after_walk 11 11 ltac:(lia) ltac:(lia) wall_95_90
              (WalkCache.mkPosition 100 100 7)
              [WalkCache.mkPosition 100 99 7; WalkCache.mkPosition 101 98 7]
              (WalkCache.mkPosition 95 90 7)) as [Hpos Hcache].
  - unfold inside_map. simpl. lia.
  - unfold sound_path, sound_step, inside_map. simpl. lia.
  - reflexivity.
  - vm_compute. discriminate.
  - vm_compute. discriminate.
  - vm_compute. discriminate.
  - split; [exact Hpos|]. rewrite Hcache. reflexivity.
Defined.

Lemma standing_at_same (p q : WalkCache.Position) :
  same_but_at (standing_at p) (standing_at q) [p; q].
Proof.
  intros x y z Hne. unfold standing_at.
  destruct (WalkCache.Position_eqb (WalkCache.mkPosition x y z) q) eqn:Eq.
  - apply Position_eqb_eq in Eq. exfalso.
    apply (Hne q); [right; left; reflexivity|]. symmetry. exact Eq.
  - destruct (WalkCache.Position_eqb (WalkCache.mkPosition x y z) p) eqn:Ep;
      [|reflexivity].
    apply Position_eqb_eq in Ep. exfalso.
    apply (Hne p); [left; reflexivity|]. symmetry. exact Ep.
Qed.

(** X4 on a creature that blocks the tile it stands on and walks north,
    north-east and west: every cell but the one of its own tile is the one
    of a rebuild; the cell of its own tile still says that the tile is
    free, as it was before the creature entered it, where a rebuild says
    that it is taken. *)
Lemma walk_through_rebuild_own_tile :
  let p0 := WalkCache.mkPosition 100 100 7 in
  let p1 := WalkCache.mkPosition 100 99 7 in
  let p2 := WalkCache.mkPosition 101 98 7 in
  let p3 := WalkCache.mkPosition 100 98 7 in
  let c :=
    walk_through 11 11 (WalkCache.appear 11 11 (standing_at p0) p0)
      [(p1, standing_at p1); (p2, standing_at p2); (p3, standing_at p3)] in
  let rebuilt := WalkCache.appear 11 11 (standing_at p3) p3 in
  (WalkCache.position c = WalkCache.position rebuilt
   /\ forall r col, in_grid 11 11 r col -> r <> 11 \/ col <> 11 ->
        WalkCache.grid_get (WalkCache.localMapCache c) r col
        = WalkCache.grid_get (WalkCache.localMapCache rebuilt) r col)
  /\ WalkCache.grid_get (WalkCache.localMapCache c) 11 11 = true
  /\ WalkCache.grid_get (WalkCache.localMapCache rebuilt) 11 11 = false.
Proof.
  intros p0 p1 p2 p3 c rebuilt. split; [|vm_compute; split; reflexivity].
  apply (walk_through_rebuild 11 11 ltac:(lia) ltac:(lia) (standing_at p0) p0
           [(p1, standing_at p1); (p2, standing_at p2); (p3, standing_at p3)]).
  - unfold inside_map. simpl. lia.
  - simpl. unfold sound_step, inside_map. simpl.
    repeat split; try lia; apply standing_at_same.
Defined.

(** ** The master/summon graph as a whole *)

Section GraphFacts.

Import Ownership.

Ltac graph_split :=
  repeat first
    [ rewrite getMaster_insert
    | rewrite getSummons_insert
    | progress simpl
    | match goal with
      | |- context [decide ?P] => destruct (decide P); subst; try congruence
      end ];
  try congruence; try reflexivity.

(** The graph setMaster leaves, whatever it answers. *)
Lemma setMaster_graph (w : World) (self : Z) (newMaster : option Z) :
  let w' := snd (setMaster w self newMaster) in
  getMaster w' self = newMaster
  /\ (forall k, k <> self -> getMaster w' k = getMaster w k)
  /\ (forall k,
        getSummons w' k
        = let added :=
            if decide (newMaster = Some k) then getSummons w k ++ [self]
            else getSummons w k in
          if decide (getMaster w self = Some k) then erase_first self added
          else added).
Proof.
  intros w'. subst w'. unfold setMaster.
  destruct newMaster as [m|]; destruct (getMaster w self) as [o|] eqn:Hold;
    simpl; rewrite ?getMaster_insert_summons, ?Hold; simpl.
  - split; [|split].
    + graph_split.
    + intros k Hk. graph_split.
    + intros k. graph_split.
  - split; [|split].
    + graph_split.
    + intros k Hk. graph_split.
    + intros k. graph_split.
  - split; [|split].
    + graph_split.
    + intros k Hk. graph_split.
    + intros k. graph_split.
  - split; [reflexivity|]. split; [reflexivity|].
    intros k. graph_split.
Qed.

Lemma erase_first_other (self s : Z) (l : list Z) :
  s <> self -> (In s (erase_first self l) <-> In s l).
Proof.
  intros Hne. induction l as [|a l IH]; simpl; [tauto|].
  destruct (a =? self) eqn:E.
  - apply Z.eqb_eq in E. subst a. split; [auto|]. intros [H|H]; [congruence|exact H].
  - simpl. rewrite IH. tauto.
Qed.

Lemma erase_first_absent (self : Z) (l : list Z) :
  ~ In self l -> erase_first self l = l.
Proof.
  induction l as [|a l IH]; simpl; [reflexivity|]. intros Hn.
  destruct (a =? self) eqn:E.
  - apply Z.eqb_eq in E. subst a. exfalso. apply Hn. left. reflexivity.
  - f_equal. apply IH. intros H. apply Hn. right. exact H.
Qed.

Lemma erase_first_NoDup (self : Z) (l : list Z) :
  List.NoDup l -> List.NoDup (erase_first self l) /\ ~ In self (erase_first self l).
Proof.
  induction l as [|a l IH]; simpl; intros Hnd.
  - split; [constructor|tauto].
  - apply List.NoDup_cons_iff in Hnd. destruct Hnd as [Ha Hl].
    destruct (a =? self) eqn:E.
    + apply Z.eqb_eq in E. subst a. split; assumption.
    + apply Z.eqb_neq in E. destruct (IH Hl) as [IH1 IH2]. split.
      * apply List.NoDup_cons; [|exact IH1].
        intros H. apply Ha. apply (erase_first_other self a l E). exact H.
      * intros [H|H]; [congruence|contradiction].
Qed.

Lemma erase_first_snoc_in (self : Z) (l : list Z) :
  In self l -> erase_first self (l ++ [self]) = erase_first self l ++ [self].
Proof.
  induction l as [|a l IH]; simpl; [tauto|]. intros Hin.
  destruct (a =? self) eqn:E; [reflexivity|].
  apply Z.eqb_neq in E. destruct Hin as [Hin|Hin]; [congruence|].
  simpl. rewrite IH by exact Hin. reflexivity.
Qed.

Lemma NoDup_snoc (x : Z) (l : list Z) :
  List.NoDup l -> ~ In x l -> List.NoDup (l ++ [x]).
Proof.
  intros Hl Hx. induction l as [|a l IH]; simpl.
  - constructor; [tauto|constructor].
  - apply List.NoDup_cons_iff in Hl. destruct Hl as [Ha Hl].
    apply List.NoDup_cons.
    + intros H. apply in_app_or in H. destruct H as [H|[H|[]]];
        [contradiction|]. subst. apply Hx. left. reflexivity.
    + apply IH; [exact Hl|]. intros H. apply Hx. right. exact H.
Qed.

(** X22. setMaster keeps the master references and the summon lists
    in step: when every creature is in the summon list of its master,
    once, and in no other summon list, this still holds after setMaster,
    whatever the creature and the new master (none, the old one, or the
    creature itself). *)
Theorem setMaster_keeps_graph (w : World) (self : Z) (newMaster : option Z) :
  graph_consistent w ->
  graph_consistent (snd (setMaster w self newMaster)).
Proof.
  intros [Hc Hnd].
  destruct (setMaster_graph w self newMaster) as (Hself & Hother & Hsum).
  set (w' := snd (setMaster w self newMaster)) in *.
  assert (Hin_self : forall m,
            In self (getSummons w' m) <-> newMaster = Some m).
  { intros m. rewrite Hsum. cbv zeta.
    destruct (decide (newMaster = Some m)) as [Hn|Hn];
      destruct (decide (getMaster w self = Some m)) as [Ho|Ho].
    - rewrite erase_first_snoc_in by (apply Hc; exact Ho).
      split; [intros _; exact Hn|]. intros _. apply in_or_app. right.
      left. reflexivity.
    - split; [intros _; exact Hn|]. intros _. apply in_or_app. right.
      left. reflexivity.
    - destruct (erase_first_NoDup self _ (Hnd m)) as [_ Habs].
      split; [intros H; contradiction|intros H; contradiction].
    - split; [|intros H; contradiction].
      intros H. apply Hc in H. contradiction. }
  assert (Hin_other : forall s m, s <> self ->
            (In s (getSummons w' m) <-> In s (getSummons w m))).
  { intros s m Hs. rewrite Hsum. cbv zeta.
    assert (Hadd : In s (if decide (newMaster = Some m)
                         then getSummons w m ++ [self] else getSummons w m)
                   <-> In s (getSummons w m)).
    { destruct (decide (newMaster = Some m)); [|tauto].
      rewrite in_app_iff. simpl. split; [|auto].
      intros [H|[H|[]]]; [exact H|congruence]. }
    destruct (decide (getMaster w self = Some m)); [|exact Hadd].
    rewrite erase_first_other by exact Hs. exact Hadd. }
  split.
  - intros s m. destruct (decide (s = self)) as [->|Hs].
    + rewrite Hself, Hin_self. tauto.
    + rewrite (Hother s Hs), (Hin_other s m Hs). apply Hc.
  - intros m. rewrite Hsum. cbv zeta.
    destruct (decide (newMaster = Some m)) as [Hn|Hn];
      destruct (decide (getMaster w self = Some m)) as [Ho|Ho].
    + rewrite erase_first_snoc_in by (apply Hc; exact Ho).
      destruct (erase_first_NoDup self _ (Hnd m)) as [H1 H2].
      apply NoDup_snoc; assumption.
    + apply NoDup_snoc; [apply Hnd|]. intros H. apply Hc in H. contradiction.
    + apply (erase_first_NoDup self _ (Hnd m)).
    + apply Hnd.
Qed.

End GraphFacts.

(** The coven is consistent. *)
Lemma coven_consistent : graph_consistent coven.
Proof.
  assert (Hm : forall s, Ownership.getMaster coven s
            = if decide (s = 3) then Some 2
              else if decide (s = 2) then Some 1 else None).
  { intros s. unfold Ownership.getMaster, coven.
    destruct (decide (s = 1)) as [->|H1]; [reflexivity|].
    rewrite lookup_total_insert_ne by congruence.
    destruct (decide (s = 2)) as [->|H2]; [reflexivity|].
    rewrite lookup_total_insert_ne by congruence.
    destruct (decide (s = 3)) as [->|H3]; [reflexivity|].
    rewrite lookup_total_insert_ne by congruence. reflexivity. }
  assert (Hs : forall m, Ownership.getSummons coven m
            = if decide (m = 1) then [2]
              else if decide (m = 2) then [3] else []).
  { intros m. unfold Ownership.getSummons, coven.
    destruct (decide (m = 1)) as [->|H1]; [reflexivity|].
    rewrite lookup_total_insert_ne by congruence.
    destruct (decide (m = 2)) as [->|H2]; [reflexivity|].
    rewrite lookup_total_insert_ne by congruence.
    destruct (decide (m = 3)) as [->|H3]; [reflexivity|].
    rewrite lookup_total_insert_ne by congruence. reflexivity. }
  split.
  - intros s m. rewrite Hm, Hs.
    destruct (decide (s = 3)) as [->|H3]; destruct (decide (m = 1)) as [->|M1];
      try destruct (decide (s = 2)) as [->|H2];
      try destruct (decide (m = 2)) as [->|M2]; simpl;
      split; intros H; try congruence; try tauto;
      repeat (destruct H as [H|H]; try congruence; try lia); try tauto.
  - intros m. rewrite Hs.
    destruct (decide (m = 1)); [|destruct (decide (m = 2))];
      repeat constructor; simpl; tauto.
Qed.

(** X22 on the coven: the imp is handed over to the sorcerer. *)
Lemma setMaster_keeps_graph_coven :
  graph_consistent (snd (Ownership.setMaster coven 3 (Some 1))).
Proof. exact (setMaster_keeps_graph coven 3 (Some 1) coven_consistent). Defined.

(** ** Conditions *)

Section ConditionFacts.

Import Conditions.

Variable CONDITION_HASTE : Z.
Variable CONDITION_PARALYZE : Z.
Variable conditionSuppressions : Z.
Variable getWalkDelay : list Condition -> Z.

Local Abbreviation removeCondition :=
  (Conditions.removeCondition CONDITION_PARALYZE getWalkDelay).
Local Abbreviation removeCondition_loop :=
  (Conditions.removeCondition_loop CONDITION_PARALYZE getWalkDelay).
Local Abbreviation hasCondition :=
  (Conditions.hasCondition conditionSuppressions).
Local Abbreviation onAddCondition :=
  (Conditions.onAddCondition CONDITION_HASTE CONDITION_PARALYZE
     conditionSuppressions getWalkDelay).

Lemma removeCondition_loop_all (type : Z) (force : bool)
    (todo : list Condition) :
  negb force && (type =? CONDITION_PARALYZE) = false ->
  forall kept,
    removeCondition_loop type force kept todo
    = (kept ++ other_types type todo, end_hooks type todo).
Proof.
  intros Hf. induction todo as [|c rest IH]; intros kept; simpl.
  - rewrite app_nil_r. reflexivity.
  - unfold other_types, end_hooks. simpl.
    destruct (condType c =? type) eqn:E; simpl.
    + rewrite Hf. simpl. rewrite IH. reflexivity.
    + rewrite IH, <- app_assoc. reflexivity.
Qed.

Lemma removeCondition_loop_deferred (todo : list Condition) :
  forall kept,
    getCondition todo CONDITION_PARALYZE <> None ->
    0 < getWalkDelay (kept ++ todo) ->
    removeCondition_loop CONDITION_PARALYZE false kept todo
    = (kept ++ todo,
       [EvSchedulerForceRemoveCondition (getWalkDelay (kept ++ todo))
          CONDITION_PARALYZE]).
Proof.
  induction todo as [|c rest IH]; intros kept Hg Hd; simpl.
  - exfalso. apply Hg. reflexivity.
  - unfold getCondition in Hg. simpl in Hg.
    destruct (condType c =? CONDITION_PARALYZE) eqn:E; simpl.
    + rewrite Z.eqb_refl. rewrite (proj2 (Z.ltb_lt _ _) Hd). reflexivity.
    + specialize (IH (kept ++ [c]) Hg). rewrite <- !app_assoc in IH.
      simpl in IH. apply IH. exact Hd.
Qed.

Lemma removeCondition_loop_none (type : Z) (force : bool)
    (todo : list Condition) :
  getCondition todo type = None ->
  forall kept, removeCondition_loop type force kept todo = (kept ++ todo, []).
Proof.
  unfold getCondition. induction todo as [|c rest IH]; intros Hg kept; simpl.
  - rewrite app_nil_r. reflexivity.
  - simpl in Hg. destruct (condType c =? type) eqn:E; [discriminate|]. simpl.
    rewrite IH by exact Hg. rewrite <- app_assoc. reflexivity.
Qed.

Lemma getCondition_other_types (type : Z) (l : list Condition) :
  getCondition (other_types type l) type = None.
Proof.
  unfold getCondition, other_types. induction l as [|c rest IH]; simpl;
    [reflexivity|].
  destruct (condType c =? type) eqn:E; simpl; [exact IH|].
  rewrite E. exact IH.
Qed.

Lemma hasCondition_getCondition (l : list Condition) (timeNow type sub : Z) :
  hasCondition l timeNow type sub = true -> getCondition l type <> None.
Proof.
  unfold Conditions.hasCondition, getCondition.
  destruct (isSuppress conditionSuppressions type); [discriminate|].
  induction l as [|c rest IH]; simpl; [discriminate|].
  destruct (condType c =? type); simpl; [discriminate|exact IH].
Qed.

(** X23. removeCondition(type, force).  When the removal is forced or
    the type is not paralysis, every condition of the type is taken out
    and ended, in the order of the list, and the conditions of the other
    types stay in their order.  An unforced removal of paralysis while
    the walk delay is positive takes nothing out and hands one forced
    removal to the scheduler, with that delay.  When no condition has the
    type nothing happens. *)
Theorem removeCondition_by_type (conditions : list Condition) (type : Z)
    (force : bool) :
  (negb force && (type =? CONDITION_PARALYZE) = false ->
   removeCondition conditions type force
   = (other_types type conditions, end_hooks type conditions)
   /\ getCondition (other_types type conditions) type = None)
  /\ (getCondition conditions CONDITION_PARALYZE <> None ->
      0 < getWalkDelay conditions ->
      removeCondition conditions CONDITION_PARALYZE false
      = (conditions,
         [EvSchedulerForceRemoveCondition (getWalkDelay conditions)
            CONDITION_PARALYZE]))
  /\ (getCondition conditions type = None ->
      removeCondition conditions type force = (conditions, [])).
Proof.
  unfold Conditions.removeCondition. split; [|split].
  - intros Hf. rewrite removeCondition_loop_all by exact Hf.
    split; [reflexivity|apply getCondition_other_types].
  - intros Hg Hd. apply (removeCondition_loop_deferred conditions []); assumption.
  - intros Hg. apply (removeCondition_loop_none type force conditions Hg []).
Qed.

Lemma removeCondition_loop_cases (type : Z) (todo : list Condition) :
  forall kept,
    let r := removeCondition_loop type false kept todo in
    (exists delay, 0 < delay
       /\ In (EvSchedulerForceRemoveCondition delay type) (snd r))
    \/ fst r = kept ++ other_types type todo.
Proof.
  induction todo as [|c rest IH]; intros kept; simpl.
  - right. rewrite app_nil_r. reflexivity.
  - unfold other_types. simpl.
    destruct (condType c =? type) eqn:E; simpl.
    + destruct ((type =? CONDITION_PARALYZE)
                && (0 <? getWalkDelay (kept ++ c :: rest))) eqn:Ed.
      * left. apply andb_prop in Ed. destruct Ed as [_ Ed].
        apply Z.ltb_lt in Ed. eexists. split; [exact Ed|]. left. reflexivity.
      * specialize (IH kept). cbv zeta in IH.
        destruct (removeCondition_loop type false kept rest) as [l evs].
        simpl in *. destruct IH as [(d & Hd & Hin)|IH].
        -- left. exists d. split; [exact Hd|]. right. right. exact Hin.
        -- right. exact IH.
    + specialize (IH (kept ++ [c])). cbv zeta in IH.
      destruct IH as [IH|IH]; [left; exact IH|right].
      rewrite IH, <- app_assoc. reflexivity.
Qed.

(** X24. Haste and paralysis exclude each other, in two ways.  After
    onAddCondition(paralysis) the creature has no haste, and the
    conditions that are not haste are as before.  After
    onAddCondition(haste) the creature can still have paralysis only if a
    forced removal of it has been handed to the scheduler, with a
    positive delay. *)
Theorem onAddCondition_excludes (conditions : list Condition)
    (timeNow type : Z) :
  CONDITION_HASTE <> CONDITION_PARALYZE ->
  let r := onAddCondition conditions timeNow type in
  (type = CONDITION_PARALYZE ->
   hasCondition (fst r) timeNow CONDITION_HASTE 0 = false
   /\ other_types CONDITION_HASTE (fst r) = other_types CONDITION_HASTE conditions)
  /\ (type = CONDITION_HASTE ->
      hasCondition (fst r) timeNow CONDITION_PARALYZE 0 = true ->
      exists delay,
        0 < delay
        /\ In (EvSchedulerForceRemoveCondition delay CONDITION_PARALYZE)
             (snd r)).
Proof.
  intros Hne r. subst r. unfold Conditions.onAddCondition. split.
  - intros ->. rewrite Z.eqb_refl. simpl andb.
    destruct (hasCondition conditions timeNow CONDITION_HASTE 0) eqn:Hh.
    + unfold Conditions.removeCondition.
      rewrite removeCondition_loop_all.
      * simpl. split.
        -- destruct (hasCondition (other_types CONDITION_HASTE conditions)
                       timeNow CONDITION_HASTE 0) eqn:E; [|reflexivity].
           apply hasCondition_getCondition in E.
           rewrite getCondition_other_types in E. congruence.
        -- unfold other_types. clear. induction conditions as [|c l IH];
             simpl; [reflexivity|].
           destruct (condType c =? CONDITION_HASTE) eqn:E; simpl;
             [exact IH|]. rewrite E. simpl. f_equal. exact IH.
      * simpl. apply Z.eqb_neq. exact Hne.
    + assert (E : (CONDITION_PARALYZE =? CONDITION_HASTE) = false)
        by (apply Z.eqb_neq; congruence).
      rewrite E. simpl. split; [exact Hh|reflexivity].
  - intros ->.
    assert (E : (CONDITION_HASTE =? CONDITION_PARALYZE) = false)
      by (apply Z.eqb_neq; congruence).
    rewrite E, Z.eqb_refl. simpl andb.
    destruct (hasCondition conditions timeNow CONDITION_PARALYZE 0) eqn:Hh.
    + intros Hafter. unfold Conditions.removeCondition in *.
      destruct (removeCondition_loop_cases CONDITION_PARALYZE conditions [])
        as [Hd|Hall]; [exact Hd|].
      simpl in Hall. rewrite Hall in Hafter.
      apply hasCondition_getCondition in Hafter.
      rewrite getCondition_other_types in Hafter. congruence.
    + simpl. rewrite Hh. discriminate.
Qed.

End ConditionFacts.

(** X24 on the hasted creature, to which a paralysis is added. *)
Lemma onAddCondition_excludes_hasted :
  let r := Conditions.onAddCondition 2 1 0 (fun _ => 300) hasted 7000 1 in
  (1 = 1 ->
   Conditions.hasCondition 0 (fst r) 7000 2 0 = false
   /\ other_types 2 (fst r) = other_types 2 hasted)
  /\ (1 = 2 ->
      Conditions.hasCondition 0 (fst r) 7000 1 0 = true ->
      exists delay,
        0 < delay
        /\ In (Conditions.EvSchedulerForceRemoveCondition delay 1) (snd r)).
Proof.
  apply (onAddCondition_excludes 2 1 0 (fun _ => 300) hasted 7000 1).
  discriminate.
Defined.

(** ** Custom skills *)

Section SkillFacts.

Import Skills.

Variable CustomSkill : Type.

(** X25. The first skill given under a name stays: giveCustomSkill
    answers true exactly when the name had no skill; afterwards
    getCustomSkill finds the skill the name had before, or the new one
    when it had none, and every other name is as before; a skill that
    was given is taken back by removeCustomSkill, which then answers true
    and restores the registry; a refused skill leaves the registry as it
    was. *)
Theorem customSkill_round_trip (c_skills : gmap string CustomSkill)
    (name : string) (new_skill : CustomSkill) :
  let r := giveCustomSkill CustomSkill c_skills name new_skill in
  (fst r = true <-> getCustomSkill CustomSkill c_skills name = None)
  /\ getCustomSkill CustomSkill (snd r) name
     = Some (default new_skill (getCustomSkill CustomSkill c_skills name))
  /\ (forall other, other <> name ->
        getCustomSkill CustomSkill (snd r) other
        = getCustomSkill CustomSkill c_skills other)
  /\ (fst r = true ->
      removeCustomSkill CustomSkill (snd r) name = (true, c_skills))
  /\ (fst r = false -> snd r = c_skills).
Proof.
  intros r. subst r. unfold giveCustomSkill, getCustomSkill, removeCustomSkill.
  destruct (c_skills !! name) as [old|] eqn:E; simpl.
  - split; [split; discriminate|]. split; [exact E|].
    split; [reflexivity|]. split; [discriminate|reflexivity].
  - split; [split; reflexivity|]. rewrite lookup_insert_eq.
    split; [reflexivity|]. split.
    + intros other Hne. apply lookup_insert_ne. congruence.
    + split; [|discriminate]. intros _. f_equal.
      apply delete_insert_id. exact E.
Qed.

(** X26. The first skill registered for an NPC under a name stays
    (Npcs::addNpcSkill and Npcs::getNpcSkill of npc.cpp): addNpcSkill
    answers true exactly when getNpcSkill found nothing; afterwards
    getNpcSkill finds the skill found before, or the new one; every other
    pair of an NPC and a skill name is answered as before. *)
Theorem addNpcSkill_first_wins
    (npc_skills : gmap string (gmap string CustomSkill))
    (npc_name skill_name : string) (skill : CustomSkill) :
  let r := addNpcSkill CustomSkill npc_skills npc_name skill_name skill in
  (fst r = true
   <-> getNpcSkill CustomSkill npc_skills skill_name npc_name = None)
  /\ getNpcSkill CustomSkill (snd r) skill_name npc_name
     = Some (default skill
               (getNpcSkill CustomSkill npc_skills skill_name npc_name))
  /\ (forall npc' skill',
        (npc', skill') <> (npc_name, skill_name) ->
        getNpcSkill CustomSkill (snd r) skill' npc'
        = getNpcSkill CustomSkill npc_skills skill' npc').
Proof.
  intros r. subst r. unfold addNpcSkill, getNpcSkill.
  destruct (npc_skills !! npc_name) as [skills|] eqn:En; simpl.
  - destruct (skills !! skill_name) as [old|] eqn:Es; simpl.
    + split; [split; discriminate|]. rewrite lookup_insert_eq.
      split; [exact Es|]. intros npc' skill' Hne.
      destruct (decide (npc' = npc_name)) as [->|Hn].
      * rewrite lookup_insert_eq, En. reflexivity.
      * rewrite lookup_insert_ne by congruence. reflexivity.
    + split; [split; reflexivity|]. rewrite lookup_insert_eq.
      rewrite lookup_insert_eq. split; [reflexivity|].
      intros npc' skill' Hne.
      destruct (decide (npc' = npc_name)) as [->|Hn].
      * rewrite lookup_insert_eq, En. apply lookup_insert_ne. congruence.
      * rewrite lookup_insert_ne by congruence. reflexivity.
  - rewrite lookup_empty. simpl. split; [split; reflexivity|].
    rewrite lookup_insert_eq, lookup_insert_eq. split; [reflexivity|].
    intros npc' skill' Hne.
    destruct (decide (npc' = npc_name)) as [->|Hn].
    + rewrite lookup_insert_eq, En.
      rewrite lookup_insert_ne by congruence. apply lookup_empty.
    + rewrite lookup_insert_ne by congruence. reflexivity.
Qed.

End SkillFacts.

(** ** Script events *)

Section BitFacts.

Lemma testbit_one (k : Z) : Z.testbit 1 k = (k =? 0).
Proof. destruct k as [|p|p]; reflexivity. Qed.

Lemma testbit_wrap_uint32 (x n : Z) :
  0 <= n < 32 -> Z.testbit (wrap_uint32 x) n = Z.testbit x n.
Proof.
  intros Hn. unfold wrap_uint32, wrap_unsigned.
  apply Z.mod_pow2_bits_low. lia.
Qed.

Lemma testbit_type_bit (t n : Z) :
  0 <= t -> 0 <= n -> Z.testbit (Z.shiftl 1 t) n = (n =? t).
Proof.
  intros Ht Hn. rewrite Z.shiftl_spec by lia. rewrite testbit_one.
  destruct (n =? t) eqn:E; [apply Z.eqb_eq in E|apply Z.eqb_neq in E].
  - apply Z.eqb_eq. lia.
  - apply Z.eqb_neq. lia.
Qed.

Lemma testbit_set_type (f t n : Z) :
  0 <= t < 32 -> 0 <= n < 32 ->
  Z.testbit (wrap_uint32 (Z.lor f (wrap_uint32 (Z.shiftl 1 t)))) n
  = Z.testbit f n || (n =? t).
Proof.
  intros Ht Hn. rewrite testbit_wrap_uint32 by lia.
  rewrite Z.lor_spec, testbit_wrap_uint32 by lia.
  rewrite testbit_type_bit by lia. reflexivity.
Qed.

Lemma testbit_clear_type (f t n : Z) :
  0 <= t < 32 -> 0 <= n < 32 ->
  Z.testbit
    (wrap_uint32
       (Z.land f (wrap_uint32 (Z.lnot (wrap_uint32 (Z.shiftl 1 t)))))) n
  = Z.testbit f n && negb (n =? t).
Proof.
  intros Ht Hn. rewrite testbit_wrap_uint32 by lia.
  rewrite Z.land_spec, testbit_wrap_uint32 by lia.
  rewrite Z.lnot_spec by lia. rewrite testbit_wrap_uint32 by lia.
  rewrite testbit_type_bit by lia. reflexivity.
Qed.

Lemma uint32_bits_inj (a b : Z) :
  0 <= a < 2 ^ 32 -> 0 <= b < 2 ^ 32 ->
  (forall n, 0 <= n < 32 -> Z.testbit a n = Z.testbit b n) -> a = b.
Proof.
  intros Ha Hb Hbits. apply Z.bits_inj'. intros n Hn.
  destruct (Z_lt_dec n 32) as [Hlt|Hge]; [apply Hbits; lia|].
  rewrite <- (Z.mod_small a (2 ^ 32)) by lia.
  rewrite <- (Z.mod_small b (2 ^ 32)) by lia.
  rewrite !Z.mod_pow2_bits_high by lia. reflexivity.
Qed.

End BitFacts.

Section EventFacts.

Import ScriptEvents.

Variable getEventByName : string -> option Z.
Variable getEventType : Z -> Z.
Variable hasEventRegistered : Z -> Z -> bool.

(** [hasEventRegistered] tests the bit of the type, and a type is one of
    the 32 bits. *)
Hypothesis hasEventRegistered_bit :
  forall field type, hasEventRegistered field type = Z.testbit field type.
Hypothesis getEventType_range : forall event, 0 <= getEventType event < 32.

Local Abbreviation consistent :=
  (events_consistent getEventType hasEventRegistered).
Local Abbreviation register :=
  (registerCreatureEvent getEventByName getEventType hasEventRegistered).
Local Abbreviation unregister :=
  (unregisterCreatureEvent getEventByName getEventType hasEventRegistered).

Lemma existsb_event (event : Z) (l : list Z) :
  existsb (fun e => e =? event) l = true <-> In event l.
Proof.
  rewrite existsb_exists. split.
  - intros (e & Hin & He). apply Z.eqb_eq in He. subst. exact Hin.
  - intros Hin. exists event. split; [exact Hin|apply Z.eqb_refl].
Qed.

Lemma register_consistent (c : Creature) (name : string) :
  consistent c -> consistent (snd (register c name)).
Proof.
  intros (Hbit & Hnd & Hr). unfold registerCreatureEvent.
  destruct (getEventByName name) as [event|]; [|split; [|split]; assumption].
  pose proof (getEventType_range event) as Ht.
  destruct (hasEventRegistered (scriptEventsBitField c) (getEventType event))
    eqn:Hreg.
  - destruct (existsb (fun e => e =? event) (eventsList c)) eqn:Hex;
      [split; [|split]; assumption|].
    assert (Hnot : ~ In event (eventsList c)).
    { intros Hin. apply existsb_event in Hin. congruence. }
    simpl. split; [|split; [|exact Hr]].
    + intros type Hty. simpl. rewrite (Hbit type Hty). split.
      * intros (e & Hin & He). exists e. split; [|exact He].
        apply in_or_app. left. exact Hin.
      * intros (e & Hin & He). apply in_app_or in Hin.
        destruct Hin as [Hin|[<-|[]]].
        -- exists e. split; assumption.
        -- apply (Hbit type Hty). rewrite <- He. exact Hreg.
    + simpl. apply NoDup_snoc; assumption.
  - simpl. split; [|split].
    + intros type Hty. simpl. rewrite hasEventRegistered_bit.
      rewrite testbit_set_type by lia.
      rewrite <- hasEventRegistered_bit. split.
      * intros H. apply orb_prop in H. destruct H as [H|H].
        -- apply (Hbit type Hty) in H. destruct H as (e & Hin & He).
           exists e. split; [apply in_or_app; left; exact Hin|exact He].
        -- apply Z.eqb_eq in H. exists event. split; [|congruence].
           apply in_or_app. right. left. reflexivity.
      * intros (e & Hin & He). apply in_app_or in Hin.
        destruct Hin as [Hin|[<-|[]]].
        -- apply orb_true_iff. left. apply (Hbit type Hty).
           exists e. split; assumption.
        -- apply orb_true_iff. right. apply Z.eqb_eq. congruence.
    + simpl. apply NoDup_snoc; [exact Hnd|]. intros Hin.
      assert (hasEventRegistered (scriptEventsBitField c) (getEventType event)
              = true); [|congruence].
      apply (Hbit _ Ht). exists event. split; [exact Hin|reflexivity].
    + simpl. apply wrap_uint32_range.
Qed.

Lemma unregister_fold (event type : Z) (l : list Z) :
  forall events resetTypeBit,
    fold_left
      (fun '(events, resetTypeBit) curEvent =>
         if curEvent =? event then (events, resetTypeBit)
         else if getEventType curEvent =? type
         then (events ++ [curEvent], false)
         else (events ++ [curEvent], resetTypeBit))
      l (events, resetTypeBit)
    = (events ++ List.filter (fun e => negb (e =? event)) l,
       resetTypeBit
       && negb (existsb (fun e => negb (e =? event) && (getEventType e =? type))
                  l)).
Proof.
  induction l as [|e l IH]; intros events b; simpl.
  - rewrite app_nil_r, andb_true_r. reflexivity.
  - destruct (e =? event) eqn:E; simpl; [apply IH|].
    destruct (getEventType e =? type) eqn:Et; simpl.
    + rewrite IH, <- app_assoc. simpl. rewrite andb_false_r. reflexivity.
    + rewrite IH, <- app_assoc. reflexivity.
Qed.

Lemma filter_other_in (event e : Z) (l : list Z) :
  In e (List.filter (fun e => negb (e =? event)) l) <-> In e l /\ e <> event.
Proof.
  rewrite filter_In. split; intros [H1 H2]; split; try exact H1.
  - intros ->. rewrite Z.eqb_refl in H2. discriminate.
  - apply negb_true_iff. apply Z.eqb_neq. exact H2.
Qed.

Lemma unregister_consistent (c : Creature) (name : string) :
  consistent c -> consistent (snd (unregister c name)).
Proof.
  intros (Hbit & Hnd & Hr). unfold unregisterCreatureEvent.
  destruct (getEventByName name) as [event|]; [|split; [|split]; assumption].
  pose proof (getEventType_range event) as Ht.
  destruct (hasEventRegistered (scriptEventsBitField c) (getEventType event))
    eqn:Hreg; simpl; [|split; [|split]; assumption].
  rewrite unregister_fold. simpl.
  set (others :=
         existsb (fun e => negb (e =? event)
                           && (getEventType e =? getEventType event))
           (eventsList c)).
  assert (Hothers : others = true
            <-> exists e, In e (eventsList c) /\ e <> event
                          /\ getEventType e = getEventType event).
  { unfold others. rewrite existsb_exists. split.
    - intros (e & Hin & H). apply andb_prop in H. destruct H as [H1 H2].
      exists e. split; [exact Hin|]. split.
      + intros ->. rewrite Z.eqb_refl in H1. discriminate.
      + apply Z.eqb_eq. exact H2.
    - intros (e & Hin & Hne & He). exists e. split; [exact Hin|].
      apply andb_true_intro. split.
      + apply negb_true_iff, Z.eqb_neq. exact Hne.
      + apply Z.eqb_eq. exact He. }
  split; [|split].
  - intros type Hty. simpl.
    assert (Hiff : (exists e, In e (List.filter (fun e => negb (e =? event))
                                       (eventsList c))
                              /\ getEventType e = type)
                   <-> exists e, In e (eventsList c) /\ e <> event
                                 /\ getEventType e = type).
    { split; intros (e & Hin & He); exists e.
      - apply filter_other_in in Hin. tauto.
      - split; [apply filter_other_in|]; tauto. }
    rewrite Hiff. destruct others eqn:Ho; simpl.
    + rewrite (Hbit type Hty). split.
      * intros (e & Hin & He).
        destruct (Z.eq_dec e event) as [->|Hne].
        -- destruct (proj1 Hothers eq_refl) as (e' & Hin' & Hne' & He').
           exists e'. split; [exact Hin'|]. split; [exact Hne'|congruence].
        -- exists e. tauto.
      * intros (e & Hin & _ & He). exists e. tauto.
    + rewrite hasEventRegistered_bit, testbit_clear_type by lia.
      rewrite <- hasEventRegistered_bit. split.
      * intros H. apply andb_prop in H. destruct H as [H1 H2].
        apply negb_true_iff, Z.eqb_neq in H2.
        apply (Hbit type Hty) in H1. destruct H1 as (e & Hin & He).
        exists e. split; [exact Hin|]. split; [|exact He]. congruence.
      * intros (e & Hin & Hne & He). apply andb_true_intro. split.
        -- apply (Hbit type Hty). exists e. tauto.
        -- apply negb_true_iff, Z.eqb_neq. intros ->.
           assert (Hf : false = true); [|discriminate].
           apply Hothers. exists e. tauto.
  - simpl. apply List.NoDup_filter. exact Hnd.
  - simpl. destruct others; [exact Hr|apply wrap_uint32_range].
Qed.

(** X27. Registering and unregistering script events keep the bit
    field and the list in step: when the bit of a type is set exactly if
    an event of that type is registered, no event is registered twice and
    the field is a uint32_t, the same holds after registerCreatureEvent
    and after unregisterCreatureEvent.  ([hasEventRegistered], which is
    not among the sources, is taken to test the bit of the type.) *)
Theorem script_events_consistent (c : Creature) (name : string) :
  consistent c ->
  consistent (snd (register c name))
  /\ consistent (snd (unregister c name)).
Proof.
  intros Hc. split; [apply register_consistent|apply unregister_consistent];
    exact Hc.
Qed.

Variable isLoaded : Z -> bool.

(** X28. The early exit of getCreatureEvents loses nothing: when the
    bit field and the list are in step, getCreatureEvents(type) is the
    list of the registered events of that type that are loaded, in the
    order of registration. *)
Theorem getCreatureEvents_filter (c : Creature) (type : Z) :
  consistent c -> 0 <= type < 32 ->
  getCreatureEvents getEventType isLoaded hasEventRegistered c type
  = List.filter (fun e => isLoaded e && (getEventType e =? type))
      (eventsList c).
Proof.
  intros (Hbit & _ & _) Hty. unfold getCreatureEvents.
  destruct (hasEventRegistered (scriptEventsBitField c) type) eqn:Hreg;
    [reflexivity|]. simpl.
  assert (Hnone : forall e, In e (eventsList c) -> getEventType e <> type).
  { intros e Hin He.
    assert (hasEventRegistered (scriptEventsBitField c) type = true);
      [|congruence].
    apply (Hbit type Hty). exists e. tauto. }
  revert Hnone. generalize (eventsList c). intros l.
  induction l as [|e l IH]; intros Hnone; simpl; [reflexivity|].
  assert (E : (getEventType e =? type) = false).
  { apply Z.eqb_neq. apply Hnone. left. reflexivity. }
  rewrite E, andb_false_r. apply IH. intros e' H. apply Hnone. right. exact H.
Qed.

End EventFacts.

(** A creature without script events is consistent. *)
Lemma no_events_consistent :
  events_consistent event_type Z.testbit (ScriptEvents.mkCreature 0 []).
Proof.
  split; [|split].
  - intros type Hty. simpl. rewrite Z.bits_0. split; [discriminate|].
    intros (e & [] & _).
  - constructor.
  - simpl. change (2 ^ 32) with 4294967296. lia.
Qed.

(** X27 on a creature without script events and the event onThink. *)
Lemma script_events_consistent_onThink :
  events_consistent event_type Z.testbit
    (snd (ScriptEvents.registerCreatureEvent event_named event_type Z.testbit
            (ScriptEvents.mkCreature 0 []) "onThink"))
  /\ events_consistent event_type Z.testbit
       (snd (ScriptEvents.unregisterCreatureEvent event_named event_type
               Z.testbit (ScriptEvents.mkCreature 0 []) "onThink")).
Proof.
  apply (script_events_consistent event_named event_type Z.testbit).
  - reflexivity.
  - intros event. unfold event_type. lia.
  - exact no_events_consistent.
Defined.

(** The creature with onThink registered is consistent. *)
Lemma onThink_registered_consistent :
  events_consistent event_type Z.testbit (ScriptEvents.mkCreature 8 [5]).
Proof.
  exact (register_consistent event_named event_type Z.testbit
           ltac:(reflexivity) ltac:(intros event; unfold event_type; lia)
           (ScriptEvents.mkCreature 0 []) "onThink" no_events_consistent).
Qed.

(** X28 on the creature with onThink registered. *)
Lemma getCreatureEvents_filter_onThink :
  ScriptEvents.getCreatureEvents event_type event_loaded Z.testbit
    (ScriptEvents.mkCreature 8 [5]) 3
  = [5].
Proof.
  rewrite (getCreatureEvents_filter event_type Z.testbit event_loaded
             (ScriptEvents.mkCreature 8 [5]) 3 onThink_registered_consistent
             ltac:(lia)).
  reflexivity.
Defined.

(** ** The path condition *)

Section PathingFacts.

Import WalkCache Pathing.

Variable isSightClear : Position -> Position -> bool.

Lemma isInRange_true (targetPos startPos testPos : Position)
    (fpp : FindPathParams) :
  Position_valid targetPos -> Position_valid testPos ->
  view_range_ok (maxTargetDist fpp) ->
  isInRange targetPos startPos testPos fpp = true
  <-> (- (if fullPathSearch fpp || (x startPos <=? x targetPos)
          then maxTargetDist fpp else 0)
       <= x testPos - x targetPos
       <= (if fullPathSearch fpp || (x targetPos <=? x startPos)
           then maxTargetDist fpp else 0))
      /\ (- (if fullPathSearch fpp || (y startPos <=? y targetPos)
             then maxTargetDist fpp else 0)
          <= y testPos - y targetPos
          <= (if fullPathSearch fpp || (y targetPos <=? y startPos)
              then maxTargetDist fpp else 0)).
Proof.
  unfold Position_valid, view_range_ok. change (2 ^ 31 - 65536) with 2147418112.
  intros (Hx1 & Hy1 & _) (Hx2 & Hy2 & _) Hd.
  unfold isInRange, getOffsetX, getOffsetY.
  destruct (fullPathSearch fpp); simpl orb; cbv iota.
  - rewrite !wrap_int32_small by lia.
    repeat match goal with
           | |- context [?a <? ?b] =>
               destruct (Z.ltb_spec a b)
           end; split; try discriminate; try reflexivity; lia.
  - assert (Ea : (0 <=? x startPos - x targetPos) = (x targetPos <=? x startPos)).
    { destruct (x targetPos <=? x startPos) eqn:E;
        [apply Z.leb_le in E; apply Z.leb_le|apply Z.leb_gt in E; apply Z.leb_gt];
        lia. }
    assert (Eb : (x startPos - x targetPos <=? 0) = (x startPos <=? x targetPos)).
    { destruct (x startPos <=? x targetPos) eqn:E;
        [apply Z.leb_le in E; apply Z.leb_le|apply Z.leb_gt in E; apply Z.leb_gt];
        lia. }
    assert (Ec : (0 <=? y startPos - y targetPos) = (y targetPos <=? y startPos)).
    { destruct (y targetPos <=? y startPos) eqn:E;
        [apply Z.leb_le in E; apply Z.leb_le|apply Z.leb_gt in E; apply Z.leb_gt];
        lia. }
    assert (Ed : (y startPos - y targetPos <=? 0) = (y startPos <=? y targetPos)).
    { destruct (y startPos <=? y targetPos) eqn:E;
        [apply Z.leb_le in E; apply Z.leb_le|apply Z.leb_gt in E; apply Z.leb_gt];
        lia. }
    rewrite Ea, Eb, Ec, Ed.
    destruct (x targetPos <=? x startPos); destruct (x startPos <=? x targetPos);
      destruct (y targetPos <=? y startPos); destruct (y startPos <=? y targetPos);
      rewrite !wrap_int32_small by lia;
      repeat match goal with
             | |- context [?a <? ?b] =>
                 destruct (Z.ltb_spec a b)
             end; split; try discriminate; try reflexivity; lia.
Qed.

(** X29. The positions a path search may end at.  For positions of the
    map and a target distance that cannot overflow: a position
    isInRange accepts is within maxTargetDist steps of the target; a full
    path search accepts every such position; a search that is not full
    never accepts a position on the far side of the target from the
    start, on either axis. *)
Theorem isInRange_square (targetPos startPos testPos : Position)
    (fpp : FindPathParams) :
  Position_valid targetPos -> Position_valid testPos ->
  view_range_ok (maxTargetDist fpp) ->
  (isInRange targetPos startPos testPos fpp = true ->
   step_distance testPos targetPos <= maxTargetDist fpp)
  /\ (fullPathSearch fpp = true ->
      step_distance testPos targetPos <= maxTargetDist fpp ->
      isInRange targetPos startPos testPos fpp = true)
  /\ (fullPathSearch fpp = false ->
      isInRange targetPos startPos testPos fpp = true ->
      (x targetPos < x startPos -> x targetPos <= x testPos)
      /\ (x startPos < x targetPos -> x testPos <= x targetPos)
      /\ (y targetPos < y startPos -> y targetPos <= y testPos)
      /\ (y startPos < y targetPos -> y testPos <= y targetPos)).
Proof.
  intros H1 H2 Hd.
  pose proof (isInRange_true targetPos startPos testPos fpp H1 H2 Hd) as Hr.
  unfold view_range_ok in Hd. unfold step_distance. split; [|split].
  - intros Ht. apply Hr in Ht.
    destruct (fullPathSearch fpp || (x startPos <=? x targetPos));
      destruct (fullPathSearch fpp || (x targetPos <=? x startPos));
      destruct (fullPathSearch fpp || (y startPos <=? y targetPos));
      destruct (fullPathSearch fpp || (y targetPos <=? y startPos)); lia.
  - intros Hf Hs. apply Hr. rewrite Hf. simpl. lia.
  - intros Hf Ht. apply Hr in Ht. rewrite Hf in Ht. simpl in Ht.
    destruct (x startPos <=? x targetPos) eqn:E1;
      destruct (x targetPos <=? x startPos) eqn:E2;
      destruct (y startPos <=? y targetPos) eqn:E3;
      destruct (y targetPos <=? y startPos) eqn:E4;
      rewrite ?Z.leb_le, ?Z.leb_gt in *; lia.
Qed.

(** X30. A position the path condition accepts is in range, in clear
    sight of the target when that is asked for, and between
    minTargetDist and maxTargetDist steps from the target;
    bestMatchDist is left alone when maxTargetDist is 1 and otherwise
    becomes 0 at exactly maxTargetDist and the distance of the position
    below it, which is then more than the best so far.  A refusal leaves
    bestMatchDist alone. *)
Theorem call_accepts (targetPos startPos testPos : Position)
    (fpp : FindPathParams) (bestMatchDist : Z) :
  let r := call isSightClear targetPos startPos testPos fpp bestMatchDist in
  let testDist := step_distance targetPos testPos in
  (fst r = true ->
   isInRange targetPos startPos testPos fpp = true
   /\ (clearSight fpp = true -> isSightClear testPos targetPos = true)
   /\ minTargetDist fpp <= testDist <= maxTargetDist fpp
   /\ snd r = (if maxTargetDist fpp =? 1 then bestMatchDist
               else if testDist =? maxTargetDist fpp then 0 else testDist)
   /\ (maxTargetDist fpp <> 1 -> testDist < maxTargetDist fpp ->
       bestMatchDist < testDist))
  /\ (fst r = false -> snd r = bestMatchDist).
Proof.
  intros r testDist. subst r testDist. unfold call, step_distance,
    getDistanceX, getDistanceY, getOffsetX, getOffsetY.
  set (d := Z.max (Z.abs (x targetPos - x testPos))
              (Z.abs (y targetPos - y testPos))).
  destruct (isInRange targetPos startPos testPos fpp); simpl negb; cbv iota;
    [|split; [discriminate|reflexivity]].
  destruct (clearSight fpp); simpl andb.
  - destruct (isSightClear testPos targetPos); simpl negb; cbv iota;
      [|split; [discriminate|reflexivity]].
    destruct (maxTargetDist fpp =? 1) eqn:E1.
    + apply Z.eqb_eq in E1.
      destruct (d <? minTargetDist fpp) eqn:E2;
        destruct (maxTargetDist fpp <? d) eqn:E3; simpl;
        rewrite ?Z.ltb_lt, ?Z.ltb_ge in *;
        (split; [|try reflexivity; discriminate]); try discriminate.
      intros _. repeat split; auto; lia.
    + apply Z.eqb_neq in E1.
      destruct (d <=? maxTargetDist fpp) eqn:E2;
        [|split; [discriminate|reflexivity]].
      destruct (d <? minTargetDist fpp) eqn:E3;
        [split; [discriminate|reflexivity]|].
      destruct (d =? maxTargetDist fpp) eqn:E4.
      * rewrite ?Z.leb_le, ?Z.ltb_ge, ?Z.eqb_eq in *. simpl.
        split; [|discriminate]. intros _. repeat split; auto; lia.
      * destruct (bestMatchDist <? d) eqn:E5;
          [|split; [discriminate|reflexivity]].
        rewrite ?Z.leb_le, ?Z.ltb_ge, ?Z.ltb_lt, ?Z.eqb_neq in *. simpl.
        split; [|discriminate]. intros _. repeat split; auto; lia.
  - destruct (maxTargetDist fpp =? 1) eqn:E1.
    + apply Z.eqb_eq in E1.
      destruct (d <? minTargetDist fpp) eqn:E2;
        destruct (maxTargetDist fpp <? d) eqn:E3; simpl;
        rewrite ?Z.ltb_lt, ?Z.ltb_ge in *;
        (split; [|try reflexivity; discriminate]); try discriminate.
      intros _. repeat split; auto; try discriminate; lia.
    + apply Z.eqb_neq in E1.
      destruct (d <=? maxTargetDist fpp) eqn:E2;
        [|split; [discriminate|reflexivity]].
      destruct (d <? minTargetDist fpp) eqn:E3;
        [split; [discriminate|reflexivity]|].
      destruct (d =? maxTargetDist fpp) eqn:E4.
      * rewrite ?Z.leb_le, ?Z.ltb_ge, ?Z.eqb_eq in *. simpl.
        split; [|discriminate]. intros _.
        repeat split; auto; try discriminate; lia.
      * destruct (bestMatchDist <? d) eqn:E5;
          [|split; [discriminate|reflexivity]].
        rewrite ?Z.leb_le, ?Z.ltb_ge, ?Z.ltb_lt, ?Z.eqb_neq in *. simpl.
        split; [|discriminate]. intros _.
        repeat split; auto; try discriminate; lia.
Qed.

End PathingFacts.

(** X29 on the parameters of a follow path, from 4 tiles east of the
    target. *)
Lemma isInRange_square_follow :
  let fpp := Pathing.getPathSearchParams true in
  let targetPos := WalkCache.mkPosition 100 100 7 in
  let startPos := WalkCache.mkPosition 104 100 7 in
  let testPos := WalkCache.mkPosition 101 100 7 in
  (Pathing.isInRange targetPos startPos testPos fpp = true ->
   step_distance testPos targetPos <= Pathing.maxTargetDist fpp)
  /\ (Pathing.fullPathSearch fpp = true ->
      step_distance testPos targetPos <= Pathing.maxTargetDist fpp ->
      Pathing.isInRange targetPos startPos testPos fpp = true)
  /\ (Pathing.fullPathSearch fpp = false ->
      Pathing.isInRange targetPos startPos testPos fpp = true ->
      (100 < 104 -> 100 <= 101) /\ (104 < 100 -> 101 <= 100)
      /\ (100 < 100 -> 100 <= 100) /\ (100 < 100 -> 100 <= 100)).
Proof.
  apply (isInRange_square (WalkCache.mkPosition 100 100 7)
           (WalkCache.mkPosition 104 100 7) (WalkCache.mkPosition 101 100 7)
           (Pathing.getPathSearchParams true));
    vm_compute; repeat split; discriminate.
Defined.
